(** * SimpleLang compiler: a shallow embedding of [compiler.c]

    The one-pass lexer / parser / code generator of [compiler.c] is
    embedded as state-passing functions over a record holding the C
    globals, and the properties of its specification are stated and proved
    against these functions.

    Modelling conventions.
    - The [FILE*] is the list of characters not yet read: [fgetc] pops the
      head, [ungetc] pushes one character back, [EOF] is the empty list.
    - [vars[0..varCount-1]] and [assembly[0..asmLine-1]] are lists; the
      counters [varCount] and [asmLine] are their lengths.
    - C [int] counters are [Z]; they stay far below [INT_MAX]
      ([counters_fit_int]).
    - [exit(1)] after a message on [stderr] is the outcome [Exit]; a store
      outside an array, or outside a row of [assembly], is the outcome
      [Undefined]; the recursion on nested blocks and the [while] loops
      are bounded by a fuel argument, whose exhaustion is the outcome
      [Timeout]. Fuel beyond the length of the input is never exhausted by
      a statement ([safe_compileStatement]), and by the top-level loop
      only where the source loops for ever
      ([compile_terminates_unless_stray_brace]).
    - What the program writes on [stdout] (the banner of [main], the
      token trace of [printToken], the closing message) is not part of
      the state: [printToken] is embedded as the line it prints, [main]
      as the status it returns and the file it writes.
    - The character classes of [<ctype.h>] are those of the "C" locale,
      the program never calling [setlocale]. *)

From Stdlib Require Import ZArith List String Ascii Bool Lia Permutation.
From Stdlib Require Import DecimalString DecimalZ.
Import ListNotations.

Local Open Scope list_scope.
Local Open Scope string_scope.

(** ** Constants for compiler limits *)

Definition MAX_TOKEN_LEN : nat := 100.
Definition MAX_VARS : nat := 100.
Definition MAX_CODE_LINES : nat := 1000.
(** Width of one row of [char assembly[MAX_CODE_LINES][100]]. *)
Definition ASM_LINE_LEN : nat := 100.

(** ** Tokens *)

Inductive TokenType : Type :=
| TOKEN_INT | TOKEN_IDENTIFIER | TOKEN_NUMBER | TOKEN_ASSIGN
| TOKEN_PLUS | TOKEN_MINUS | TOKEN_IF | TOKEN_EQUAL
| TOKEN_LPAREN | TOKEN_RPAREN | TOKEN_LBRACE | TOKEN_RBRACE | TOKEN_SEMICOLON
| TOKEN_EOF | TOKEN_UNKNOWN.

(** The integer value of an enumerator, as [%d] prints it. *)
Definition TokenType_code (t : TokenType) : Z :=
  match t with
  | TOKEN_INT => 0 | TOKEN_IDENTIFIER => 1 | TOKEN_NUMBER => 2
  | TOKEN_ASSIGN => 3 | TOKEN_PLUS => 4 | TOKEN_MINUS => 5
  | TOKEN_IF => 6 | TOKEN_EQUAL => 7 | TOKEN_LPAREN => 8
  | TOKEN_RPAREN => 9 | TOKEN_LBRACE => 10 | TOKEN_RBRACE => 11
  | TOKEN_SEMICOLON => 12 | TOKEN_EOF => 13 | TOKEN_UNKNOWN => 14
  end%Z.

Record Token : Type := mkToken { type : TokenType; text : string }.

(** The C struct [Variable]; that name is reserved in Rocq. *)
Record VarEntry : Type := mkVariable { name : string; address : Z }.

(** ** Compiler state: the globals of [compiler.c] and the input stream *)

Record State : Type := mkState {
  file : list ascii;
  vars : list VarEntry;
  labelCount : Z;
  currentAddress : Z;
  assembly : list string;
  currentToken : Token;
  hasToken : bool
}.

Definition varCount (s : State) : nat := List.length (vars s).
Definition asmLine (s : State) : nat := List.length (assembly s).

Definition set_file (f : list ascii) (s : State) : State :=
  mkState f (vars s) (labelCount s) (currentAddress s) (assembly s)
          (currentToken s) (hasToken s).

Definition set_pushback (t : Token) (h : bool) (s : State) : State :=
  mkState (file s) (vars s) (labelCount s) (currentAddress s) (assembly s) t h.

Definition set_hasToken (h : bool) (s : State) : State :=
  set_pushback (currentToken s) h s.

Definition set_symbols (vs : list VarEntry) (a : Z) (s : State) : State :=
  mkState (file s) vs (labelCount s) a (assembly s)
          (currentToken s) (hasToken s).

Definition set_labelCount (n : Z) (s : State) : State :=
  mkState (file s) (vars s) n (currentAddress s) (assembly s)
          (currentToken s) (hasToken s).

Definition set_assembly (l : list string) (s : State) : State :=
  mkState (file s) (vars s) (labelCount s) (currentAddress s) l
          (currentToken s) (hasToken s).

(** The state at program start, reading [input]. The static [currentToken]
    is zero-initialised: enumerator 0 and an empty text. *)
Definition initial (input : string) : State :=
  mkState (list_ascii_of_string input) [] 0%Z 16%Z []
          (mkToken TOKEN_INT "") false.

(** ** Outcomes and the state-and-exit monad *)

Inductive Fault : Type :=
| LineIndexOutOfBounds   (* assembly[asmLine] with asmLine >= MAX_CODE_LINES *)
| RowOverflow.           (* more than ASM_LINE_LEN bytes written into one row *)

Inductive result (A : Type) : Type :=
| Ok (a : A) (s : State)
| Exit (stderr : string) (s : State)
| Undefined (f : Fault)
| Timeout.

Arguments Ok {A} a s.
Arguments Exit {A} stderr s.
Arguments Undefined {A} f.
Arguments Timeout {A}.

Definition M (A : Type) : Type := State -> result A.

Definition ret {A} (a : A) : M A := fun s => Ok a s.

Definition bind {A B} (m : M A) (k : A -> M B) : M B :=
  fun s =>
    match m s with
    | Ok a s' => k a s'
    | Exit e s' => Exit e s'
    | Undefined f => Undefined f
    | Timeout => Timeout
    end.

Definition exit {A} (stderr : string) : M A := fun s => Exit stderr s.

Declare Scope comp_scope.
Delimit Scope comp_scope with comp.
Notation "x <- m ;; k" := (bind m (fun x => k))
  (at level 100, m at next level, right associativity) : comp_scope.
Notation "m ;; k" := (bind m (fun _ => k))
  (at level 100, right associativity) : comp_scope.
Local Open Scope comp_scope.

(** ** Text helpers *)

Definition nl : string := String (ascii_of_nat 10) "".

(** [%d] applied to an [int]. *)
Definition dec (z : Z) : string := NilZero.string_of_int (Z.to_int z).

(** A one-character buffer [{c, '\0'}] read as a C string. *)
Definition cstr1 (c : ascii) : string :=
  if Ascii.eqb c zero then "" else String c "".

(** ** Character classes ("C" locale) *)

Definition in_range (lo hi : N) (c : ascii) : bool :=
  let n := N_of_ascii c in (N.leb lo n && N.leb n hi)%bool.

Definition isspace (c : ascii) : bool := in_range 9 13 c || Ascii.eqb c " ".
Definition isdigit (c : ascii) : bool := in_range 48 57 c.
Definition isalpha (c : ascii) : bool := in_range 65 90 c || in_range 97 122 c.
Definition isalnum (c : ascii) : bool := isalpha c || isdigit c.

(** ** Lexer *)

(** [while ((c = fgetc(file)) != EOF && isspace(c));] returning [c]
    ([None] for [EOF]) and the rest of the stream. *)
Fixpoint skipSpace (f : list ascii) : option ascii * list ascii :=
  match f with
  | [] => (None, [])
  | c :: rest => if isspace c then skipSpace rest else (Some c, rest)
  end.

(** The scanning loop shared by identifiers and numbers,
    [while ((c = fgetc(file)) != EOF && p(c))
       if (len < MAX_TOKEN_LEN - 1) token.text[len++] = c;]
    followed by [if (c != EOF) ungetc(c, file);]. *)
Fixpoint scanWhile (p : ascii -> bool) (txt : string) (f : list ascii)
  : string * list ascii :=
  match f with
  | [] => (txt, [])
  | c :: rest =>
      if p c then
        scanWhile p
          (if (String.length txt <? MAX_TOKEN_LEN - 1)%nat
           then txt ++ String c "" else txt) rest
      else (txt, c :: rest)
  end.

Definition keyword (txt : string) : TokenType :=
  if String.eqb txt "int" then TOKEN_INT
  else if String.eqb txt "if" then TOKEN_IF
  else TOKEN_IDENTIFIER.

(** The [switch] on a single character other than ['=']. *)
Definition punctuation (c : ascii) : TokenType :=
  if Ascii.eqb c "+" then TOKEN_PLUS
  else if Ascii.eqb c "-" then TOKEN_MINUS
  else if Ascii.eqb c "(" then TOKEN_LPAREN
  else if Ascii.eqb c ")" then TOKEN_RPAREN
  else if Ascii.eqb c "{" then TOKEN_LBRACE
  else if Ascii.eqb c "}" then TOKEN_RBRACE
  else if Ascii.eqb c ";" then TOKEN_SEMICOLON
  else TOKEN_UNKNOWN.

Definition getNextToken : M Token := fun s =>
  if hasToken s then Ok (currentToken s) (set_hasToken false s)
  else
    match skipSpace (file s) with
    | (None, rest) => Ok (mkToken TOKEN_EOF "") (set_file rest s)
    | (Some c, rest) =>
        if isalpha c then
          let (txt, rest') := scanWhile isalnum (String c "") rest in
          Ok (mkToken (keyword txt) txt) (set_file rest' s)
        else if isdigit c then
          let (txt, rest') := scanWhile isdigit (String c "") rest in
          Ok (mkToken TOKEN_NUMBER txt) (set_file rest' s)
        else if Ascii.eqb c "=" then
          match rest with
          | c' :: rest' =>
              if Ascii.eqb c' "="
              then Ok (mkToken TOKEN_EQUAL "==") (set_file rest' s)
              else Ok (mkToken TOKEN_ASSIGN "=") (set_file rest s)
          | [] => Ok (mkToken TOKEN_ASSIGN "=") (set_file [] s)
          end
        else Ok (mkToken (punctuation c) (cstr1 c)) (set_file rest s)
    end.

Definition ungetToken (token : Token) : M unit := fun s =>
  Ok tt (set_pushback token true s).

(** ** Code emitter *)

(** [vsprintf(assembly[asmLine++], fmt, args)], [line] being the formatted
    text. The source tests neither the row index nor the row width. *)
Definition emit (line : string) : M unit := fun s =>
  if (asmLine s <? MAX_CODE_LINES)%nat then
    if (String.length line <? ASM_LINE_LEN)%nat
    then Ok tt (set_assembly (assembly s ++ [line])%list s)
    else Undefined RowOverflow
  else Undefined LineIndexOutOfBounds.

(** ** Symbol table *)

(** The search loop of [getVarAddress]: the first entry named [n]. *)
Fixpoint findVar (n : string) (vs : list VarEntry) : option Z :=
  match vs with
  | [] => None
  | v :: rest => if String.eqb (name v) n then Some (address v)
                 else findVar n rest
  end.

Definition getVarAddress (n : string) : M Z := fun s =>
  match findVar n (vars s) with
  | Some a => Ok a s
  | None =>
      if (MAX_VARS <=? varCount s)%nat
      then Exit ("Error: Too many variables" ++ nl) s
      else Ok (currentAddress s)
              (set_symbols (vars s ++ [mkVariable n (currentAddress s)])%list
                           (currentAddress s + 1)%Z s)
  end.

(** ** Parser and code generator *)

Definition isPlusMinus (t : TokenType) : bool :=
  match t with TOKEN_PLUS | TOKEN_MINUS => true | _ => false end.

(** [(op.type == TOKEN_PLUS) ? "ADD" : "SUB"] *)
Definition mnemonic (t : TokenType) : string :=
  match t with TOKEN_PLUS => "ADD" | _ => "SUB" end.

(** The operand after [+] or [-], common to both arms of
    [compileExpression]. *)
Definition compileOperand (op : Token) : M unit :=
  rhs <- getNextToken ;;
  match type rhs with
  | TOKEN_NUMBER => emit (mnemonic (type op) ++ "I " ++ text rhs)
  | TOKEN_IDENTIFIER =>
      a <- getVarAddress (text rhs) ;;
      emit (mnemonic (type op) ++ " " ++ dec a)
  | _ => exit ("Error: Expected number or identifier after operator" ++ nl)
  end.

Definition compileExpression (targetVar : string) : M unit :=
  token <- getNextToken ;;
  match type token with
  | TOKEN_NUMBER =>
      emit ("LDI " ++ text token) ;;
      op <- getNextToken ;;
      (if isPlusMinus (type op) then compileOperand op else ungetToken op) ;;
      a <- getVarAddress targetVar ;;
      emit ("STA " ++ dec a)
  | TOKEN_IDENTIFIER =>
      let var := text token in
      op <- getNextToken ;;
      if isPlusMinus (type op) then
        a <- getVarAddress var ;;
        emit ("LDA " ++ dec a) ;;
        compileOperand op ;;
        t <- getVarAddress targetVar ;;
        emit ("STA " ++ dec t)
      else
        a <- getVarAddress var ;;
        emit ("LDA " ++ dec a) ;;
        t <- getVarAddress targetVar ;;
        emit ("STA " ++ dec t) ;;
        ungetToken op
  | _ => exit ("Error: Expected identifier or number in expression" ++ nl)
  end.

(** [getNextToken] followed by the test [token.type != expected]. *)
Definition expect (expected : TokenType -> bool) (msg : string) : M Token :=
  token <- getNextToken ;;
  if expected (type token) then ret token else exit (msg ++ nl).

Definition is_IDENTIFIER t := match t with TOKEN_IDENTIFIER => true | _ => false end.
Definition is_SEMICOLON t := match t with TOKEN_SEMICOLON => true | _ => false end.
Definition is_ASSIGN t := match t with TOKEN_ASSIGN => true | _ => false end.
Definition is_LPAREN t := match t with TOKEN_LPAREN => true | _ => false end.
Definition is_RPAREN t := match t with TOKEN_RPAREN => true | _ => false end.
Definition is_LBRACE t := match t with TOKEN_LBRACE => true | _ => false end.
Definition is_EQUAL t := match t with TOKEN_EQUAL => true | _ => false end.
Definition is_EOF t := match t with TOKEN_EOF => true | _ => false end.
Definition is_RBRACE t := match t with TOKEN_RBRACE => true | _ => false end.
Definition is_operand t :=
  match t with TOKEN_IDENTIFIER | TOKEN_NUMBER => true | _ => false end.

(** [labelCount++] *)
Definition nextLabel : M Z := fun s =>
  Ok (labelCount s) (set_labelCount (labelCount s + 1)%Z s).

(** [while ((token = getNextToken(file)).type != TOKEN_RBRACE) { ... }],
    the loop over the statements of an [if] block; [stmt] is the recursive
    call [compileStatement(file)]. *)
Fixpoint compileBlock (stmt : M unit) (fuel : nat) : M unit :=
  match fuel with
  | O => fun _ => Timeout
  | S fuel' =>
      token <- getNextToken ;;
      if is_RBRACE (type token) then ret tt
      else if is_EOF (type token) then
        exit ("Error: Unexpected EOF while parsing if block" ++ nl)
      else ungetToken token ;; stmt ;; compileBlock stmt fuel'
  end.

(** The [if] arm of [compileStatement], after the keyword. *)
Definition compileIf (stmt : M unit) (fuel : nat) : M unit :=
  expect is_LPAREN "Error: Expected '(' after 'if'" ;;
  lhs <- expect is_IDENTIFIER "Error: Expected identifier in if condition" ;;
  expect is_EQUAL "Error: Expected '==' in if condition" ;;
  rhs <- expect is_operand
           "Error: Expected identifier or number in if condition" ;;
  expect is_RPAREN "Error: Expected ')' after if condition" ;;
  expect is_LBRACE "Error: Expected '{' after if condition" ;;
  n1 <- nextLabel ;;
  n2 <- nextLabel ;;
  let labelTrue := "L" ++ dec n1 in
  let labelEnd := "L" ++ dec n2 in
  a <- getVarAddress (text lhs) ;;
  emit ("LDA " ++ dec a) ;;
  match type rhs with
  | TOKEN_NUMBER => emit ("SUBI " ++ text rhs)
  | _ => b <- getVarAddress (text rhs) ;; emit ("SUB " ++ dec b)
  end ;;
  emit ("JZ " ++ labelTrue) ;;
  emit ("JMP " ++ labelEnd) ;;
  emit (labelTrue ++ ":") ;;
  compileBlock stmt fuel ;;
  emit (labelEnd ++ ":").

Fixpoint compileStatement (fuel : nat) : M unit :=
  match fuel with
  | O => fun _ => Timeout
  | S fuel' =>
      token <- getNextToken ;;
      match type token with
      | TOKEN_EOF => ret tt
      | TOKEN_INT =>
          id <- expect is_IDENTIFIER
                  "Error: Expected identifier after 'int'" ;;
          getVarAddress (text id) ;;
          expect is_SEMICOLON
            "Error: Expected ';' after variable declaration" ;;
          ret tt
      | TOKEN_IDENTIFIER =>
          let var := text token in
          expect is_ASSIGN "Error: Expected '=' after identifier" ;;
          compileExpression var ;;
          expect is_SEMICOLON "Error: Expected ';' after assignment" ;;
          ret tt
      | TOKEN_IF => compileIf (compileStatement fuel') fuel'
      | TOKEN_SEMICOLON => ret tt
      | TOKEN_RBRACE => ungetToken token
      | _ =>
          exit ("Error: Unexpected token '" ++ text token ++ "' (type: "
                ++ dec (TokenType_code (type token)) ++ ")" ++ nl)
      end
  end.

(** [compile]: the [while (1)] loop over the top-level statements. *)
Fixpoint compile (fuel : nat) : M unit :=
  match fuel with
  | O => fun _ => Timeout
  | S fuel' =>
      token <- getNextToken ;;
      if is_EOF (type token) then ret tt
      else ungetToken token ;; compileStatement fuel' ;; compile fuel'
  end.

(** The emitted lines of a finished run. *)
Definition output {A} (r : result A) : option (list string) :=
  match r with Ok _ s => Some (assembly s) | _ => None end.

(** ** Token trace *)

(** The array [typeNames] of [printToken]. *)
Definition typeNames : list string :=
  ["TOKEN_INT"; "TOKEN_IDENTIFIER"; "TOKEN_NUMBER"; "TOKEN_ASSIGN";
   "TOKEN_PLUS"; "TOKEN_MINUS"; "TOKEN_IF"; "TOKEN_EQUAL";
   "TOKEN_LPAREN"; "TOKEN_RPAREN"; "TOKEN_LBRACE"; "TOKEN_RBRACE";
   "TOKEN_SEMICOLON"; "TOKEN_EOF"; "TOKEN_UNKNOWN"].

(** [printToken]: the line that
    [printf("Token: %s ('%s')\n", typeNames[token.type], token.text)]
    writes on [stdout]; [None] stands for an index [token.type] outside
    [typeNames]. *)
Definition printToken (token : Token) : option string :=
  match nth_error typeNames (Z.to_nat (TokenType_code (type token))) with
  | Some name =>
      Some ("Token: " ++ name ++ " ('" ++ text token ++ "')" ++ nl)
  | None => None
  end.

(** ** Entry point *)

(** What a run of the program leaves: the status [main] returns and the
    contents of [output.asm] if it was written; or the status and the
    message of an [exit] inside [compile]; or a fault; or no end. What
    goes to [stdout] (the banner, the token trace and the closing
    message) is left out, and so is the text that [perror] writes. *)
Inductive Outcome : Type :=
| Returned (status : Z) (output_asm : option string)
| Exited (status : Z) (stderr : string)
| Crashed (f : Fault)
| Hangs.

(** [for (int i = 0; i < asmLine; i++) fprintf(out, "%s\n", assembly[i]);] *)
Fixpoint writeLines (lines : list string) : string :=
  match lines with
  | [] => ""
  | line :: rest => line ++ nl ++ writeLines rest
  end.

(** [main], given the contents of [input.sl] ([None] if [fopen] fails) and
    whether [output.asm] can be created. *)
Definition main (fuel : nat) (input_sl : option string) (can_create : bool)
  : Outcome :=
  match input_sl with
  | None => Returned 1 None
  | Some source =>
      match compile fuel (initial source) with
      | Ok _ s =>
          if can_create then Returned 0 (Some (writeLines (assembly s)))
          else Returned 1 None
      | Exit e _ => Exited 1 e
      | Undefined f => Crashed f
      | Timeout => Hangs
      end
  end.

(** * Vocabulary of the properties *)

(** The state after a successful allocation of [n]. *)
Definition allocated (n : string) (s : State) : State :=
  set_symbols (vars s ++ [mkVariable n (currentAddress s)])%list
              (currentAddress s + 1)%Z s.

(** A scan stops at end of input or at the first character outside [p]. *)
Definition stops (p : ascii -> bool) (tail : list ascii) : bool :=
  match tail with [] => true | c :: _ => negb (p c) end.

(** The spelling of an identifier or keyword: a letter, then letters and
    digits, up to the first character that is neither. *)
Definition identifier_at (c : ascii) (cs tail : list ascii) : bool :=
  isalpha c && forallb isalnum cs && stops isalnum tail.

(** The spelling of a number: digits up to the first non-digit. *)
Definition number_at (c : ascii) (cs tail : list ascii) : bool :=
  isdigit c && forallb isdigit cs && stops isdigit tail.

(** The state in which a run stops, on normal return or on [exit(1)]. *)
Definition final {A} (r : result A) : option State :=
  match r with
  | Ok _ s | Exit _ s => Some s
  | Undefined _ | Timeout => None
  end.

(** The label text [L<n>] produced by [sprintf(.., "L%d", n)]. *)
Definition label (n : Z) : string := "L" ++ dec n.

(** The [i]-th address handed out: the counter starts at 16. *)
Definition nth_address (i : nat) : Z := (16 + Z.of_nat i)%Z.

(** Shape of the symbol table during a compilation: names are pairwise
    distinct, the [i]-th entry holds address [16 + i], the next free
    address follows the last one handed out, and the table is not
    over-full. *)
Definition symtab_ok (s : State) : Prop :=
  NoDup (map name (vars s)) /\
  map address (vars s) = map nth_address (seq 0 (varCount s)) /\
  currentAddress s = nth_address (varCount s) /\
  (varCount s <= MAX_VARS)%nat.

(** Every run only appends: entries to the symbol table, lines to the
    output; and the label counter never decreases. *)
Definition grows (s s' : State) : Prop :=
  (exists l, vars s' = (vars s ++ l)%list) /\
  (exists l, assembly s' = (assembly s ++ l)%list) /\
  (labelCount s <= labelCount s')%Z.

(** Resolving a list of names one after the other. *)
Fixpoint resolveAll (names : list string) : M (list Z) :=
  match names with
  | [] => ret []
  | n :: rest =>
      a <- getVarAddress n ;; l <- resolveAll rest ;; ret (a :: l)
  end.

(** The name [v<i>]: distinct numbers give distinct names. *)
Definition sample_name (i : nat) : string := "v" ++ dec (Z.of_nat i).

(** The program [int v0; int v1; ... ], [n] declarations long. *)
Fixpoint declarations (n : nat) : string :=
  match n with
  | O => ""
  | S n' => declarations n' ++ "int " ++ sample_name n' ++ ";"
  end.

(** Two states in which the lexer is at the same point. *)
Definition lex_eq (s1 s2 : State) : Prop :=
  file s1 = file s2 /\ hasToken s1 = hasToken s2 /\
  currentToken s1 = currentToken s2.

(** The load of the first operand, as the specification tabulates it. *)
Definition spec_load_line (t : Token) (vs : list VarEntry) : option string :=
  match type t with
  | TOKEN_NUMBER => Some ("LDI " ++ text t)
  | TOKEN_IDENTIFIER =>
      option_map (fun a => "LDA " ++ dec a) (findVar (text t) vs)
  | _ => None
  end.

(** The arithmetic instruction for operator [op] and second operand
    [rhs], as the specification tabulates it. *)
Definition spec_arith_line (op rhs : Token) (vs : list VarEntry)
  : option string :=
  match type op, type rhs with
  | TOKEN_PLUS, TOKEN_NUMBER => Some ("ADDI " ++ text rhs)
  | TOKEN_MINUS, TOKEN_NUMBER => Some ("SUBI " ++ text rhs)
  | TOKEN_PLUS, TOKEN_IDENTIFIER =>
      option_map (fun a => "ADD " ++ dec a) (findVar (text rhs) vs)
  | TOKEN_MINUS, TOKEN_IDENTIFIER =>
      option_map (fun a => "SUB " ++ dec a) (findVar (text rhs) vs)
  | _, _ => None
  end.

(** The next [n] tokens and the lexer state after them. *)
Fixpoint nextTokens (n : nat) (s : State) : list Token * State :=
  match n with
  | O => ([], s)
  | S n' =>
      match getNextToken s with
      | Ok t s1 => let (ts, s2) := nextTokens n' s1 in (t :: ts, s2)
      | _ => ([], s)
      end
  end.

(** The comparison instruction for the right-hand side of a condition, as
    the specification gives it. *)
Definition spec_compare_line (rhs : Token) (vs : list VarEntry)
  : option string :=
  match type rhs with
  | TOKEN_NUMBER => Some ("SUBI " ++ text rhs)
  | TOKEN_IDENTIFIER =>
      option_map (fun a => "SUB " ++ dec a) (findVar (text rhs) vs)
  | _ => None
  end.

(** The five lines that open an [if]: compare, branch, true label. *)
Definition if_prologue (a : Z) (cmp : string) (n : Z) : list string :=
  ["LDA " ++ dec a; cmp; "JZ " ++ label n; "JMP " ++ label (n + 1);
   label n ++ ":"].

(** The statements of an [if] block, as the loop
    [while ((token = getNextToken(file)).type != TOKEN_RBRACE)] goes
    through them: the token read is neither [}] nor the end of input, it
    is pushed back, and [compileStatement] compiles one statement.
    [block_statements fuel s chunks q]: from [s] the loop compiles one
    statement for each element of [chunks], which is the list of the
    lines that statement appends to the output, and [q] is the state
    after the last of them. *)
Inductive block_statements (fuel : nat)
  : State -> list (list string) -> State -> Prop :=
| block_empty s : block_statements fuel s [] s
| block_more s t s1 s2 lines chunks q :
    getNextToken s = Ok t s1 ->
    type t <> TOKEN_RBRACE -> type t <> TOKEN_EOF ->
    (ungetToken t ;; compileStatement fuel) s1 = Ok tt s2 ->
    assembly s2 = (assembly s ++ lines)%list ->
    block_statements fuel s2 chunks q ->
    block_statements fuel s (lines :: chunks) q.

(** The branch instructions of the output. *)
Definition is_jump (line : string) : bool :=
  prefix "JZ " line || prefix "JMP " line.

(** The branches of the first [n] [if] statements: the [k]-th takes the
    labels numbered [2k] and [2k + 1]. *)
Definition expected_jumps (n : nat) : list string :=
  flat_map (fun k => ["JZ " ++ label (2 * Z.of_nat k);
                      "JMP " ++ label (2 * Z.of_nat k + 1)])
           (seq 0 n).

(** At a statement boundary [n] [if] statements have been opened: the
    label counter is [2n] and the branches emitted so far are theirs. *)
Definition labels_ok (s : State) : Prop :=
  exists n : nat,
    labelCount s = (2 * Z.of_nat n)%Z /\
    filter is_jump (assembly s) = expected_jumps n.

(** The lines that define a label: they start with [L] and are neither
    [LDI] nor [LDA]. *)
Definition is_label_line (line : string) : bool :=
  prefix "L" line && negb (prefix "LD" line).

(** The line that defines the label numbered [k]. *)
Definition label_line (k : nat) : string := label (Z.of_nat k) ++ ":".

(** From [s] to [s'] lines were appended among which the label lines are,
    in some order and once each, those of the numbers the label counter
    went through. *)
Definition defines_labels (s s' : State) : Prop :=
  forall n : nat,
    labelCount s = Z.of_nat n ->
    exists (n' : nat) (l : list string),
      labelCount s' = Z.of_nat n' /\ (n <= n')%nat /\
      assembly s' = (assembly s ++ l)%list /\
      Permutation (filter is_label_line l)
                  (map label_line (seq n (n' - n))).

(** [m'] has the outcome of [m] wherever [m] does not run out of fuel. *)
Definition refines {A} (m m' : M A) : Prop :=
  forall s, m s <> Timeout -> m' s = m s.

(** What is left to read: the characters of the stream and the token
    pushed back, if any. *)
Definition pending (s : State) : nat :=
  (List.length (file s) + if hasToken s then 1 else 0)%nat.

(** A statement compiler consumes input: never more pending after than
    before, and strictly less when the statement starts with a token
    other than end of input and [}]. *)
Definition consumes (stmt : M unit) : Prop :=
  forall s s', stmt s = Ok tt s' ->
    (pending s' <= pending s)%nat /\
    (forall t s1, getNextToken s = Ok t s1 ->
       is_EOF (type t) = false -> is_RBRACE (type t) = false ->
       (pending s' < pending s)%nat).

(** [m] never runs out of fuel. *)
Definition total {A} (m : M A) : Prop := forall s, m s <> Timeout.

(** [m] does not time out on states with at most [P] pending. *)
Definition safe (P : nat) {A} (m : M A) : Prop :=
  forall s, (pending s <= P)%nat -> m s <> Timeout.

(** [m] leaves no more to read than it found. *)
Definition nonincreasing {A} (m : M A) : Prop :=
  forall s a s', m s = Ok a s' -> (pending s' <= pending s)%nat.

(** The loop of [compile] meets a stray brace when, after some
    statements, the next token at top level is [}]. *)
Inductive meets_stray_brace : State -> Prop :=
| brace_now s t s1 :
    getNextToken s = Ok t s1 -> type t = TOKEN_RBRACE ->
    meets_stray_brace s
| brace_later s t s1 fuel s2 :
    getNextToken s = Ok t s1 -> is_EOF (type t) = false ->
    compileStatement fuel (set_pushback t true s1) = Ok tt s2 ->
    meets_stray_brace s2 ->
    meets_stray_brace s.

(** [n] copies of [piece]. *)
Fixpoint replicate (n : nat) (piece : string) : string :=
  match n with
  | O => ""
  | S n' => piece ++ replicate n' piece
  end.

(** A number literal: a non-empty string of digits. *)
Definition is_number (n : string) : bool :=
  match list_ascii_of_string n with
  | [] => false
  | c :: cs => forallb isdigit (c :: cs)
  end.

(** The state in which [x = 5 + y;] leaves the expression compiler, [x]
    being the target and the input starting after the [=]. *)
Definition after_expression : State :=
  Eval vm_compute in
    match compileExpression "x" (initial "5 + y;") with
    | Ok _ s => s
    | _ => initial ""
    end.

(** The state after the program [x = 1; y = x + 2;]. *)
Definition after_xy : State :=
  Eval vm_compute in
    match compile 10 (initial "x = 1; y = x + 2;") with
    | Ok _ s => s
    | _ => initial ""
    end.

(** Sample programs and the states they leave. *)
Definition if_demo : string := "if (x == 5) { x = x + 1; }".

(** The state after the statement [if_demo]. *)
Definition after_if : State :=
  Eval vm_compute in
    match compileStatement 3 (initial if_demo) with
    | Ok _ s => s
    | _ => initial ""
    end.

(** Two [if] statements, the first with a nested one. *)
Definition nested_demo : string :=
  "if (a == 1) { if (b == a) { c = 2; } } if (c == 2) { ; }".

(** The state after the program [nested_demo]. *)
Definition after_nested : State :=
  Eval vm_compute in
    match compile 8 (initial nested_demo) with
    | Ok _ s => s
    | _ => initial ""
    end.

(** An identifier of 120 letters. *)
Definition long_identifier : list ascii := repeat "a"%char 120.

(** The initial state on the long identifier followed by [ = 1;]. *)
Definition long_input : State :=
  initial (string_of_list_ascii long_identifier ++ " = 1;").

(** ** Vocabulary of the further properties *)

(** Every character of [txt] satisfies [p]. *)
Definition all_chars (p : ascii -> bool) (txt : string) : bool :=
  forallb p (list_ascii_of_string txt).

(** The text of the token types that have only one. *)
Definition fixed_text (t : TokenType) : option string :=
  match t with
  | TOKEN_INT => Some "int" | TOKEN_IF => Some "if"
  | TOKEN_ASSIGN => Some "=" | TOKEN_EQUAL => Some "=="
  | TOKEN_PLUS => Some "+" | TOKEN_MINUS => Some "-"
  | TOKEN_LPAREN => Some "(" | TOKEN_RPAREN => Some ")"
  | TOKEN_LBRACE => Some "{" | TOKEN_RBRACE => Some "}"
  | TOKEN_SEMICOLON => Some ";" | TOKEN_EOF => Some ""
  | TOKEN_IDENTIFIER | TOKEN_NUMBER | TOKEN_UNKNOWN => None
  end.

(** The characters the lexer gives a meaning to. *)
Definition in_alphabet (c : ascii) : bool :=
  isspace c || isalnum c || Ascii.eqb c "=" ||
  negb (match punctuation c with TOKEN_UNKNOWN => true | _ => false end).

(** What the lexer guarantees of a token: its text is the one text of its
    type; or a letter followed by letters and digits that is not a
    keyword; or a string of digits; or at most one character outside the
    alphabet; and it fits [char text[MAX_TOKEN_LEN]] with its
    terminator. *)
Definition token_ok (t : Token) : bool :=
  match fixed_text (type t) with
  | Some sp => String.eqb (text t) sp
  | None =>
      (String.length (text t) <? MAX_TOKEN_LEN)%nat &&
      match type t with
      | TOKEN_IDENTIFIER =>
          match text t with
          | EmptyString => false
          | String c rest => isalpha c && all_chars isalnum rest
          end && negb (String.eqb (text t) "int")
             && negb (String.eqb (text t) "if")
      | TOKEN_NUMBER => is_number (text t)
      | _ => (String.length (text t) <=? 1)%nat &&
             all_chars (fun c => negb (in_alphabet c)) (text t)
      end
  end.

(** The token pushed back, if any, is one the lexer produced. *)
Definition lexer_ok (s : State) : Prop :=
  hasToken s = true -> token_ok (currentToken s) = true.

(** From [s] to [s'] nothing was overwritten: lines were appended to the
    output, entries to the symbol table, these with the consecutive
    addresses the counter went through, and the label counter did not
    decrease. *)
Definition extends (s s' : State) : Prop :=
  exists vs ls,
    vars s' = (vars s ++ vs)%list /\
    assembly s' = (assembly s ++ ls)%list /\
    (labelCount s <= labelCount s')%Z /\
    currentAddress s' = (currentAddress s + Z.of_nat (List.length vs))%Z /\
    map address vs =
      map (fun i => (currentAddress s + Z.of_nat i)%Z)
          (seq 0 (List.length vs)).

(** The messages of the [fprintf(stderr, ...)] calls that take no
    argument. *)
Definition fatal_messages : list string :=
  map (fun m => m ++ nl)
    ["Error: Too many variables";
     "Error: Expected number or identifier after operator";
     "Error: Expected identifier or number in expression";
     "Error: Expected identifier after 'int'";
     "Error: Expected ';' after variable declaration";
     "Error: Expected '=' after identifier";
     "Error: Expected ';' after assignment";
     "Error: Expected '(' after 'if'";
     "Error: Expected identifier in if condition";
     "Error: Expected '==' in if condition";
     "Error: Expected identifier or number in if condition";
     "Error: Expected ')' after if condition";
     "Error: Expected '{' after if condition";
     "Error: Unexpected EOF while parsing if block"].

(** The message of the last arm of [compileStatement]. *)
Definition unexpected_token (t : Token) : string :=
  "Error: Unexpected token '" ++ text t ++ "' (type: "
  ++ dec (TokenType_code (type t)) ++ ")" ++ nl.

(** The token types [compileStatement] has an arm for. *)
Definition starts_statement (t : TokenType) : bool :=
  match t with
  | TOKEN_INT | TOKEN_IDENTIFIER | TOKEN_IF | TOKEN_SEMICOLON
  | TOKEN_RBRACE | TOKEN_EOF => true
  | _ => false
  end.

(** What the compiler can write on [stderr] before [exit(1)]. *)
Definition diagnostic (e : string) : Prop :=
  In e fatal_messages \/
  exists t, starts_statement (type t) = false /\ e = unexpected_token t.

(** Every [exit] of [m] carries a message in [P]. *)
Definition exits_with (P : string -> Prop) {A} (m : M A) : Prop :=
  forall s e s', m s = Exit e s' -> P e.

(** The instructions the compiler writes: loads and arithmetic on a
    literal; loads, stores and arithmetic on an address; branches to a
    label number; and the definition of a label. *)
Inductive Instr : Type :=
| LDI (n : string) | ADDI (n : string) | SUBI (n : string)
| LDA (a : Z) | STA (a : Z) | ADD (a : Z) | SUB (a : Z)
| JZ (l : Z) | JMP (l : Z) | LABEL (l : Z).

(** The line of an instruction, as the format strings of the [emit] calls
    print it. *)
Definition render (i : Instr) : string :=
  match i with
  | LDI n => "LDI " ++ n | ADDI n => "ADDI " ++ n | SUBI n => "SUBI " ++ n
  | LDA a => "LDA " ++ dec a | STA a => "STA " ++ dec a
  | ADD a => "ADD " ++ dec a | SUB a => "SUB " ++ dec a
  | JZ l => "JZ " ++ label l | JMP l => "JMP " ++ label l
  | LABEL l => label l ++ ":"
  end.

(** An instruction makes sense for the symbol table [vs] and the label
    counter [labels]: a literal is a string of digits, an address is that
    of an entry of the table, a label number is one the counter went
    through. *)
Definition instr_ok (vs : list VarEntry) (labels : Z) (i : Instr) : bool :=
  match i with
  | LDI n | ADDI n | SUBI n => is_number n
  | LDA a | STA a | ADD a | SUB a =>
      existsb (fun v => Z.eqb (address v) a) vs
  | JZ l | JMP l | LABEL l => (0 <=? l)%Z && (l <? labels)%Z
  end.

(** [i] is the definition of the label numbered [l]. *)
Definition defines (l : Z) (i : Instr) : bool :=
  match i with LABEL l' => Z.eqb l' l | _ => false end.

Definition is_branch (i : Instr) : bool :=
  match i with JZ _ | JMP _ => true | _ => false end.

(** Every branch is followed, further down, by the definition of its
    label. *)
Fixpoint jumps_forward (p : list Instr) : bool :=
  match p with
  | [] => true
  | i :: rest =>
      match i with
      | JZ l | JMP l => existsb (defines l) rest
      | _ => true
      end && jumps_forward rest
  end.

(** The lines appended from [s] to [s'] are the program [prog]. *)
Definition emits (s s' : State) (prog : list Instr) : Prop :=
  assembly s' = (assembly s ++ map render prog)%list /\
  forallb (instr_ok (vars s') (labelCount s')) prog = true /\
  jumps_forward prog = true.

(** The lexer on a bare stream: the next token and what is left. *)
Definition scan (f : list ascii) : Token * list ascii :=
  match getNextToken (set_file f (initial "")) with
  | Ok t s => (t, file s)
  | _ => (mkToken TOKEN_EOF "", [])
  end.

(** The tokens of a stream up to the end of input. *)
Fixpoint tokenize (fuel : nat) (f : list ascii) : list Token :=
  match fuel with
  | O => []
  | S fuel' =>
      let (t, rest) := scan f in
      if is_EOF (type t) then [] else t :: tokenize fuel' rest
  end.

(** The tokens of a source text. *)
Definition tokens (input : string) : list Token :=
  tokenize (S (String.length input)) (list_ascii_of_string input).

Definition same_tokens (f1 f2 : list ascii) : Prop :=
  tokenize (S (List.length f1)) f1 = tokenize (S (List.length f2)) f2.

(** Two states that differ only in the layout of what is left to read. *)
Definition alike (s1 s2 : State) : Prop :=
  vars s1 = vars s2 /\ labelCount s1 = labelCount s2 /\
  currentAddress s1 = currentAddress s2 /\ assembly s1 = assembly s2 /\
  currentToken s1 = currentToken s2 /\ hasToken s1 = hasToken s2 /\
  same_tokens (file s1) (file s2).

(** Two outcomes that differ only in that layout. *)
Definition alike_result {A} (r1 r2 : result A) : Prop :=
  match r1, r2 with
  | Ok a s1, Ok b s2 => a = b /\ alike s1 s2
  | Exit e s1, Exit e' s2 => e = e' /\ alike s1 s2
  | Undefined f, Undefined f' => f = f'
  | Timeout, Timeout => True
  | _, _ => False
  end.

(** [m] does not see the layout of its input. *)
Definition layout_blind {A} (m : M A) : Prop :=
  forall s1 s2, alike s1 s2 -> alike_result (m s1) (m s2).

(** The texts of a list of tokens, one after the other. *)
Fixpoint spell (ts : list Token) : string :=
  match ts with
  | [] => ""
  | t :: rest => text t ++ spell rest
  end.

(** The token kept its whole spelling: it has fewer than the 99
    characters at which the lexer stops storing. *)
Definition untruncated (t : Token) : bool :=
  (String.length (text t) <? MAX_TOKEN_LEN - 1)%nat.

(** The characters that are not white space. *)
Definition visible (c : ascii) : bool := negb (isspace c).

(** No run of digits of the stream [f] is longer than [limit], [run]
    digits having just been read. *)
Fixpoint digit_runs (limit run : nat) (f : list ascii) : bool :=
  match f with
  | [] => true
  | c :: rest =>
      if isdigit c then (run <? limit)%nat && digit_runs limit (S run) rest
      else digit_runs limit 0 rest
  end.

(** The longest number literal whose instructions all fit a row of
    [assembly]: [ADDI ] and [SUBI ] take five of its 99 characters. *)
Definition MAX_LITERAL : nat := 94.

(** A number token short enough for every instruction. *)
Definition short (t : Token) : Prop :=
  type t = TOKEN_NUMBER -> (String.length (text t) <= MAX_LITERAL)%nat.

(** The state leaves room for whatever the rest of the input can make the
    compiler emit, with [credit] lines or labels to spare: lines, labels
    and pending input together stay within the rows of [assembly]; no
    number literal ahead is too long for a row; the symbol table is in
    shape. *)
Definition roomy (credit : nat) (s : State) : Prop :=
  (hasToken s = true -> short (currentToken s)) /\
  symtab_ok s /\ (0 <= labelCount s)%Z /\
  (Z.of_nat (asmLine s) + labelCount s + Z.of_nat (pending s)
   + Z.of_nat credit <= Z.of_nat MAX_CODE_LINES)%Z /\
  digit_runs MAX_LITERAL 0 (file s) = true.

(** From a state in [P], [m] does not run into undefined behaviour, and
    returns only in a state in [Q]. *)
Definition never_faults {A} (P : State -> Prop) (m : M A)
  (Q : A -> State -> Prop) : Prop :=
  forall s, P s ->
    match m s with
    | Ok a s' => Q a s'
    | Undefined _ => False
    | Exit _ _ | Timeout => True
    end.

(** Reading a token other than the end of input earns one credit. *)
Definition earned (t : TokenType) (credit : nat) : nat :=
  if is_EOF t then credit else S credit.

(** The lines of a text, each ended by a newline: what a reader of
    [output.asm] gets back. *)
Fixpoint readLines_from (line : string) (txt : string) : list string :=
  match txt with
  | EmptyString => []
  | String c rest =>
      if Ascii.eqb c (ascii_of_nat 10) then line :: readLines_from "" rest
      else readLines_from (line ++ String c "") rest
  end.

Definition readLines (txt : string) : list string := readLines_from "" txt.

Definition no_newline (line : string) : bool :=
  all_chars (fun c => negb (Ascii.eqb c (ascii_of_nat 10))) line.

(** The state in which the compilation of [y = 3; x = ;] exits, on the
    missing right-hand side. *)
Definition after_error : State :=
  Eval vm_compute in
    match compile 3 (initial "y = 3; x = ;") with
    | Exit _ s => s
    | _ => initial ""
    end.

(** ** Number literals *)

Definition is_NUMBER t := match t with TOKEN_NUMBER => true | _ => false end.

(** The texts of the number tokens among [ts], in order. *)
Definition literals (ts : list Token) : list string :=
  map text (filter (fun t => is_NUMBER (type t)) ts).

(** The tokens still to come in state [s]: the token pushed back, if any,
    then the tokens of the stream. *)
Definition ahead (s : State) : list Token :=
  ((if hasToken s then [currentToken s] else []) ++
   tokenize (S (List.length (file s))) (file s))%list.

(** The operand of a line [LDI n], [ADDI n] or [SUBI n]. *)
Definition immediate (line : string) : option string :=
  if prefix "LDI " line
  then Some (substring 4 (String.length line - 4) line)
  else if prefix "ADDI " line || prefix "SUBI " line
  then Some (substring 5 (String.length line - 5) line)
  else None.

(** The operands of the instructions of [lines] that have an immediate
    operand, in order. *)
Definition immediates (lines : list string) : list string :=
  flat_map (fun line => match immediate line with
                        | Some n => [n]
                        | None => []
                        end) lines.

(** The literals of a run: those already in the output, then those still
    to come. *)
Definition numbers (s : State) : list string :=
  (immediates (assembly s) ++ literals (ahead s))%list.

(** A program with a literal in each position a number can take, some
    with leading zeros, one beyond 8 bits. *)
Definition literal_demo : string :=
  "x = 000256 + 07; if (x == 0999) { y = x - 65536; }".

(** * Properties *)

(** ** Inversion of the monad *)

Lemma bind_Ok {A B} (m : M A) (k : A -> M B) s b s' :
  bind m k s = Ok b s' ->
  exists a s1, m s = Ok a s1 /\ k a s1 = Ok b s'.
Proof.
  unfold bind. destruct (m s) as [a s1| | |]; try discriminate.
  intros H. exists a, s1. split; [reflexivity|exact H].
Qed.

Lemma bind_Ok_intro {A B} (m : M A) (k : A -> M B) s a s1 :
  m s = Ok a s1 -> bind m k s = k a s1.
Proof. unfold bind. intros ->. reflexivity. Qed.

Lemma ret_Ok {A} (a b : A) s s' : ret a s = Ok b s' -> a = b /\ s = s'.
Proof. unfold ret. intros H. inversion H. split; reflexivity. Qed.

Lemma exit_Ok {A} msg s (b : A) s' : exit msg s = Ok b s' -> False.
Proof. unfold exit. discriminate. Qed.

Lemma expect_Ok p msg s t s' :
  expect p msg s = Ok t s' -> getNextToken s = Ok t s' /\ p (type t) = true.
Proof.
  unfold expect. intros H. apply bind_Ok in H as (a & s1 & E & H).
  destruct (p (type a)) eqn:P.
  - apply ret_Ok in H as [-> ->]. split; assumption.
  - apply exit_Ok in H. contradiction.
Qed.

(** ** What each primitive changes *)

Lemma getNextToken_total s : exists t s', getNextToken s = Ok t s'.
Proof.
  unfold getNextToken. destruct (hasToken s); [eauto|].
  destruct (skipSpace (file s)) as [[c|] rest]; [|eauto].
  destruct (isalpha c).
  { destruct (scanWhile isalnum (String c "") rest); eauto. }
  destruct (isdigit c).
  { destruct (scanWhile isdigit (String c "") rest); eauto. }
  destruct (Ascii.eqb c "="); [|eauto].
  destruct rest as [|c' rest']; [eauto|].
  destruct (Ascii.eqb c' "="); eauto.
Qed.

(** The lexer reads and writes only [file], [currentToken], [hasToken]. *)
Lemma getNextToken_frame s t s' :
  getNextToken s = Ok t s' ->
  vars s' = vars s /\ labelCount s' = labelCount s /\
  currentAddress s' = currentAddress s /\ assembly s' = assembly s.
Proof.
  unfold getNextToken. destruct (hasToken s).
  { intros H; inversion H; subst; simpl; auto. }
  destruct (skipSpace (file s)) as [[c|] rest].
  2:{ intros H; inversion H; subst; simpl; auto. }
  destruct (isalpha c).
  { destruct (scanWhile isalnum (String c "") rest).
    intros H; inversion H; subst; simpl; auto. }
  destruct (isdigit c).
  { destruct (scanWhile isdigit (String c "") rest).
    intros H; inversion H; subst; simpl; auto. }
  destruct (Ascii.eqb c "=").
  2:{ intros H; inversion H; subst; simpl; auto. }
  destruct rest as [|c' rest'].
  { intros H; inversion H; subst; simpl; auto. }
  destruct (Ascii.eqb c' "="); intros H; inversion H; subst; simpl; auto.
Qed.

Lemma ungetToken_Ok t s u s' :
  ungetToken t s = Ok u s' -> s' = set_pushback t true s.
Proof. unfold ungetToken. intros H; inversion H; reflexivity. Qed.

Lemma emit_Ok line s u s' :
  emit line s = Ok u s' ->
  s' = set_assembly (assembly s ++ [line])%list s /\
  (asmLine s < MAX_CODE_LINES)%nat /\
  (String.length line < ASM_LINE_LEN)%nat.
Proof.
  unfold emit.
  destruct (asmLine s <? MAX_CODE_LINES)%nat eqn:E1; [|discriminate].
  destruct (String.length line <? ASM_LINE_LEN)%nat eqn:E2; [|discriminate].
  intros H; inversion H; subst.
  apply Nat.ltb_lt in E1, E2. auto.
Qed.

Lemma emit_fits line s :
  (asmLine s < MAX_CODE_LINES)%nat ->
  (String.length line < ASM_LINE_LEN)%nat ->
  emit line s = Ok tt (set_assembly (assembly s ++ [line])%list s).
Proof.
  intros H1 H2. unfold emit.
  apply Nat.ltb_lt in H1, H2. rewrite H1, H2. reflexivity.
Qed.

Lemma nextLabel_Ok s n s' :
  nextLabel s = Ok n s' ->
  n = labelCount s /\ s' = set_labelCount (labelCount s + 1)%Z s.
Proof. unfold nextLabel. intros H; inversion H; auto. Qed.

Lemma getVarAddress_Ok n s a s' :
  getVarAddress n s = Ok a s' ->
  (findVar n (vars s) = Some a /\ s' = s) \/
  (findVar n (vars s) = None /\ (varCount s < MAX_VARS)%nat /\
   a = currentAddress s /\ s' = allocated n s).
Proof.
  unfold getVarAddress. destruct (findVar n (vars s)) as [a0|].
  - intros H; inversion H; subst. left; auto.
  - destruct (MAX_VARS <=? varCount s)%nat eqn:E; [discriminate|].
    intros H; inversion H; subst. right.
    apply Nat.leb_gt in E. auto.
Qed.

(** ** Lexer: scanning identifiers and numbers *)

Lemma alpha_not_space c : isalpha c = true -> isspace c = false.
Proof.
  destruct c as [[] [] [] [] [] [] [] []]; vm_compute; congruence.
Qed.

Lemma digit_not_space c : isdigit c = true -> isspace c = false.
Proof.
  destruct c as [[] [] [] [] [] [] [] []]; vm_compute; congruence.
Qed.

Lemma digit_not_alpha c : isdigit c = true -> isalpha c = false.
Proof.
  destruct c as [[] [] [] [] [] [] [] []]; vm_compute; congruence.
Qed.

Lemma string_app_nil (a : string) : a ++ "" = a.
Proof. induction a as [|c a IH]; simpl; [reflexivity|now rewrite IH]. Qed.

Lemma string_app_assoc (a b c : string) : (a ++ b) ++ c = a ++ (b ++ c).
Proof. induction a as [|x a IH]; simpl; [reflexivity|now rewrite IH]. Qed.

Lemma string_length_app (a b : string) :
  String.length (a ++ b) = (String.length a + String.length b)%nat.
Proof. induction a as [|x a IH]; simpl; [reflexivity|now rewrite IH]. Qed.

Lemma substring_0_0 (a : string) : substring 0 0 a = "".
Proof. destruct a; reflexivity. Qed.

Lemma substring_all (a : string) n :
  (String.length a <= n)%nat -> substring 0 n a = a.
Proof.
  revert n. induction a as [|x a IH]; intros n H.
  - destruct n; reflexivity.
  - destruct n as [|n]; simpl in *; [lia|]. rewrite IH by lia. reflexivity.
Qed.

Lemma substring_app_le (a b : string) n :
  (String.length a <= n)%nat ->
  substring 0 n (a ++ b) = a ++ substring 0 (n - String.length a) b.
Proof.
  revert n. induction a as [|x a IH]; intros n H; simpl.
  - now rewrite Nat.sub_0_r.
  - destruct n as [|n]; simpl in *; [lia|]. rewrite IH by lia. reflexivity.
Qed.

Lemma scanWhile_spec p cs : forall txt tail,
  forallb p cs = true -> stops p tail = true ->
  (String.length txt <= MAX_TOKEN_LEN - 1)%nat ->
  scanWhile p txt (cs ++ tail)%list =
  (substring 0 (MAX_TOKEN_LEN - 1) (txt ++ string_of_list_ascii cs), tail).
Proof.
  change (MAX_TOKEN_LEN - 1)%nat with 99%nat.
  induction cs as [|c cs IH]; intros txt tail Hcs Htail Hlen.
  - simpl. rewrite string_app_nil, substring_all by exact Hlen.
    destruct tail as [|c tail]; simpl in *; [reflexivity|].
    apply negb_true_iff in Htail. rewrite Htail. reflexivity.
  - simpl in Hcs. apply andb_true_iff in Hcs as [Hc Hcs].
    change ((c :: cs) ++ tail)%list with (c :: (cs ++ tail))%list.
    cbn [scanWhile]. rewrite Hc.
    change (MAX_TOKEN_LEN - 1)%nat with 99%nat.
    destruct (String.length txt <? 99)%nat eqn:E.
    + apply Nat.ltb_lt in E. rewrite IH; trivial.
      * rewrite string_app_assoc. reflexivity.
      * rewrite string_length_app. simpl. lia.
    + apply Nat.ltb_ge in E. rewrite IH by trivial.
      rewrite !substring_app_le by exact Hlen.
      replace (99 - String.length txt)%nat with 0%nat by lia.
      rewrite !substring_0_0. reflexivity.
Qed.

Lemma skipSpace_spec ws : forall c rest,
  forallb isspace ws = true -> isspace c = false ->
  skipSpace (ws ++ c :: rest)%list = (Some c, rest).
Proof.
  induction ws as [|w ws IH]; intros c rest Hws Hc; simpl.
  - rewrite Hc. reflexivity.
  - simpl in Hws. apply andb_true_iff in Hws as [Hw Hws].
    rewrite Hw. apply IH; assumption.
Qed.

Lemma getNextToken_identifier s ws c cs tail :
  hasToken s = false -> forallb isspace ws = true ->
  file s = (ws ++ c :: cs ++ tail)%list ->
  identifier_at c cs tail = true ->
  let txt := substring 0 (MAX_TOKEN_LEN - 1) (string_of_list_ascii (c :: cs)) in
  getNextToken s = Ok (mkToken (keyword txt) txt) (set_file tail s).
Proof.
  intros Hh Hws Hf Hid txt. unfold identifier_at in Hid.
  apply andb_true_iff in Hid as [Hid Htail].
  apply andb_true_iff in Hid as [Hc Hcs].
  unfold getNextToken. rewrite Hh, Hf.
  rewrite skipSpace_spec by auto using alpha_not_space.
  rewrite Hc. rewrite scanWhile_spec; trivial.
  simpl. lia.
Qed.

Lemma getNextToken_number s ws c cs tail :
  hasToken s = false -> forallb isspace ws = true ->
  file s = (ws ++ c :: cs ++ tail)%list ->
  number_at c cs tail = true ->
  let txt := substring 0 (MAX_TOKEN_LEN - 1) (string_of_list_ascii (c :: cs)) in
  getNextToken s = Ok (mkToken TOKEN_NUMBER txt) (set_file tail s).
Proof.
  intros Hh Hws Hf Hid txt. unfold number_at in Hid.
  apply andb_true_iff in Hid as [Hid Htail].
  apply andb_true_iff in Hid as [Hc Hcs].
  unfold getNextToken. rewrite Hh, Hf.
  rewrite skipSpace_spec by auto using digit_not_space.
  rewrite (digit_not_alpha c Hc), Hc. rewrite scanWhile_spec; trivial.
  simpl. lia.
Qed.

(** C9. An identifier or number is scanned to its end whatever its length:
    the stream resumes at the first character after the spelling, and the
    token text is the first 99 characters of the spelling, hence the whole
    spelling when it has at most 99 characters. *)
Theorem long_spelling_truncated s ws c cs tail :
  hasToken s = false -> forallb isspace ws = true ->
  file s = (ws ++ c :: cs ++ tail)%list ->
  identifier_at c cs tail || number_at c cs tail = true ->
  let spelling := string_of_list_ascii (c :: cs) in
  exists t,
    getNextToken s = Ok t (set_file tail s) /\
    text t = substring 0 99 spelling /\
    (String.length spelling <= 99 -> text t = spelling)%nat /\
    (99 < String.length spelling -> String.length (text t) = 99)%nat /\
    type t = (if isalpha c then keyword (text t) else TOKEN_NUMBER).
Proof.
  intros Hh Hws Hf Hsp spelling.
  assert (Hlen : forall t, text t = substring 0 99 spelling ->
            (String.length spelling <= 99 -> text t = spelling)%nat /\
            (99 < String.length spelling -> String.length (text t) = 99)%nat).
  { intros t ->. split; intros H.
    - apply substring_all; exact H.
    - clear -H. revert H. generalize 99%nat. generalize spelling.
      induction spelling0 as [|x a IH]; intros n H; simpl in *; [lia|].
      destruct n as [|n]; [reflexivity|]. simpl. rewrite IH by lia.
      reflexivity. }
  apply orb_true_iff in Hsp as [Hid|Hnum].
  - pose proof (getNextToken_identifier s ws c cs tail Hh Hws Hf Hid) as E.
    cbv zeta in E. eexists. split; [exact E|].
    unfold identifier_at in Hid. apply andb_true_iff in Hid as [Hid _].
    apply andb_true_iff in Hid as [Hc _]. rewrite Hc.
    split; [reflexivity|]. split; [apply Hlen; reflexivity|].
    split; [apply Hlen; reflexivity|reflexivity].
  - pose proof (getNextToken_number s ws c cs tail Hh Hws Hf Hnum) as E.
    cbv zeta in E. eexists. split; [exact E|].
    unfold number_at in Hnum. apply andb_true_iff in Hnum as [Hnum _].
    apply andb_true_iff in Hnum as [Hc _]. rewrite (digit_not_alpha c Hc).
    split; [reflexivity|]. split; [apply Hlen; reflexivity|].
    split; [apply Hlen; reflexivity|reflexivity].
Qed.

(** ** Relations preserved by every run

    A relation on states that is reflexive, transitive and kept by the
    five primitives holds between the state a run starts in and the
    state it stops in. *)
Create HintDb respects.

Section Preservation.

Variable R : State -> State -> Prop.

Hypothesis R_refl : forall s, R s s.
Hypothesis R_trans : forall s1 s2 s3, R s1 s2 -> R s2 s3 -> R s1 s3.
(** The lexer touches neither the tables nor the counters. *)
Hypothesis R_lexer : forall s s',
  vars s' = vars s -> labelCount s' = labelCount s ->
  currentAddress s' = currentAddress s -> assembly s' = assembly s ->
  R s s'.
Hypothesis R_emit : forall line s,
  (asmLine s < MAX_CODE_LINES)%nat ->
  (String.length line < ASM_LINE_LEN)%nat ->
  R s (set_assembly (assembly s ++ [line])%list s).
Hypothesis R_alloc : forall n s,
  findVar n (vars s) = None -> (varCount s < MAX_VARS)%nat ->
  R s (allocated n s).
Hypothesis R_label : forall s, R s (set_labelCount (labelCount s + 1)%Z s).

(** [R] holds from the start to the stop of every run of [m]. *)
Definition respects {A} (m : M A) : Prop :=
  forall s s', final (m s) = Some s' -> R s s'.

Lemma respects_bind {A B} (m : M A) (k : A -> M B) :
  respects m -> (forall a, respects (k a)) -> respects (bind m k).
Proof.
  intros Hm Hk s s' H. unfold bind in H.
  destruct (m s) as [a s1|e s1| |] eqn:E; try discriminate.
  - apply R_trans with s1.
    + apply Hm. rewrite E. reflexivity.
    + apply (Hk a). exact H.
  - apply Hm. rewrite E. exact H.
Qed.

Lemma respects_ret {A} (a : A) : respects (ret a).
Proof. intros s s' H. inversion H; subst. apply R_refl. Qed.

Lemma respects_exit {A} msg : respects (@exit A msg).
Proof. intros s s' H. inversion H; subst. apply R_refl. Qed.

Lemma respects_getNextToken : respects getNextToken.
Proof.
  intros s s' H. destruct (getNextToken_total s) as (t & s1 & E).
  rewrite E in H. inversion H; subst.
  apply getNextToken_frame in E as (? & ? & ? & ?). now apply R_lexer.
Qed.

Lemma respects_ungetToken t : respects (ungetToken t).
Proof. intros s s' H. inversion H; subst. now apply R_lexer. Qed.

Lemma respects_emit line : respects (emit line).
Proof.
  intros s s' H. destruct (emit line s) as [u s1| | |] eqn:E;
    try discriminate.
  - inversion H; subst. apply emit_Ok in E as (-> & ? & ?).
    now apply R_emit.
  - unfold emit in E.
    destruct (asmLine s <? MAX_CODE_LINES)%nat; [|discriminate].
    destruct (String.length line <? ASM_LINE_LEN)%nat; discriminate.
Qed.

Lemma respects_getVarAddress n : respects (getVarAddress n).
Proof.
  intros s s' H. destruct (getVarAddress n s) as [a s1|e s1| |] eqn:E;
    try discriminate; inversion H; subst.
  - apply getVarAddress_Ok in E as [[_ ->]|(? & ? & _ & ->)].
    + apply R_refl.
    + now apply R_alloc.
  - unfold getVarAddress in E. destruct (findVar n (vars s)); [discriminate|].
    destruct (MAX_VARS <=? varCount s)%nat; [|discriminate].
    inversion E; subst. apply R_refl.
Qed.

Lemma respects_nextLabel : respects nextLabel.
Proof. intros s s' H. inversion H; subst. apply R_label. Qed.

Lemma respects_expect p msg : respects (expect p msg).
Proof.
  apply respects_bind; [apply respects_getNextToken|].
  intros t. destruct (p (type t)); [apply respects_ret|apply respects_exit].
Qed.

Hint Resolve respects_ret respects_exit respects_getNextToken
  respects_ungetToken respects_emit respects_getVarAddress
  respects_nextLabel respects_expect : respects.

Ltac respects_step :=
  match goal with
  | |- respects (bind _ _) => apply respects_bind; [|intros ?]
  | |- respects (match type ?t with _ => _ end) => destruct (type t)
  | |- respects (if ?b then _ else _) => destruct b
  | |- respects (let x := _ in _) => cbv zeta
  | |- _ => solve [auto with respects]
  end.

Lemma respects_compileOperand op : respects (compileOperand op).
Proof. unfold compileOperand. repeat respects_step. Qed.

Lemma respects_compileExpression target :
  respects (compileExpression target).
Proof.
  unfold compileExpression.
  repeat (respects_step || apply respects_compileOperand).
Qed.

Lemma respects_compileBlock stmt fuel :
  respects stmt -> respects (compileBlock stmt fuel).
Proof.
  intros Hs. induction fuel as [|fuel IH]; simpl.
  - intros s s' H. discriminate.
  - repeat (respects_step || assumption).
Qed.

Lemma respects_compileIf stmt fuel :
  respects stmt -> respects (compileIf stmt fuel).
Proof.
  intros Hs. unfold compileIf.
  repeat (respects_step || (apply respects_compileBlock; assumption)).
Qed.

Lemma respects_compileStatement fuel : respects (compileStatement fuel).
Proof.
  induction fuel as [|fuel IH]; simpl.
  - intros s s' H. discriminate.
  - repeat (respects_step || apply respects_compileExpression
            || (apply respects_compileIf; assumption)).
Qed.

Lemma respects_compile fuel : respects (compile fuel).
Proof.
  induction fuel as [|fuel IH]; simpl.
  - intros s s' H. discriminate.
  - repeat (respects_step || apply respects_compileStatement || assumption).
Qed.

End Preservation.

(** ** Decimal rendering is injective *)

Lemma to_int_proper z : Z.to_int z <> Decimal.Pos Decimal.Nil /\
                        Z.to_int z <> Decimal.Neg Decimal.Nil.
Proof.
  destruct z as [|p|p]; simpl; split; try discriminate;
    intros H; injection H as H; now apply (DecimalPos.Unsigned.to_uint_nonnil p).
Qed.

Lemma dec_inj z z' : dec z = dec z' -> z = z'.
Proof.
  unfold dec. intros H. apply DecimalZ.to_int_inj.
  destruct (to_int_proper z) as [P1 N1], (to_int_proper z') as [P2 N2].
  pose proof (NilZero.isi _ P1 N1) as E1.
  pose proof (NilZero.isi _ P2 N2) as E2.
  rewrite H in E1. rewrite E1 in E2. now injection E2.
Qed.

Lemma label_inj n m : label n = label m -> n = m.
Proof. unfold label. simpl. intros H. injection H as H. now apply dec_inj. Qed.

(** ** The symbol table *)

Lemma findVar_app n l1 l2 :
  findVar n (l1 ++ l2)%list =
  match findVar n l1 with Some a => Some a | None => findVar n l2 end.
Proof.
  induction l1 as [|v l1 IH]; simpl; [reflexivity|].
  destruct (String.eqb (name v) n); [reflexivity|exact IH].
Qed.

Lemma findVar_grows n l1 l2 a :
  findVar n l1 = Some a -> findVar n (l1 ++ l2)%list = Some a.
Proof. intros H. rewrite findVar_app, H. reflexivity. Qed.

Lemma findVar_None n l : findVar n l = None <-> ~ In n (map name l).
Proof.
  induction l as [|v l IH]; simpl.
  - tauto.
  - destruct (String.eqb_spec (name v) n) as [E|E].
    + split; [discriminate|]. intros H. exfalso. apply H. now left.
    + rewrite IH. tauto.
Qed.

Lemma findVar_In n l a : findVar n l = Some a -> In (mkVariable n a) l.
Proof.
  induction l as [|v l IH]; simpl; [discriminate|].
  destruct (String.eqb_spec (name v) n) as [E|E].
  - intros H. injection H as <-. left. destruct v; simpl in *. now subst.
  - intros H. right. now apply IH.
Qed.

Lemma findVar_last n a l :
  findVar n l = None ->
  findVar n (l ++ [mkVariable n a])%list = Some a.
Proof.
  intros H. rewrite findVar_app, H. simpl. now rewrite String.eqb_refl.
Qed.

Lemma NoDup_map_In_inj {A B} (f : A -> B) l x y :
  NoDup (map f l) -> In x l -> In y l -> f x = f y -> x = y.
Proof.
  induction l as [|z l IH]; simpl; [tauto|].
  intros N Hx Hy E. inversion N as [|? ? Hz N']; subst.
  destruct Hx as [->|Hx], Hy as [->|Hy]; trivial.
  - exfalso. apply Hz. rewrite E. now apply in_map.
  - exfalso. apply Hz. rewrite <- E. now apply in_map.
  - now apply IH.
Qed.

Lemma NoDup_map_injective {A B} (f : A -> B) l :
  (forall x y, f x = f y -> x = y) -> NoDup l -> NoDup (map f l).
Proof.
  intros Hf. induction 1 as [|x l Hx N IH]; simpl; constructor; trivial.
  rewrite in_map_iff. intros (y & E & Hy). apply Hf in E. now subst.
Qed.

Lemma symtab_ok_initial input : symtab_ok (initial input).
Proof.
  unfold symtab_ok, initial, varCount, MAX_VARS; simpl.
  repeat split; try constructor. lia.
Qed.

Lemma symtab_ok_allocated n s :
  findVar n (vars s) = None -> (varCount s < MAX_VARS)%nat ->
  symtab_ok s -> symtab_ok (allocated n s).
Proof.
  intros Hn Hc (Hnd & Haddr & Hcur & _).
  unfold symtab_ok, allocated, varCount in *. simpl.
  rewrite !map_app, length_app, Nat.add_1_r, seq_S, map_app. simpl.
  repeat split.
  - apply NoDup_app. repeat split; trivial.
    + repeat constructor. simpl. tauto.
    + intros x Hx [<-|[]]. apply findVar_None in Hn. contradiction.
  - rewrite Haddr, Hcur. reflexivity.
  - rewrite Hcur. unfold nth_address. lia.
  - lia.
Qed.

(** Every run keeps the table in shape. *)
Lemma symtab_ok_preserved fuel s s' :
  final (compile fuel s) = Some s' -> symtab_ok s -> symtab_ok s'.
Proof.
  revert s s'.
  apply (respects_compile (fun s s' => symtab_ok s -> symtab_ok s')).
  - auto.
  - auto.
  - intros s s' E1 E2 E3 E4. unfold symtab_ok, varCount. now rewrite E1, E3.
  - intros line s _ _ H. exact H.
  - intros n s Hn Hc. now apply symtab_ok_allocated.
  - intros s H. exact H.
Qed.

Lemma grows_refl s : grows s s.
Proof.
  repeat split; try (exists []; now rewrite app_nil_r). lia.
Qed.

Lemma grows_trans s1 s2 s3 : grows s1 s2 -> grows s2 s3 -> grows s1 s3.
Proof.
  intros ([l1 V1] & [m1 A1] & L1) ([l2 V2] & [m2 A2] & L2).
  repeat split.
  - exists (l1 ++ l2)%list. now rewrite V2, V1, app_assoc.
  - exists (m1 ++ m2)%list. now rewrite A2, A1, app_assoc.
  - lia.
Qed.

Lemma grows_lexer s s' :
  vars s' = vars s -> labelCount s' = labelCount s ->
  currentAddress s' = currentAddress s -> assembly s' = assembly s ->
  grows s s'.
Proof.
  intros V L _ A. repeat split; try (exists []; now rewrite app_nil_r). lia.
Qed.

Lemma grows_emit line s :
  (asmLine s < MAX_CODE_LINES)%nat ->
  (String.length line < ASM_LINE_LEN)%nat ->
  grows s (set_assembly (assembly s ++ [line])%list s).
Proof.
  intros _ _. repeat split; simpl.
  - exists []. now rewrite app_nil_r.
  - eexists. reflexivity.
  - lia.
Qed.

Lemma grows_alloc n s :
  findVar n (vars s) = None -> (varCount s < MAX_VARS)%nat ->
  grows s (allocated n s).
Proof.
  intros _ _. repeat split; simpl.
  - eexists. reflexivity.
  - exists []. now rewrite app_nil_r.
  - lia.
Qed.

Lemma grows_label s : grows s (set_labelCount (labelCount s + 1)%Z s).
Proof.
  repeat split; simpl; try (exists []; now rewrite app_nil_r). lia.
Qed.

Lemma grows_compileStatement fuel s s' :
  final (compileStatement fuel s) = Some s' -> grows s s'.
Proof.
  apply (respects_compileStatement grows);
    auto using grows_refl, grows_lexer, grows_emit, grows_alloc, grows_label.
  exact grows_trans.
Qed.

Lemma grows_compileBlock fuel fuel' s s' :
  final (compileBlock (compileStatement fuel) fuel' s) = Some s' ->
  grows s s'.
Proof.
  apply (respects_compileBlock grows);
    auto using grows_refl, grows_lexer, grows_emit, grows_alloc, grows_label.
  - exact grows_trans.
  - intros s1 s2. apply grows_compileStatement.
Qed.

Lemma grows_compile fuel s s' :
  final (compile fuel s) = Some s' -> grows s s'.
Proof.
  apply (respects_compile grows);
    auto using grows_refl, grows_lexer, grows_emit, grows_alloc, grows_label.
  exact grows_trans.
Qed.

Lemma symtab_ok_injective s n1 n2 a1 a2 :
  symtab_ok s ->
  findVar n1 (vars s) = Some a1 -> findVar n2 (vars s) = Some a2 ->
  (n1 = n2 <-> a1 = a2).
Proof.
  intros (_ & Haddr & _) H1 H2. split.
  - intros ->. rewrite H1 in H2. now injection H2.
  - intros ->. apply findVar_In in H1, H2.
    assert (N : NoDup (map address (vars s))).
    { rewrite Haddr. apply NoDup_map_injective; [|apply seq_NoDup].
      intros i j. unfold nth_address. lia. }
    pose proof (NoDup_map_In_inj address _ _ _ N H1 H2 eq_refl) as E.
    now injection E.
Qed.

(** C4. Address resolution. In a state whose symbol table has the shape
    kept throughout a compilation ([symtab_ok], which holds at the start
    with the counter at 16 and is kept by every run): a name already
    bound resolves to its bound address and changes nothing; a new name
    is bound to the next free address, which is then incremented; two
    bound names are equal exactly when their addresses are; whatever is
    compiled afterwards, a bound name keeps resolving to the same address.
    For [x = 1; y = x + 2;] this gives [x] at 16, [y] at 17 and the five
    lines of the specification. *)
Theorem address_resolution_stable s (H : symtab_ok s) :
  (forall n a, findVar n (vars s) = Some a -> getVarAddress n s = Ok a s) /\
  (forall n, findVar n (vars s) = None -> (varCount s < MAX_VARS)%nat ->
     getVarAddress n s = Ok (currentAddress s) (allocated n s) /\
     currentAddress (allocated n s) = (currentAddress s + 1)%Z /\
     findVar n (vars (allocated n s)) = Some (currentAddress s) /\
     symtab_ok (allocated n s)) /\
  (forall n1 n2 a1 a2,
     findVar n1 (vars s) = Some a1 -> findVar n2 (vars s) = Some a2 ->
     (n1 = n2 <-> a1 = a2)) /\
  (forall fuel s' n a,
     final (compile fuel s) = Some s' -> findVar n (vars s) = Some a ->
     symtab_ok s' /\ getVarAddress n s' = Ok a s') /\
  (forall input, symtab_ok (initial input) /\
                 currentAddress (initial input) = 16%Z) /\
  (exists s',
     compile 10 (initial "x = 1; y = x + 2;") = Ok tt s' /\
     vars s' = [mkVariable "x" 16; mkVariable "y" 17] /\
     assembly s' = ["LDI 1"; "STA 16"; "LDA 16"; "ADDI 2"; "STA 17"]).
Proof.
  split; [|split; [|split; [|split; [|split]]]].
  - intros n a Hf. unfold getVarAddress. rewrite Hf. reflexivity.
  - intros n Hf Hc. split; [|split; [|split]].
    + unfold getVarAddress. rewrite Hf.
      apply Nat.leb_gt in Hc. rewrite Hc. reflexivity.
    + reflexivity.
    + simpl. now apply findVar_last.
    + now apply symtab_ok_allocated.
  - intros n1 n2 a1 a2. now apply symtab_ok_injective.
  - intros fuel s' n a Hrun Hf. split.
    + now apply (symtab_ok_preserved fuel s).
    + destruct (grows_compile _ _ _ Hrun) as ([l E] & _ & _).
      unfold getVarAddress. rewrite E, (findVar_grows _ _ _ _ Hf).
      reflexivity.
  - intros input. split; [apply symtab_ok_initial|reflexivity].
  - eexists. split; [vm_compute; reflexivity|]. split; reflexivity.
Qed.

Lemma address_resolution_stable_witness :
  symtab_ok after_xy /\
  getVarAddress "x" after_xy = Ok 16%Z after_xy /\
  getVarAddress "y" after_xy = Ok 17%Z after_xy /\
  getVarAddress "z" after_xy = Ok 18%Z (allocated "z" after_xy).
Proof.
  assert (H : symtab_ok after_xy).
  { unfold symtab_ok, after_xy, varCount, MAX_VARS, nth_address. simpl.
    repeat split; [|lia].
    repeat constructor; simpl; intuition discriminate. }
  split; [exact H|].
  destruct (address_resolution_stable after_xy H) as (Hbound & Hnew & _).
  split; [apply Hbound; reflexivity|].
  split; [apply Hbound; reflexivity|].
  apply (Hnew "z"); [reflexivity|].
  unfold varCount, MAX_VARS, after_xy. simpl. lia.
Defined.

(** ** Capacity of the symbol table *)

Lemma resolveAll_fresh names : forall s,
  NoDup names ->
  (forall n, In n names -> findVar n (vars s) = None) ->
  (varCount s + List.length names <= MAX_VARS)%nat ->
  exists s',
    resolveAll names s =
      Ok (map (fun i => (currentAddress s + Z.of_nat i)%Z)
              (seq 0 (List.length names))) s' /\
    varCount s' = (varCount s + List.length names)%nat /\
    assembly s' = assembly s /\
    (forall n, ~ In n names -> findVar n (vars s) = None ->
               findVar n (vars s') = None).
Proof.
  induction names as [|n names IH]; intros s Hnd Hfresh Hcap.
  - exists s. simpl. repeat split; auto.
  - inversion Hnd as [|? ? Hn Hnd']; subst. simpl in Hcap.
    assert (Hf : findVar n (vars s) = None) by (apply Hfresh; now left).
    assert (E : getVarAddress n s = Ok (currentAddress s) (allocated n s)).
    { unfold getVarAddress. rewrite Hf.
      assert (L : (varCount s < MAX_VARS)%nat) by lia.
      apply Nat.leb_gt in L. rewrite L. reflexivity. }
    destruct (IH (allocated n s) Hnd') as (s' & Er & Hc & Ha & Hk).
    + intros m Hm. simpl. rewrite findVar_app, (Hfresh m) by now right.
      simpl. destruct (String.eqb_spec n m) as [->|_]; [contradiction|].
      reflexivity.
    + unfold varCount in *. simpl. rewrite length_app. simpl. lia.
    + exists s'. repeat split.
      * cbn [resolveAll]. rewrite (bind_Ok_intro _ _ _ _ _ E).
        rewrite (bind_Ok_intro _ _ _ _ _ Er). unfold ret. f_equal.
        cbn [List.length seq map]. f_equal; [f_equal; lia|].
        rewrite <- seq_shift, map_map. apply map_ext.
        intros i. simpl. lia.
      * rewrite Hc. unfold varCount. simpl. rewrite length_app. simpl. lia.
      * rewrite Ha. reflexivity.
      * intros m Hm Hfm. apply Hk; [intros Hin; apply Hm; now right|].
        simpl. rewrite findVar_app, Hfm. simpl.
        destruct (String.eqb_spec n m) as [->|_]; [|reflexivity].
        exfalso. apply Hm. now left.
Qed.

(** C8. With the 100-slot table, the first 100 distinct names resolve, to
    the addresses 16 to 115; resolving a 101st distinct name then prints
    the capacity error and exits in the very state it was called in, so
    that whatever would have followed, further emission included, is not
    run. *)
Theorem symbol_table_capacity names extra input :
  NoDup (names ++ [extra])%list -> List.length names = 100%nat ->
  exists s,
    resolveAll names (initial input) =
      Ok (map nth_address (seq 0 100)) s /\
    varCount s = MAX_VARS /\
    getVarAddress extra s = Exit ("Error: Too many variables" ++ nl) s /\
    (forall (B : Type) (k : Z -> M B),
       bind (getVarAddress extra) k s =
       Exit ("Error: Too many variables" ++ nl) s) /\
    assembly s = [].
Proof.
  intros Hnd Hlen.
  assert (Hnames : NoDup names) by (apply NoDup_remove_1 in Hnd;
                                    now rewrite app_nil_r in Hnd).
  assert (Hextra : ~ In extra names) by (apply NoDup_remove_2 in Hnd;
                                         now rewrite app_nil_r in Hnd).
  destruct (resolveAll_fresh names (initial input) Hnames)
    as (s & Er & Hc & Ha & Hk).
  { intros n _. reflexivity. }
  { rewrite Hlen. unfold MAX_VARS. simpl. lia. }
  rewrite Hlen in Er, Hc. simpl varCount in Hc.
  assert (Eg : getVarAddress extra s =
               Exit ("Error: Too many variables" ++ nl) s).
  { unfold getVarAddress. rewrite (Hk extra Hextra eq_refl).
    rewrite Hc. reflexivity. }
  exists s. repeat split; trivial.
  intros B k. unfold bind. rewrite Eg. reflexivity.
Qed.

Lemma sample_names_NoDup n : NoDup (map sample_name (seq 0 n)).
Proof.
  apply NoDup_map_injective; [|apply seq_NoDup].
  intros i j E. unfold sample_name in E. simpl in E. injection E as E.
  apply dec_inj in E. lia.
Qed.

Lemma symbol_table_capacity_witness :
  exists s,
    resolveAll (map sample_name (seq 0 100)) (initial "") =
      Ok (map nth_address (seq 0 100)) s /\
    varCount s = MAX_VARS /\
    getVarAddress (sample_name 100) s =
      Exit ("Error: Too many variables" ++ nl) s /\
    (forall (B : Type) (k : Z -> M B),
       bind (getVarAddress (sample_name 100)) k s =
       Exit ("Error: Too many variables" ++ nl) s) /\
    assembly s = [].
Proof.
  apply (symbol_table_capacity (map sample_name (seq 0 100)) (sample_name 100)).
  - change (NoDup (map sample_name (seq 0 100 ++ [100])%list)).
    exact (sample_names_NoDup 101).
  - reflexivity.
Defined.

(** The capacity of the table at the level of whole programs: a hundred
    declarations followed by an assignment compile; with one more
    declaration the compilation exits on the capacity error before
    anything is emitted. *)
Example hundred_variables_compile :
  output (compile 102 (initial (declarations 100 ++ "v0 = 1;"))) =
  Some ["LDI 1"; "STA 16"].
Proof. vm_compute. reflexivity. Qed.

Example hundred_and_one_variables_exit :
  exists s,
    compile 103 (initial (declarations 101 ++ "v0 = 1;")) =
      Exit ("Error: Too many variables" ++ nl) s /\
    assembly s = [] /\ varCount s = MAX_VARS.
Proof. eexists. split; [vm_compute; reflexivity|]. split; reflexivity. Qed.

(** ** The lexer state seen from the code generator *)

Lemma lex_eq_refl s : lex_eq s s.
Proof. unfold lex_eq. auto. Qed.

Lemma lex_eq_sym s1 s2 : lex_eq s1 s2 -> lex_eq s2 s1.
Proof. unfold lex_eq. intuition congruence. Qed.

Lemma lex_eq_trans s1 s2 s3 : lex_eq s1 s2 -> lex_eq s2 s3 -> lex_eq s1 s3.
Proof. unfold lex_eq. intuition congruence. Qed.

(** The next token depends on the lexer state only. *)
Lemma getNextToken_lex_eq s1 s2 t s1' :
  lex_eq s1 s2 -> getNextToken s1 = Ok t s1' ->
  exists s2', getNextToken s2 = Ok t s2' /\ lex_eq s1' s2'.
Proof.
  intros (Ef & Eh & Ec). unfold getNextToken. rewrite <- Ef, <- Eh, <- Ec.
  destruct (hasToken s1) eqn:Hh.
  { intros H; inversion H; subst. eexists. split; [reflexivity|].
    unfold lex_eq; simpl; auto. }
  rewrite <- Hh in Eh.
  destruct (skipSpace (file s1)) as [[c|] rest].
  2:{ intros H; inversion H; subst. eexists. split; [reflexivity|].
      unfold lex_eq; simpl; auto. }
  destruct (isalpha c).
  { destruct (scanWhile isalnum (String c "") rest).
    intros H; inversion H; subst. eexists. split; [reflexivity|].
    unfold lex_eq; simpl; auto. }
  destruct (isdigit c).
  { destruct (scanWhile isdigit (String c "") rest).
    intros H; inversion H; subst. eexists. split; [reflexivity|].
    unfold lex_eq; simpl; auto. }
  destruct (Ascii.eqb c "=").
  2:{ intros H; inversion H; subst. eexists. split; [reflexivity|].
      unfold lex_eq; simpl; auto. }
  destruct rest as [|c' rest'].
  { intros H; inversion H; subst. eexists. split; [reflexivity|].
    unfold lex_eq; simpl; auto. }
  destruct (Ascii.eqb c' "="); intros H; inversion H; subst;
    (eexists; split; [reflexivity|]; unfold lex_eq; simpl; auto).
Qed.

(** Summary of a successful [emit]. *)
Lemma emit_effect line s u s' :
  emit line s = Ok u s' ->
  assembly s' = (assembly s ++ [line])%list /\ vars s' = vars s /\
  labelCount s' = labelCount s /\ lex_eq s' s.
Proof.
  intros H. apply emit_Ok in H as (-> & _ & _).
  unfold lex_eq; simpl; repeat split; reflexivity.
Qed.

(** Summary of a successful [getVarAddress]. *)
Lemma getVarAddress_effect n s a s' :
  getVarAddress n s = Ok a s' ->
  findVar n (vars s') = Some a /\
  (exists l, vars s' = (vars s ++ l)%list) /\
  assembly s' = assembly s /\ labelCount s' = labelCount s /\ lex_eq s' s.
Proof.
  intros H. apply getVarAddress_Ok in H as [[Hf ->]|(Hf & _ & -> & ->)].
  - repeat split; trivial. exists []. now rewrite app_nil_r.
  - simpl. repeat split; trivial.
    + now apply findVar_last.
    + eexists. reflexivity.
Qed.

Tactic Notation "inv_bind" hyp(H) "as" ident(a) ident(s) ident(E) :=
  apply bind_Ok in H as (a & s & E & H).

(** ** Expression code generation *)

Lemma spec_load_line_grows t vs l line :
  spec_load_line t vs = Some line ->
  spec_load_line t (vs ++ l)%list = Some line.
Proof.
  unfold spec_load_line. destruct (type t); trivial.
  destruct (findVar (text t) vs) as [a|] eqn:E; [|discriminate].
  now rewrite (findVar_grows _ _ _ _ E).
Qed.

Lemma spec_arith_line_grows op rhs vs l line :
  spec_arith_line op rhs vs = Some line ->
  spec_arith_line op rhs (vs ++ l)%list = Some line.
Proof.
  unfold spec_arith_line. destruct (type op), (type rhs); trivial;
    (destruct (findVar (text rhs) vs) as [a|] eqn:E; [|discriminate];
     now rewrite (findVar_grows _ _ _ _ E)).
Qed.

Lemma compileOperand_Ok op s s' :
  isPlusMinus (type op) = true ->
  compileOperand op s = Ok tt s' ->
  exists rhs s3 second l,
    getNextToken s = Ok rhs s3 /\ lex_eq s' s3 /\
    vars s' = (vars s ++ l)%list /\
    assembly s' = (assembly s ++ [second])%list /\
    labelCount s' = labelCount s /\
    spec_arith_line op rhs (vars s') = Some second.
Proof.
  intros Hop H. unfold compileOperand in H. inv_bind H as rhs s3 E.
  pose proof (getNextToken_frame _ _ _ E) as (Fv & Fl & _ & Fa).
  destruct (type rhs) eqn:Tr; try (now apply exit_Ok in H).
  - (* identifier *)
    inv_bind H as a s0 E0.
    apply getVarAddress_effect in E0 as (Hf & [l Hv] & Ha & Hl & Hx).
    apply emit_effect in H as (Ha' & Hv' & Hl' & Hx').
    exists rhs, s3, (mnemonic (type op) ++ " " ++ dec a), l.
    split; [exact E|]. split; [apply (lex_eq_trans _ s0); assumption|].
    split; [congruence|]. split; [congruence|]. split; [congruence|].
    unfold spec_arith_line. rewrite Tr, Hv', Hf.
    destruct (type op); try discriminate; reflexivity.
  - (* number *)
    apply emit_effect in H as (Ha' & Hv' & Hl' & Hx').
    exists rhs, s3, (mnemonic (type op) ++ "I " ++ text rhs), [].
    split; [exact E|]. split; [assumption|].
    split; [rewrite app_nil_r; congruence|].
    split; [congruence|]. split; [congruence|].
    unfold spec_arith_line. rewrite Tr.
    destruct (type op); try discriminate; reflexivity.
Qed.

(** Every assignment right-hand side leaves the label counter alone. *)
Lemma compileExpression_labelCount T s s' :
  compileExpression T s = Ok tt s' -> labelCount s' = labelCount s.
Proof.
  intros H.
  apply (respects_compileExpression
           (fun s s' => labelCount s' = labelCount s)) with (target := T);
    try (intros; simpl; congruence).
  rewrite H. reflexivity.
Qed.

(** Inversion of a successful [compileExpression]: the tokens read, the
    lines appended and where the lexer is left. *)
Lemma compileExpression_Ok T s s' :
  compileExpression T s = Ok tt s' ->
  exists t1 s1 op s2 first aT,
    getNextToken s = Ok t1 s1 /\ getNextToken s1 = Ok op s2 /\
    spec_load_line t1 (vars s') = Some first /\
    findVar T (vars s') = Some aT /\
    if isPlusMinus (type op) then
      exists rhs s3 second,
        getNextToken s2 = Ok rhs s3 /\
        spec_arith_line op rhs (vars s') = Some second /\
        assembly s' =
          (assembly s ++ [first; second; ("STA " ++ dec aT)%string])%list /\
        lex_eq s' s3
    else
      assembly s' = (assembly s ++ [first; ("STA " ++ dec aT)%string])%list /\
      lex_eq s' (set_pushback op true s2).
Proof.
  intros H. unfold compileExpression in H. inv_bind H as t1 s1 E1.
  pose proof (getNextToken_frame _ _ _ E1) as (Fv1 & _ & _ & Fa1).
  destruct (type t1) eqn:T1; try (now apply exit_Ok in H).
  - (* first operand: identifier *)
    cbv zeta in H. inv_bind H as op s2 E2.
    pose proof (getNextToken_frame _ _ _ E2) as (Fv2 & _ & _ & Fa2).
    destruct (isPlusMinus (type op)) eqn:Op.
    + inv_bind H as a sa Ea.
      apply getVarAddress_effect in Ea as (Hf & [l Hv] & Ha & _ & Hx).
      inv_bind H as u sb Eb. apply emit_effect in Eb as (Ha0 & Hv0 & _ & Hx0).
      inv_bind H as u' sc Ec. destruct u'.
      apply (compileOperand_Ok _ _ _ Op) in Ec
        as (rhs & s3' & second & l' & E3 & Hx3 & Hv3 & Ha3 & _ & Hs).
      inv_bind H as aT sd Ed.
      apply getVarAddress_effect in Ed as (HfT & [lT HvT] & HaT & _ & HxT).
      apply emit_effect in H as (Ha' & Hv' & _ & Hx').
      assert (X2 : lex_eq sb s2).
      { apply (lex_eq_trans _ sa); assumption. }
      destruct (getNextToken_lex_eq _ _ _ _ X2 E3) as (s3 & E3' & X3).
      exists t1, s1, op, s2, ("LDA " ++ dec a), aT.
      split; [exact E1|]. split; [exact E2|].
      split.
      { unfold spec_load_line. rewrite T1, Hv', HvT, Hv3, Hv0.
        rewrite <- !app_assoc, (findVar_grows _ _ _ _ Hf). reflexivity. }
      split; [congruence|]. rewrite Op.
      exists rhs, s3, second.
      split; [exact E3'|].
      split.
      { rewrite Hv', HvT. now apply spec_arith_line_grows. }
      split.
      { rewrite Ha', HaT, Ha3, Ha0, Ha, Fa2, Fa1.
        rewrite <- !app_assoc. reflexivity. }
      apply (lex_eq_trans _ sd); [assumption|].
      apply (lex_eq_trans _ sc); [assumption|].
      apply (lex_eq_trans _ s3'); assumption.
    + inv_bind H as a sa Ea.
      apply getVarAddress_effect in Ea as (Hf & [l Hv] & Ha & _ & Hx).
      inv_bind H as u sb Eb. apply emit_effect in Eb as (Ha0 & Hv0 & _ & Hx0).
      inv_bind H as aT sc Ec.
      apply getVarAddress_effect in Ec as (HfT & [lT HvT] & HaT & _ & HxT).
      inv_bind H as u' sd Ed. apply emit_effect in Ed as (Ha' & Hv' & _ & Hx').
      apply ungetToken_Ok in H. subst s'.
      exists t1, s1, op, s2, ("LDA " ++ dec a), aT.
      split; [exact E1|]. split; [exact E2|].
      split.
      { unfold spec_load_line. simpl vars. rewrite T1, Hv', HvT, Hv0.
        rewrite (findVar_grows _ _ _ _ Hf). reflexivity. }
      split; [simpl vars; congruence|]. rewrite Op.
      split.
      { simpl assembly. rewrite Ha', HaT, Ha0, Ha, Fa2, Fa1.
        rewrite <- !app_assoc. reflexivity. }
      assert (X : lex_eq sd s2).
      { apply (lex_eq_trans _ sc); [assumption|].
        apply (lex_eq_trans _ sb); [assumption|].
        apply (lex_eq_trans _ sa); assumption. }
      destruct X as (Xf & _ & _). unfold lex_eq. simpl. auto.
  - (* first operand: number *)
    inv_bind H as u sa Ea. apply emit_effect in Ea as (Ha0 & Hv0 & _ & Hx0).
    inv_bind H as op s2a E2a.
    pose proof (getNextToken_frame _ _ _ E2a) as (Fv2 & _ & _ & Fa2).
    destruct (getNextToken_lex_eq _ _ _ _ Hx0 E2a) as (s2 & E2 & X2).
    inv_bind H as u' sb Eb. destruct u'. inv_bind H as aT sc Ec.
    apply getVarAddress_effect in Ec as (HfT & [lT HvT] & HaT & _ & HxT).
    apply emit_effect in H as (Ha' & Hv' & _ & Hx').
    exists t1, s1, op, s2, ("LDI " ++ text t1), aT.
    split; [exact E1|]. split; [exact E2|].
    split; [unfold spec_load_line; now rewrite T1|].
    split; [congruence|].
    destruct (isPlusMinus (type op)) eqn:Op.
    + apply (compileOperand_Ok _ _ _ Op) in Eb
        as (rhs & s3' & second & l' & E3 & Hx3 & Hv3 & Ha3 & _ & Hs).
      destruct (getNextToken_lex_eq _ _ _ _ X2 E3) as (s3 & E3' & X3).
      exists rhs, s3, second.
      split; [exact E3'|].
      split.
      { rewrite Hv', HvT. now apply spec_arith_line_grows. }
      split.
      { rewrite Ha', HaT, Ha3, Fa2, Ha0, Fa1.
        rewrite <- !app_assoc. reflexivity. }
      apply (lex_eq_trans _ sc); [assumption|].
      apply (lex_eq_trans _ sb); [assumption|].
      apply (lex_eq_trans _ s3'); assumption.
    + apply ungetToken_Ok in Eb. subst sb.
      split.
      { rewrite Ha', HaT. simpl assembly. rewrite Fa2, Ha0, Fa1.
        rewrite <- !app_assoc. reflexivity. }
      apply (lex_eq_trans _ sc); [assumption|].
      apply (lex_eq_trans _ _ _ HxT).
      destruct X2 as (Xf & _ & _). unfold lex_eq. simpl. auto.
Qed.

(** C2. The six-case table of expression code generation. When
    [compileExpression] returns for target [T], the next two tokens [t1]
    and [op] of the input determine the output: the load line of [t1]
    ([LDI n] or [LDA a_v]); then, if [op] is [+] or [-], it is consumed
    together with the following token [rhs], whose arithmetic line
    ([ADDI m], [SUBI m], [ADD a_w] or [SUB a_w]) comes next, and the lexer
    is left after [rhs]; otherwise [op] is pushed back, to be the next
    token read; last comes [STA a_T]. Addresses are those bound in the
    symbol table on return. *)
Theorem expression_table T s s' :
  compileExpression T s = Ok tt s' ->
  exists t1 s1 op s2 first aT,
    getNextToken s = Ok t1 s1 /\ getNextToken s1 = Ok op s2 /\
    spec_load_line t1 (vars s') = Some first /\
    findVar T (vars s') = Some aT /\
    if isPlusMinus (type op) then
      exists rhs s3 second,
        getNextToken s2 = Ok rhs s3 /\
        spec_arith_line op rhs (vars s') = Some second /\
        assembly s' =
          (assembly s ++ [first; second; ("STA " ++ dec aT)%string])%list /\
        lex_eq s' s3
    else
      assembly s' = (assembly s ++ [first; ("STA " ++ dec aT)%string])%list /\
      lex_eq s' (set_pushback op true s2).
Proof. exact (compileExpression_Ok T s s'). Qed.

(** ** Code generation for [if] *)

Lemma spec_compare_line_grows rhs vs l line :
  spec_compare_line rhs vs = Some line ->
  spec_compare_line rhs (vs ++ l)%list = Some line.
Proof.
  unfold spec_compare_line. destruct (type rhs); trivial.
  destruct (findVar (text rhs) vs) as [a|] eqn:E; [|discriminate].
  now rewrite (findVar_grows _ _ _ _ E).
Qed.

Lemma compileIf_Ok stmt fuel s s' :
  compileIf stmt fuel s = Ok tt s' ->
  exists lp lhs eqt rhs rp lb s6 a cmp sb se,
    nextTokens 6 s = ([lp; lhs; eqt; rhs; rp; lb], s6) /\
    map type [lp; lhs; eqt; rp; lb] =
      [TOKEN_LPAREN; TOKEN_IDENTIFIER; TOKEN_EQUAL; TOKEN_RPAREN;
       TOKEN_LBRACE] /\
    is_operand (type rhs) = true /\
    findVar (text lhs) (vars sb) = Some a /\
    spec_compare_line rhs (vars sb) = Some cmp /\
    assembly sb = (assembly s ++ if_prologue a cmp (labelCount s))%list /\
    labelCount sb = (labelCount s + 2)%Z /\
    (exists l, vars sb = (vars s ++ l)%list) /\
    lex_eq sb s6 /\
    compileBlock stmt fuel sb = Ok tt se /\
    s' = set_assembly
           (assembly se ++ [(label (labelCount s + 1) ++ ":")%string])%list se.
Proof.
  intros H. unfold compileIf in H.
  inv_bind H as lp s1 E1. apply expect_Ok in E1 as [E1 P1].
  inv_bind H as lhs s2 E2. apply expect_Ok in E2 as [E2 P2].
  inv_bind H as eqt s3 E3. apply expect_Ok in E3 as [E3 P3].
  inv_bind H as rhs s4 E4. apply expect_Ok in E4 as [E4 P4].
  inv_bind H as rp s5 E5. apply expect_Ok in E5 as [E5 P5].
  inv_bind H as lb s6 E6. apply expect_Ok in E6 as [E6 P6].
  inv_bind H as n1 l1 L1. apply nextLabel_Ok in L1 as [-> ->].
  inv_bind H as n2 l2 L2. apply nextLabel_Ok in L2 as [-> ->].
  cbv zeta in H. simpl labelCount in H.
  pose proof (getNextToken_frame _ _ _ E1) as (V1 & C1 & _ & A1).
  pose proof (getNextToken_frame _ _ _ E2) as (V2 & C2 & _ & A2).
  pose proof (getNextToken_frame _ _ _ E3) as (V3 & C3 & _ & A3).
  pose proof (getNextToken_frame _ _ _ E4) as (V4 & C4 & _ & A4).
  pose proof (getNextToken_frame _ _ _ E5) as (V5 & C5 & _ & A5).
  pose proof (getNextToken_frame _ _ _ E6) as (V6 & C6 & _ & A6).
  assert (C : labelCount s6 = labelCount s) by congruence.
  assert (V : vars s6 = vars s) by congruence.
  assert (A : assembly s6 = assembly s) by congruence.
  rewrite C in H.
  inv_bind H as a sa Ea.
  apply getVarAddress_effect in Ea as (Hf & [l Hv] & Ha & Hl & Hx).
  inv_bind H as u sb0 Eb. apply emit_effect in Eb as (Ha0 & Hv0 & Hl0 & Hx0).
  inv_bind H as u1 sc Ec.
  assert (Hcmp : exists cmp lc,
             spec_compare_line rhs (vars sc) = Some cmp /\
             assembly sc = (assembly sb0 ++ [cmp])%list /\
             vars sc = (vars sb0 ++ lc)%list /\
             labelCount sc = labelCount sb0 /\ lex_eq sc sb0).
  { unfold spec_compare_line.
    destruct (type rhs) eqn:Tr; try discriminate.
    - inv_bind Ec as b sc0 Ec0.
      apply getVarAddress_effect in Ec0 as (Hfb & [lb' Hvb] & Hab & Hlb & Hxb).
      apply emit_effect in Ec as (Hac & Hvc & Hlc & Hxc).
      exists ("SUB " ++ dec b), lb'. rewrite Hvc, Hfb.
      split; [reflexivity|]. split; [congruence|]. split; [congruence|].
      split; [congruence|]. apply (lex_eq_trans _ sc0); assumption.
    - apply emit_effect in Ec as (Hac & Hvc & Hlc & Hxc).
      exists ("SUBI " ++ text rhs), []. rewrite app_nil_r.
      split; [reflexivity|]. split; [assumption|]. split; [assumption|].
      split; assumption. }
  destruct Hcmp as (cmp & lc & Hs & Hac & Hvc & Hlc & Hxc).
  inv_bind H as u2 sd Ed. apply emit_effect in Ed as (Had & Hvd & Hld & Hxd).
  inv_bind H as u3 se0 Ee. apply emit_effect in Ee as (Hae & Hve & Hle & Hxe).
  inv_bind H as u4 sb Eb. apply emit_effect in Eb as (Haf & Hvf & Hlf & Hxf).
  inv_bind H as u5 se Eblock. destruct u5.
  apply emit_Ok in H as (-> & _ & _).
  exists lp, lhs, eqt, rhs, rp, lb, s6, a, cmp, sb, se.
  split. { simpl. rewrite E1, E2, E3, E4, E5, E6. reflexivity. }
  split.
  { simpl.
    assert (T1 : type lp = TOKEN_LPAREN)
      by (destruct (type lp); try discriminate; reflexivity).
    assert (T2 : type lhs = TOKEN_IDENTIFIER)
      by (destruct (type lhs); try discriminate; reflexivity).
    assert (T3 : type eqt = TOKEN_EQUAL)
      by (destruct (type eqt); try discriminate; reflexivity).
    assert (T5 : type rp = TOKEN_RPAREN)
      by (destruct (type rp); try discriminate; reflexivity).
    assert (T6 : type lb = TOKEN_LBRACE)
      by (destruct (type lb); try discriminate; reflexivity).
    now rewrite T1, T2, T3, T5, T6. }
  split; [exact P4|].
  split.
  { rewrite Hvf, Hve, Hvd, Hvc, Hv0. now apply findVar_grows. }
  split; [congruence|].
  split.
  { rewrite Haf, Hae, Had, Hac, Ha0, Ha. simpl assembly. rewrite A.
    unfold if_prologue, label. rewrite <- !app_assoc. reflexivity. }
  split.
  { rewrite Hlf, Hle, Hld, Hlc, Hl0, Hl. simpl. lia. }
  split.
  { exists (l ++ lc)%list. rewrite Hvf, Hve, Hvd, Hvc, Hv0, Hv. simpl.
    rewrite V, app_assoc. reflexivity. }
  split.
  { apply (lex_eq_trans _ se0); [assumption|].
    apply (lex_eq_trans _ sd); [assumption|].
    apply (lex_eq_trans _ sc); [assumption|].
    apply (lex_eq_trans _ sb0); [assumption|].
    apply (lex_eq_trans _ sa); [assumption|].
    apply (lex_eq_trans _ _ _ Hx). unfold lex_eq. simpl. auto. }
  split; [exact Eblock|reflexivity].
Qed.

(** The loop over an [if] block returns only upon reading [}]. *)
Lemma compileBlock_ends_at_brace stmt fuel : forall s s',
  compileBlock stmt fuel s = Ok tt s' ->
  exists sr rb, getNextToken sr = Ok rb s' /\ type rb = TOKEN_RBRACE.
Proof.
  induction fuel as [|fuel IH]; intros s s' H; simpl in H; [discriminate|].
  inv_bind H as t s1 E.
  destruct (is_RBRACE (type t)) eqn:Tb.
  - apply ret_Ok in H as [_ <-]. exists s, t. split; [exact E|].
    destruct (type t); try discriminate; reflexivity.
  - destruct (is_EOF (type t)); [now apply exit_Ok in H|].
    inv_bind H as u s2 E2. inv_bind H as u' s3 E3. now apply IH in H.
Qed.

(** The loop over an [if] block compiles the statements of the block one
    after the other and returns upon reading the [}] that follows the
    last of them. *)
Lemma compileBlock_statements fuel : forall n s se,
  compileBlock (compileStatement fuel) n s = Ok tt se ->
  exists chunks q rb,
    block_statements fuel s chunks q /\
    getNextToken q = Ok rb se /\ type rb = TOKEN_RBRACE /\
    assembly se = (assembly s ++ List.concat chunks)%list.
Proof.
  induction n as [|n IH]; intros s se H; cbn [compileBlock] in H;
    [discriminate|].
  inv_bind H as t s1 E.
  pose proof (getNextToken_frame _ _ _ E) as (_ & _ & _ & A1).
  destruct (is_RBRACE (type t)) eqn:Tb.
  - apply ret_Ok in H as [_ <-]. exists [], s, t.
    split; [constructor|]. split; [exact E|]. split.
    + destruct (type t); try discriminate; reflexivity.
    + cbn [List.concat]. now rewrite app_nil_r.
  - destruct (is_EOF (type t)) eqn:Te; [now apply exit_Ok in H|].
    inv_bind H as u s2 E2. inv_bind H as u' s3 E3. destruct u'.
    pose proof (ungetToken_Ok _ _ _ _ E2) as ->.
    assert (G : grows (set_pushback t true s1) s3).
    { apply (grows_compileStatement fuel). now rewrite E3. }
    destruct G as (_ & [lines Ga] & _).
    cbn [set_pushback assembly] in Ga. rewrite A1 in Ga.
    destruct (IH _ _ H) as (chunks & q & rb & B & Er & Tr & Ha).
    exists (lines :: chunks), q, rb. split.
    + apply (block_more fuel s t s1 s3 lines chunks q); trivial.
      * intros T. now rewrite T in Tb.
      * intros T. now rewrite T in Te.
    + split; [exact Er|]. split; [exact Tr|].
      cbn [List.concat]. now rewrite Ha, Ga, <- app_assoc.
Qed.

(** C3. Code shape of [if]. When [compileStatement] returns on an input
    whose next token is the keyword [if], the six following tokens are
    [(], an identifier [lhs], [==], an identifier or number [rhs], [)]
    and [{]; the statement takes the label numbers [n] and [n + 1], [n]
    being the label counter on entry, and appends to the output, in
    order: [LDA a_lhs]; [SUBI rhs] or [SUB a_rhs]; [JZ Ln]; [JMP Ln+1];
    the line [Ln:]; the lines [body] of the statements of the block; the
    line [Ln+1:]. The statements of the block are compiled one after the
    other by [compileStatement], the first starting right after [{],
    each at a token that is neither [}] nor the end of input; [body] is
    their lines, in order, and the token that follows the last of them is
    the closing [}], after which the statement returns. *)
Theorem if_code_shape fuel s s' kw s0 :
  compileStatement (S fuel) s = Ok tt s' ->
  getNextToken s = Ok kw s0 -> type kw = TOKEN_IF ->
  exists lp lhs eqt rhs rp lb s7 a cmp body sb se chunks q rb,
    nextTokens 7 s = ([kw; lp; lhs; eqt; rhs; rp; lb], s7) /\
    map type [lp; lhs; eqt; rp; lb] =
      [TOKEN_LPAREN; TOKEN_IDENTIFIER; TOKEN_EQUAL; TOKEN_RPAREN;
       TOKEN_LBRACE] /\
    is_operand (type rhs) = true /\
    findVar (text lhs) (vars s') = Some a /\
    spec_compare_line rhs (vars s') = Some cmp /\
    assembly sb = (assembly s ++ if_prologue a cmp (labelCount s))%list /\
    labelCount sb = (labelCount s + 2)%Z /\
    lex_eq sb s7 /\
    compileBlock (compileStatement fuel) fuel sb = Ok tt se /\
    block_statements fuel sb chunks q /\
    body = List.concat chunks /\
    getNextToken q = Ok rb se /\ type rb = TOKEN_RBRACE /\
    assembly se = (assembly sb ++ body)%list /\
    assembly s' =
      (assembly s ++ if_prologue a cmp (labelCount s) ++ body ++
       [(label (labelCount s + 1) ++ ":")%string])%list /\
    lex_eq s' se.
Proof.
  intros H E0 Tk. simpl in H. unfold bind at 1 in H. rewrite E0, Tk in H.
  pose proof (getNextToken_frame _ _ _ E0) as (V0 & C0 & _ & A0).
  apply compileIf_Ok in H
    as (lp & lhs & eqt & rhs & rp & lb & s7 & a & cmp & sb & se &
        Hts & Hty & Hop & Hf & Hcmp & Hasm & Hlab & [l Hv] & Hx & Hblock & ->).
  assert (G : grows sb se).
  { apply (grows_compileBlock fuel fuel). rewrite Hblock. reflexivity. }
  destruct G as ([lv Gv] & _ & _).
  destruct (compileBlock_statements _ _ _ _ Hblock)
    as (chunks & q & rb & Hstmts & Er & Tr & Ga).
  exists lp, lhs, eqt, rhs, rp, lb, s7, a, cmp, (List.concat chunks), sb, se,
    chunks, q, rb.
  split. { cbn [nextTokens]. rewrite E0. cbn [nextTokens] in Hts.
           rewrite Hts. reflexivity. }
  split; [exact Hty|]. split; [exact Hop|].
  split. { simpl vars. rewrite Gv. now apply findVar_grows. }
  split. { simpl vars. rewrite Gv. now apply spec_compare_line_grows. }
  split. { rewrite Hasm, A0, C0. reflexivity. }
  split; [congruence|]. split; [exact Hx|]. split; [exact Hblock|].
  split; [exact Hstmts|]. split; [reflexivity|].
  split; [exact Er|]. split; [exact Tr|]. split; [exact Ga|].
  split.
  { simpl assembly. rewrite Ga, Hasm, A0, C0, <- !app_assoc. reflexivity. }
  unfold lex_eq. simpl. auto.
Qed.

(** ** Labels *)

Lemma labels_ok_plain s s' l :
  labelCount s' = labelCount s ->
  assembly s' = (assembly s ++ l)%list ->
  forallb (fun x => negb (is_jump x)) l = true ->
  labels_ok s -> labels_ok s'.
Proof.
  intros Hl Ha Hp (n & Hn & Hj). exists n. split; [congruence|].
  rewrite Ha, filter_app, Hj.
  replace (filter is_jump l) with (@nil string); [now rewrite app_nil_r|].
  clear -Hp. induction l as [|x l IH]; simpl in *; [reflexivity|].
  apply andb_true_iff in Hp as [Hx Hp]. apply negb_true_iff in Hx.
  rewrite Hx. now apply IH.
Qed.

Lemma labels_ok_frame s s' :
  labelCount s' = labelCount s -> assembly s' = assembly s ->
  labels_ok s -> labels_ok s'.
Proof.
  intros Hl Ha. apply (labels_ok_plain s s' []); trivial.
  now rewrite app_nil_r.
Qed.

Lemma load_line_plain t vs line :
  spec_load_line t vs = Some line -> is_jump line = false.
Proof.
  unfold spec_load_line. destruct (type t); try discriminate.
  - destruct (findVar (text t) vs); [|discriminate].
    intros H; injection H as <-. reflexivity.
  - intros H; injection H as <-. reflexivity.
Qed.

Lemma arith_line_plain op rhs vs line :
  spec_arith_line op rhs vs = Some line -> is_jump line = false.
Proof.
  unfold spec_arith_line.
  destruct (type op), (type rhs); try discriminate;
    try (intros H; injection H as <-; reflexivity);
    (destruct (findVar (text rhs) vs); [|discriminate];
     intros H; injection H as <-; reflexivity).
Qed.

Lemma compare_line_plain rhs vs line :
  spec_compare_line rhs vs = Some line -> is_jump line = false.
Proof.
  unfold spec_compare_line. destruct (type rhs); try discriminate.
  - destruct (findVar (text rhs) vs); [|discriminate].
    intros H; injection H as <-. reflexivity.
  - intros H; injection H as <-. reflexivity.
Qed.

Lemma labels_ok_compileExpression T s s' :
  compileExpression T s = Ok tt s' -> labels_ok s -> labels_ok s'.
Proof.
  intros H. pose proof (compileExpression_labelCount _ _ _ H) as Hl.
  apply compileExpression_Ok in H
    as (t1 & s1 & op & s2 & first & aT & _ & _ & Hfirst & _ & H).
  apply load_line_plain in Hfirst.
  destruct (isPlusMinus (type op)).
  - destruct H as (rhs & s3 & second & _ & Hsecond & Ha & _).
    apply arith_line_plain in Hsecond.
    apply (labels_ok_plain _ _ _ Hl Ha). simpl.
    now rewrite Hfirst, Hsecond.
  - destruct H as (Ha & _).
    apply (labels_ok_plain _ _ _ Hl Ha). simpl. now rewrite Hfirst.
Qed.

Lemma expected_jumps_S n :
  expected_jumps (S n) =
  (expected_jumps n ++
   [("JZ " ++ label (2 * Z.of_nat n))%string;
    ("JMP " ++ label (2 * Z.of_nat n + 1))%string])%list.
Proof.
  unfold expected_jumps. rewrite seq_S, flat_map_app. simpl.
  reflexivity.
Qed.

Lemma labels_ok_prologue s sb a cmp :
  is_jump cmp = false ->
  assembly sb = (assembly s ++ if_prologue a cmp (labelCount s))%list ->
  labelCount sb = (labelCount s + 2)%Z ->
  labels_ok s -> labels_ok sb.
Proof.
  intros Hc Ha Hl (n & Hn & Hj). exists (S n). split; [lia|].
  rewrite Ha, filter_app, Hj, expected_jumps_S, Hn. f_equal.
  unfold if_prologue. cbn [filter]. rewrite Hc.
  reflexivity.
Qed.

Lemma labels_ok_compileBlock stmt :
  (forall s s', stmt s = Ok tt s' -> labels_ok s -> labels_ok s') ->
  forall fuel s s',
    compileBlock stmt fuel s = Ok tt s' -> labels_ok s -> labels_ok s'.
Proof.
  intros Hstmt. induction fuel as [|fuel IH]; intros s s' H J;
    simpl in H; [discriminate|].
  inv_bind H as t s1 E.
  pose proof (getNextToken_frame _ _ _ E) as (_ & L1 & _ & A1).
  assert (J1 : labels_ok s1) by now apply (labels_ok_frame s).
  destruct (is_RBRACE (type t)); [apply ret_Ok in H as [_ <-]; exact J1|].
  destruct (is_EOF (type t)); [now apply exit_Ok in H|].
  inv_bind H as u s2 E2. apply ungetToken_Ok in E2. subst s2.
  inv_bind H as u' s3 E3. destruct u'.
  apply (IH _ _ H). apply (Hstmt _ _ E3). now apply (labels_ok_frame s1).
Qed.

Lemma labels_ok_compileStatement fuel : forall s s',
  compileStatement fuel s = Ok tt s' -> labels_ok s -> labels_ok s'.
Proof.
  induction fuel as [|fuel IH]; intros s s' H J; simpl in H; [discriminate|].
  inv_bind H as t s1 E.
  pose proof (getNextToken_frame _ _ _ E) as (_ & L1 & _ & A1).
  assert (J1 : labels_ok s1) by now apply (labels_ok_frame s).
  destruct (type t); try (now apply exit_Ok in H).
  - (* int *)
    inv_bind H as id s2 E2. apply expect_Ok in E2 as [E2 _].
    apply getNextToken_frame in E2 as (_ & L2 & _ & A2).
    inv_bind H as a s3 E3.
    apply getVarAddress_effect in E3 as (_ & _ & A3 & L3 & _).
    inv_bind H as t4 s4 E4. apply expect_Ok in E4 as [E4 _].
    apply getNextToken_frame in E4 as (_ & L4 & _ & A4).
    apply ret_Ok in H as [_ <-].
    apply (labels_ok_frame s1); [congruence|congruence|exact J1].
  - (* assignment *)
    cbv zeta in H.
    inv_bind H as t2 s2 E2. apply expect_Ok in E2 as [E2 _].
    apply getNextToken_frame in E2 as (_ & L2 & _ & A2).
    inv_bind H as u s3 E3. destruct u.
    inv_bind H as t4 s4 E4. apply expect_Ok in E4 as [E4 _].
    apply getNextToken_frame in E4 as (_ & L4 & _ & A4).
    apply ret_Ok in H as [_ <-].
    apply (labels_ok_frame s3); trivial.
    apply (labels_ok_compileExpression _ _ _ E3).
    now apply (labels_ok_frame s1).
  - (* if *)
    apply compileIf_Ok in H
      as (lp & lhs & eqt & rhs & rp & lb & s7 & a & cmp & sb & se &
          _ & _ & _ & _ & Hcmp & Hasm & Hlab & _ & _ & Hblock & ->).
    apply compare_line_plain in Hcmp.
    pose proof (labels_ok_prologue _ _ _ _ Hcmp Hasm Hlab J1) as Jb.
    pose proof (labels_ok_compileBlock _ (IH) _ _ _ Hblock Jb) as Je.
    apply (labels_ok_plain se _ [(label (labelCount s1 + 1) ++ ":")%string]);
      trivial.
  - (* } *)
    apply ungetToken_Ok in H. subst s'. now apply (labels_ok_frame s1).
  - (* ; *)
    apply ret_Ok in H as [_ <-]. exact J1.
  - (* end of input *)
    apply ret_Ok in H as [_ <-]. exact J1.
Qed.

Lemma labels_ok_compile fuel : forall s s',
  compile fuel s = Ok tt s' -> labels_ok s -> labels_ok s'.
Proof.
  induction fuel as [|fuel IH]; intros s s' H J; simpl in H; [discriminate|].
  inv_bind H as t s1 E.
  pose proof (getNextToken_frame _ _ _ E) as (_ & L1 & _ & A1).
  assert (J1 : labels_ok s1) by now apply (labels_ok_frame s).
  destruct (is_EOF (type t)); [apply ret_Ok in H as [_ <-]; exact J1|].
  inv_bind H as u s2 E2. apply ungetToken_Ok in E2. subst s2.
  inv_bind H as u' s3 E3. destruct u'.
  apply (IH _ _ H). apply (labels_ok_compileStatement _ _ _ E3).
  now apply (labels_ok_frame s1).
Qed.

(** *** Label lines *)

Lemma string_of_uint_head d :
  d <> Decimal.Nil ->
  exists c rest,
    NilEmpty.string_of_uint d = String c rest /\ isdigit c = true.
Proof.
  destruct d; intros H; try (now elim H); simpl; eexists; eexists;
    (split; reflexivity).
Qed.

(** A number printed by [%d] starts with a digit or a minus sign. *)
Lemma dec_head z :
  exists c rest,
    dec z = String c rest /\ (isdigit c = true \/ c = "-"%char).
Proof.
  unfold dec. destruct z as [|p|p]; simpl.
  - exists "0"%char, "". split; [reflexivity|left; reflexivity].
  - destruct (string_of_uint_head (Pos.to_uint p)
                (DecimalPos.Unsigned.to_uint_nonnil p)) as (c & rest & E & D).
    unfold NilZero.string_of_uint.
    destruct (Pos.to_uint p) eqn:Ep;
      try (exists c, rest; split; [exact E|left; exact D]).
    now elim (DecimalPos.Unsigned.to_uint_nonnil p).
  - eexists; eexists. split; [reflexivity|right; reflexivity].
Qed.

Lemma label_line_recognised k : is_label_line (label_line k) = true.
Proof.
  unfold label_line, label. destruct (dec_head (Z.of_nat k))
    as (c & rest & E & D). rewrite E.
  unfold is_label_line. simpl.
  destruct D as [D| ->]; [|reflexivity].
  destruct c as [[] [] [] [] [] [] [] []]; try discriminate D; reflexivity.
Qed.

Lemma load_line_not_label t vs line :
  spec_load_line t vs = Some line -> is_label_line line = false.
Proof.
  unfold spec_load_line. destruct (type t); try discriminate.
  - destruct (findVar (text t) vs); [|discriminate].
    intros H; injection H as <-. reflexivity.
  - intros H; injection H as <-. reflexivity.
Qed.

Lemma arith_line_not_label op rhs vs line :
  spec_arith_line op rhs vs = Some line -> is_label_line line = false.
Proof.
  unfold spec_arith_line.
  destruct (type op), (type rhs); try discriminate;
    try (intros H; injection H as <-; reflexivity);
    (destruct (findVar (text rhs) vs); [|discriminate];
     intros H; injection H as <-; reflexivity).
Qed.

Lemma compare_line_not_label rhs vs line :
  spec_compare_line rhs vs = Some line -> is_label_line line = false.
Proof.
  unfold spec_compare_line. destruct (type rhs); try discriminate.
  - destruct (findVar (text rhs) vs); [|discriminate].
    intros H; injection H as <-. reflexivity.
  - intros H; injection H as <-. reflexivity.
Qed.

Lemma defines_labels_plain s s' l :
  labelCount s' = labelCount s ->
  assembly s' = (assembly s ++ l)%list ->
  filter is_label_line l = [] ->
  defines_labels s s'.
Proof.
  intros Hl Ha Hp n Hn. exists n, l.
  split; [congruence|]. split; [lia|]. split; [exact Ha|].
  rewrite Hp, Nat.sub_diag. constructor.
Qed.

Lemma defines_labels_frame s s' :
  labelCount s' = labelCount s -> assembly s' = assembly s ->
  defines_labels s s'.
Proof.
  intros Hl Ha. apply (defines_labels_plain s s' []); trivial.
  now rewrite app_nil_r.
Qed.

Lemma defines_labels_trans s1 s2 s3 :
  defines_labels s1 s2 -> defines_labels s2 s3 -> defines_labels s1 s3.
Proof.
  intros H12 H23 n Hn.
  destruct (H12 n Hn) as (n2 & l2 & Hn2 & Hle2 & Ha2 & Hp2).
  destruct (H23 n2 Hn2) as (n3 & l3 & Hn3 & Hle3 & Ha3 & Hp3).
  exists n3, (l2 ++ l3)%list.
  split; [exact Hn3|]. split; [lia|].
  split; [now rewrite Ha3, Ha2, app_assoc|].
  rewrite filter_app.
  replace (n3 - n)%nat with ((n2 - n) + (n3 - n2))%nat by lia.
  rewrite seq_app, map_app.
  replace (n + (n2 - n))%nat with n2 by lia.
  now apply Permutation_app.
Qed.

Lemma defines_labels_compileExpression T s s' :
  compileExpression T s = Ok tt s' -> defines_labels s s'.
Proof.
  intros H. pose proof (compileExpression_labelCount _ _ _ H) as Hl.
  apply compileExpression_Ok in H
    as (t1 & s1 & op & s2 & first & aT & _ & _ & Hfirst & _ & H).
  apply load_line_not_label in Hfirst.
  destruct (isPlusMinus (type op)).
  - destruct H as (rhs & s3 & second & _ & Hsecond & Ha & _).
    apply arith_line_not_label in Hsecond.
    apply (defines_labels_plain _ _ _ Hl Ha). simpl.
    now rewrite Hfirst, Hsecond.
  - destruct H as (Ha & _).
    apply (defines_labels_plain _ _ _ Hl Ha). simpl. now rewrite Hfirst.
Qed.

Lemma defines_labels_compileBlock stmt :
  (forall s s', stmt s = Ok tt s' -> defines_labels s s') ->
  forall fuel s s',
    compileBlock stmt fuel s = Ok tt s' -> defines_labels s s'.
Proof.
  intros Hstmt. induction fuel as [|fuel IH]; intros s s' H;
    simpl in H; [discriminate|].
  inv_bind H as t s1 E.
  pose proof (getNextToken_frame _ _ _ E) as (_ & L1 & _ & A1).
  apply (defines_labels_trans _ s1); [now apply defines_labels_frame|].
  destruct (is_RBRACE (type t));
    [apply ret_Ok in H as [_ <-]; now apply defines_labels_frame|].
  destruct (is_EOF (type t)); [now apply exit_Ok in H|].
  inv_bind H as u s2 E2. apply ungetToken_Ok in E2. subst s2.
  inv_bind H as u' s3 E3. destruct u'.
  apply (defines_labels_trans _ (set_pushback t true s1));
    [now apply defines_labels_frame|].
  apply (defines_labels_trans _ s3); [now apply Hstmt|now apply IH].
Qed.

Lemma defines_labels_if s sb se a cmp :
  is_label_line cmp = false ->
  assembly sb = (assembly s ++ if_prologue a cmp (labelCount s))%list ->
  labelCount sb = (labelCount s + 2)%Z ->
  defines_labels sb se ->
  defines_labels s
    (set_assembly
       (assembly se ++ [(label (labelCount s + 1) ++ ":")%string])%list se).
Proof.
  intros Hc Ha Hl Hb n Hn.
  destruct (Hb (n + 2)%nat ltac:(lia)) as (n' & lb & Hn' & Hle & Hab & Hp).
  exists n', (if_prologue a cmp (labelCount s) ++ lb ++
              [(label (labelCount s + 1) ++ ":")%string])%list.
  split; [exact Hn'|]. split; [lia|]. split.
  { simpl assembly. rewrite Hab, Ha, <- !app_assoc. reflexivity. }
  replace (n' - n)%nat with (S (S (n' - (n + 2)))) by lia.
  cbn [seq map]. rewrite !filter_app.
  assert (E1 : filter is_label_line (if_prologue a cmp (labelCount s)) =
               [label_line n]).
  { unfold if_prologue. cbn [filter]. rewrite Hc, Hn.
    change (label (Z.of_nat n) ++ ":") with (label_line n).
    rewrite label_line_recognised. reflexivity. }
  assert (E2 : filter is_label_line
                 [(label (labelCount s + 1) ++ ":")%string] =
               [label_line (S n)]).
  { replace (labelCount s + 1)%Z with (Z.of_nat (S n)) by lia.
    change (label (Z.of_nat (S n)) ++ ":") with (label_line (S n)).
    cbn [filter]. rewrite label_line_recognised. reflexivity. }
  rewrite E1, E2. cbn [app]. apply perm_skip.
  replace (S (S n)) with (n + 2)%nat by lia.
  apply Permutation_trans with
    (label_line (S n) :: filter is_label_line lb).
  - apply Permutation_sym, Permutation_cons_append.
  - now apply perm_skip.
Qed.

Lemma defines_labels_compileStatement fuel : forall s s',
  compileStatement fuel s = Ok tt s' -> defines_labels s s'.
Proof.
  induction fuel as [|fuel IH]; intros s s' H; simpl in H; [discriminate|].
  inv_bind H as t s1 E.
  pose proof (getNextToken_frame _ _ _ E) as (_ & L1 & _ & A1).
  apply (defines_labels_trans _ s1); [now apply defines_labels_frame|].
  destruct (type t); try (now apply exit_Ok in H).
  - (* int *)
    inv_bind H as id s2 E2. apply expect_Ok in E2 as [E2 _].
    apply getNextToken_frame in E2 as (_ & L2 & _ & A2).
    inv_bind H as a s3 E3.
    apply getVarAddress_effect in E3 as (_ & _ & A3 & L3 & _).
    inv_bind H as t4 s4 E4. apply expect_Ok in E4 as [E4 _].
    apply getNextToken_frame in E4 as (_ & L4 & _ & A4).
    apply ret_Ok in H as [_ <-].
    apply defines_labels_frame; congruence.
  - (* assignment *)
    cbv zeta in H.
    inv_bind H as t2 s2 E2. apply expect_Ok in E2 as [E2 _].
    apply getNextToken_frame in E2 as (_ & L2 & _ & A2).
    inv_bind H as u s3 E3. destruct u.
    inv_bind H as t4 s4 E4. apply expect_Ok in E4 as [E4 _].
    apply getNextToken_frame in E4 as (_ & L4 & _ & A4).
    apply ret_Ok in H as [_ <-].
    apply (defines_labels_trans _ s2); [now apply defines_labels_frame|].
    apply (defines_labels_trans _ s3);
      [exact (defines_labels_compileExpression _ _ _ E3)
      |now apply defines_labels_frame].
  - (* if *)
    apply compileIf_Ok in H
      as (lp & lhs & eqt & rhs & rp & lb & s7 & a & cmp & sb & se &
          _ & _ & _ & _ & Hcmp & Hasm & Hlab & _ & _ & Hblock & ->).
    apply compare_line_not_label in Hcmp.
    apply (defines_labels_if s1 sb se a cmp Hcmp Hasm Hlab).
    apply (defines_labels_compileBlock _ IH _ _ _ Hblock).
  - (* } *)
    apply ungetToken_Ok in H. subst s'. now apply defines_labels_frame.
  - (* ; *)
    apply ret_Ok in H as [_ <-]. now apply defines_labels_frame.
  - (* end of input *)
    apply ret_Ok in H as [_ <-]. now apply defines_labels_frame.
Qed.

Lemma defines_labels_compile fuel : forall s s',
  compile fuel s = Ok tt s' -> defines_labels s s'.
Proof.
  induction fuel as [|fuel IH]; intros s s' H; simpl in H; [discriminate|].
  inv_bind H as t s1 E.
  pose proof (getNextToken_frame _ _ _ E) as (_ & L1 & _ & A1).
  apply (defines_labels_trans _ s1); [now apply defines_labels_frame|].
  destruct (is_EOF (type t));
    [apply ret_Ok in H as [_ <-]; now apply defines_labels_frame|].
  inv_bind H as u s2 E2. apply ungetToken_Ok in E2. subst s2.
  inv_bind H as u' s3 E3. destruct u'.
  apply (defines_labels_trans _ (set_pushback t true s1));
    [now apply defines_labels_frame|].
  apply (defines_labels_trans _ s3);
    [exact (defines_labels_compileStatement _ _ _ E3)|now apply IH].
Qed.

Lemma string_app_inv_tail (a b c : string) : a ++ c = b ++ c -> a = b.
Proof.
  revert b. induction a as [|x a IH]; intros [|y b] H; simpl in H.
  - reflexivity.
  - apply (f_equal String.length) in H. simpl in H.
    rewrite string_length_app in H. lia.
  - apply (f_equal String.length) in H. simpl in H.
    rewrite string_length_app in H. lia.
  - injection H as -> H. f_equal. now apply IH.
Qed.

Lemma label_line_inj i j : label_line i = label_line j -> i = j.
Proof.
  unfold label_line. intros H. apply string_app_inv_tail, label_inj in H.
  lia.
Qed.


(** ** The counters stay within [int]

    The model computes on [Z] without wrap-around; on every finished
    compilation the two counters are far below [INT_MAX]. *)
Lemma asmLine_bounded fuel s s' :
  final (compile fuel s) = Some s' ->
  (asmLine s <= MAX_CODE_LINES)%nat -> (asmLine s' <= MAX_CODE_LINES)%nat.
Proof.
  revert s s'.
  apply (respects_compile
           (fun s s' => (asmLine s <= MAX_CODE_LINES)%nat ->
                        (asmLine s' <= MAX_CODE_LINES)%nat)).
  - auto.
  - auto.
  - intros s s' _ _ _ E. unfold asmLine. now rewrite E.
  - intros line s Hlt _ _. unfold asmLine in *. simpl.
    rewrite length_app. simpl. lia.
  - intros n s _ _ H. exact H.
  - intros s H. exact H.
Qed.

Lemma counters_fit_int input fuel s :
  compile fuel (initial input) = Ok tt s ->
  (16 <= currentAddress s <= 116)%Z /\ (0 <= labelCount s <= 1000)%Z.
Proof.
  intros H.
  assert (F : final (compile fuel (initial input)) = Some s)
    by (rewrite H; reflexivity).
  split.
  - destruct (symtab_ok_preserved _ _ _ F (symtab_ok_initial input))
      as (_ & _ & Hc & Hn).
    rewrite Hc. unfold nth_address, MAX_VARS in *. lia.
  - assert (J0 : labels_ok (initial input))
      by (exists 0%nat; split; reflexivity).
    destruct (labels_ok_compile _ _ _ H J0) as (n & Hn & Hj).
    assert (L : (asmLine s <= MAX_CODE_LINES)%nat).
    { apply (asmLine_bounded _ _ _ F). unfold asmLine, MAX_CODE_LINES.
      simpl. lia. }
    assert (Hlen : List.length (expected_jumps n) = (2 * n)%nat).
    { clear. induction n as [|n IH]; [reflexivity|].
      rewrite expected_jumps_S, length_app, IH. simpl. lia. }
    pose proof (filter_length_le is_jump (assembly s)) as Hf.
    rewrite Hj, Hlen in Hf. unfold asmLine, MAX_CODE_LINES in L. lia.
Qed.

(** ** Fuel

    More fuel never changes an outcome other than [Timeout]. *)
Lemma refines_refl {A} (m : M A) : refines m m.
Proof. intros s _. reflexivity. Qed.

Lemma refines_bind {A B} (m m' : M A) (k k' : A -> M B) :
  refines m m' -> (forall a, refines (k a) (k' a)) ->
  refines (bind m k) (bind m' k').
Proof.
  intros Hm Hk s H. unfold bind in *.
  destruct (m s) as [a s1|e s1|f|] eqn:E.
  - rewrite Hm, E by congruence. now apply Hk.
  - rewrite Hm, E by congruence. reflexivity.
  - rewrite Hm, E by congruence. reflexivity.
  - congruence.
Qed.

Lemma refines_compileBlock stmt stmt' fuel : forall fuel',
  refines stmt stmt' -> (fuel <= fuel')%nat ->
  refines (compileBlock stmt fuel) (compileBlock stmt' fuel').
Proof.
  induction fuel as [|fuel IH]; intros fuel' Hs Hle.
  - intros s H. now elim H.
  - destruct fuel' as [|fuel']; [lia|]. simpl.
    apply refines_bind; [apply refines_refl|]. intros t.
    destruct (is_RBRACE (type t)); [apply refines_refl|].
    destruct (is_EOF (type t)); [apply refines_refl|].
    apply refines_bind; [apply refines_refl|]. intros _.
    apply refines_bind; [exact Hs|]. intros _. apply IH; [exact Hs|lia].
Qed.

Lemma refines_compileIf stmt stmt' fuel fuel' :
  refines stmt stmt' -> (fuel <= fuel')%nat ->
  refines (compileIf stmt fuel) (compileIf stmt' fuel').
Proof.
  intros Hs Hle. unfold compileIf.
  repeat (apply refines_bind; [apply refines_refl|]; intros ?).
  apply refines_bind; [|intros ?; apply refines_refl].
  now apply refines_compileBlock.
Qed.

Lemma refines_compileStatement fuel : forall fuel',
  (fuel <= fuel')%nat ->
  refines (compileStatement fuel) (compileStatement fuel').
Proof.
  induction fuel as [|fuel IH]; intros fuel' Hle.
  - intros s H. now elim H.
  - destruct fuel' as [|fuel']; [lia|]. simpl.
    apply refines_bind; [apply refines_refl|]. intros t.
    destruct (type t); try apply refines_refl.
    apply refines_compileIf; [apply IH|]; lia.
Qed.

Lemma refines_compile fuel : forall fuel',
  (fuel <= fuel')%nat -> refines (compile fuel) (compile fuel').
Proof.
  induction fuel as [|fuel IH]; intros fuel' Hle.
  - intros s H. now elim H.
  - destruct fuel' as [|fuel']; [lia|]. simpl.
    apply refines_bind; [apply refines_refl|]. intros t.
    destruct (is_EOF (type t)); [apply refines_refl|].
    apply refines_bind; [apply refines_refl|]. intros _.
    apply refines_bind; [apply refines_compileStatement; lia|].
    intros _. apply IH; lia.
Qed.

Lemma compile_more_fuel fuel fuel' s u s' :
  (fuel <= fuel')%nat ->
  compile fuel s = Ok u s' -> compile fuel' s = Ok u s'.
Proof.
  intros Hle H. rewrite <- H. apply refines_compile; [exact Hle|].
  rewrite H. discriminate.
Qed.

(** ** The end-to-end example of the specification *)

(** C1. The program [int x; x = 5; if (x == 5) { x = x + 1; }], compiled
    from the initial state (next address 16, label counter 0) with fuel 6
    or more, returns with exactly the eleven lines of the specification
    as output. *)
Theorem spec_example_lines :
  currentAddress (initial "int x; x = 5; if (x == 5) { x = x + 1; }") = 16%Z /\
  labelCount (initial "int x; x = 5; if (x == 5) { x = x + 1; }") = 0%Z /\
  exists s,
    (forall fuel, (6 <= fuel)%nat ->
       compile fuel (initial "int x; x = 5; if (x == 5) { x = x + 1; }")
       = Ok tt s) /\
    assembly s =
      ["LDI 5"; "STA 16"; "LDA 16"; "SUBI 5"; "JZ L0"; "JMP L1"; "L0:";
       "LDA 16"; "ADDI 1"; "STA 16"; "L1:"].
Proof.
  split; [reflexivity|]. split; [reflexivity|].
  eexists. split.
  - intros fuel Hle. apply (compile_more_fuel 6 fuel); [exact Hle|].
    vm_compute. reflexivity.
  - reflexivity.
Qed.

Lemma spec_example_lines_witness :
  exists s,
    compile 6 (initial "int x; x = 5; if (x == 5) { x = x + 1; }") = Ok tt s /\
    assembly s =
      ["LDI 5"; "STA 16"; "LDA 16"; "SUBI 5"; "JZ L0"; "JMP L1"; "L0:";
       "LDA 16"; "ADDI 1"; "STA 16"; "L1:"].
Proof.
  destruct spec_example_lines as (_ & _ & s & Hrun & Hasm).
  exists s. split; [apply Hrun; lia|exact Hasm].
Defined.

(** ** A brace at top level *)

Lemma pending_token_read s :
  hasToken s = true ->
  getNextToken s = Ok (currentToken s) (set_hasToken false s).
Proof. intros Hh. unfold getNextToken. now rewrite Hh. Qed.

Lemma pending_token_restored s :
  hasToken s = true ->
  ungetToken (currentToken s) (set_hasToken false s) = Ok tt s.
Proof.
  intros Hh. unfold ungetToken. f_equal.
  destruct s; simpl in *; subst; reflexivity.
Qed.

(** With a [}] pending at top level one turn of the loop of [compile]
    changes nothing: [compileStatement] reads the brace, pushes it back
    and returns. *)
Lemma stray_brace_fixpoint s fuel :
  hasToken s = true -> type (currentToken s) = TOKEN_RBRACE ->
  compileStatement (S fuel) s = Ok tt s.
Proof.
  intros Hh Ht. cbn [compileStatement].
  rewrite (bind_Ok_intro _ _ _ _ _ (pending_token_read s Hh)), Ht.
  now apply pending_token_restored.
Qed.

Lemma stray_brace_spins fuel : forall s,
  hasToken s = true -> type (currentToken s) = TOKEN_RBRACE ->
  compile fuel s = Timeout.
Proof.
  induction fuel as [|fuel IH]; intros s Hh Ht; [reflexivity|].
  cbn [compile].
  rewrite (bind_Ok_intro _ _ _ _ _ (pending_token_read s Hh)), Ht.
  cbn [is_EOF].
  rewrite (bind_Ok_intro _ _ _ _ _ (pending_token_restored s Hh)).
  destruct fuel as [|fuel]; [reflexivity|].
  rewrite (bind_Ok_intro _ _ _ _ _ (stray_brace_fixpoint s fuel Hh Ht)).
  now apply IH.
Qed.

(** C6 fails on the code: a closing brace met at top level is pushed back
    by [compileStatement] and read again by [compile], for ever. On the
    input [}] no amount of fuel lets [compile] return or exit. *)
Theorem stray_brace_never_terminates :
  forall fuel, compile fuel (initial "}") = Timeout.
Proof.
  intros [|fuel]; [reflexivity|].
  cbn [compile].
  assert (E : getNextToken (initial "}") =
              Ok (mkToken TOKEN_RBRACE "}") (set_file [] (initial "}")))
    by reflexivity.
  rewrite (bind_Ok_intro _ _ _ _ _ E). cbn [type is_EOF].
  assert (U : ungetToken (mkToken TOKEN_RBRACE "}")
                         (set_file [] (initial "}")) =
              Ok tt (set_pushback (mkToken TOKEN_RBRACE "}") true
                                  (set_file [] (initial "}"))))
    by reflexivity.
  rewrite (bind_Ok_intro _ _ _ _ _ U).
  destruct fuel as [|fuel]; [reflexivity|].
  rewrite (bind_Ok_intro _ _ _ _ _
             (stray_brace_fixpoint
                (set_pushback (mkToken TOKEN_RBRACE "}") true
                              (set_file [] (initial "}")))
                fuel eq_refl eq_refl)).
  now apply stray_brace_spins.
Qed.

(** ** Statements consume input *)

Lemma skipSpace_Some f : forall c rest,
  skipSpace f = (Some c, rest) -> (List.length rest < List.length f)%nat.
Proof.
  induction f as [|a f IH]; intros c rest H; simpl in H; [discriminate|].
  destruct (isspace a).
  - apply IH in H. simpl. lia.
  - inversion H; subst. simpl. lia.
Qed.

Lemma skipSpace_None f : forall rest, skipSpace f = (None, rest) -> rest = [].
Proof.
  induction f as [|a f IH]; intros rest H; simpl in H.
  - now inversion H.
  - destruct (isspace a); [now apply IH|discriminate].
Qed.

Lemma scanWhile_length p f : forall txt txt' rest,
  scanWhile p txt f = (txt', rest) ->
  (List.length rest <= List.length f)%nat.
Proof.
  induction f as [|a f IH]; intros txt txt' rest H; simpl in H.
  - inversion H; subst. simpl. lia.
  - destruct (p a).
    + apply IH in H. simpl. lia.
    + inversion H; subst. simpl. lia.
Qed.

Lemma keyword_not_EOF txt : keyword txt <> TOKEN_EOF.
Proof.
  unfold keyword. destruct (String.eqb txt "int"); [discriminate|].
  destruct (String.eqb txt "if"); discriminate.
Qed.

Lemma punctuation_not_EOF c : punctuation c <> TOKEN_EOF.
Proof.
  unfold punctuation.
  repeat match goal with
         | |- context [if ?b then _ else _] => destruct b; try discriminate
         end.
Qed.

(** Reading a token leaves nothing pushed back and consumes input, at
    least one unit of it unless the token is the end of input. *)
Lemma getNextToken_pending s t s' :
  getNextToken s = Ok t s' ->
  hasToken s' = false /\
  (pending s' <= pending s)%nat /\
  (type t <> TOKEN_EOF -> (pending s' < pending s)%nat).
Proof.
  unfold getNextToken, pending. destruct (hasToken s) eqn:Hh.
  { intros H; inversion H; subst; simpl. repeat split; lia. }
  destruct (skipSpace (file s)) as [[c|] rest] eqn:Hs.
  2:{ intros H; inversion H; subst; simpl. rewrite Hh.
      apply skipSpace_None in Hs. subst rest. simpl.
      split; [reflexivity|]. split; [lia|]. intros N. now elim N. }
  apply skipSpace_Some in Hs.
  destruct (isalpha c).
  { destruct (scanWhile isalnum (String c "") rest) as [txt rest'] eqn:Hw.
    apply scanWhile_length in Hw.
    intros H; inversion H; subst; simpl. rewrite Hh.
    split; [reflexivity|]. split; lia. }
  destruct (isdigit c).
  { destruct (scanWhile isdigit (String c "") rest) as [txt rest'] eqn:Hw.
    apply scanWhile_length in Hw.
    intros H; inversion H; subst; simpl. rewrite Hh.
    split; [reflexivity|]. split; lia. }
  destruct (Ascii.eqb c "=").
  2:{ intros H; inversion H; subst; simpl. rewrite Hh.
      split; [reflexivity|]. split; lia. }
  destruct rest as [|c' rest'].
  { intros H; inversion H; subst; simpl in *. rewrite Hh.
    split; [reflexivity|]. split; lia. }
  destruct (Ascii.eqb c' "="); intros H; inversion H; subst; simpl in *;
    rewrite Hh; (split; [reflexivity|]; split; lia).
Qed.

Lemma lex_eq_pending s s' : lex_eq s s' -> pending s = pending s'.
Proof. intros (Ef & Eh & _). unfold pending. now rewrite Ef, Eh. Qed.

Lemma pushback_pending t s :
  hasToken s = false -> pending (set_pushback t true s) = S (pending s).
Proof. intros Hh. unfold pending. simpl. rewrite Hh. lia. Qed.

Lemma compileExpression_pending T s s' :
  compileExpression T s = Ok tt s' -> (pending s' <= pending s)%nat.
Proof.
  intros H. apply compileExpression_Ok in H
    as (t1 & s1 & op & s2 & first & aT & E1 & E2 & Hfirst & _ & H).
  apply getNextToken_pending in E1 as (H1 & _ & P1).
  apply getNextToken_pending in E2 as (H2 & P2 & _).
  assert (N1 : type t1 <> TOKEN_EOF).
  { unfold spec_load_line in Hfirst. intros E. now rewrite E in Hfirst. }
  specialize (P1 N1).
  destruct (isPlusMinus (type op)).
  - destruct H as (rhs & s3 & second & E3 & _ & _ & X).
    apply getNextToken_pending in E3 as (_ & P3 & _).
    rewrite (lex_eq_pending _ _ X). lia.
  - destruct H as (_ & X).
    rewrite (lex_eq_pending _ _ X), pushback_pending by exact H2. lia.
Qed.

Lemma nextTokens_pending n : forall s ts s',
  nextTokens n s = (ts, s') -> (pending s' <= pending s)%nat.
Proof.
  induction n as [|n IH]; intros s ts s' H; simpl in H.
  - inversion H; subst. lia.
  - destruct (getNextToken s) as [t s1| | |] eqn:E;
      try (inversion H; subst; lia).
    destruct (nextTokens n s1) as [ts1 s2] eqn:E2.
    inversion H; subst. apply IH in E2.
    apply getNextToken_pending in E as (_ & P & _). lia.
Qed.

Lemma is_EOF_false t : is_EOF t = false -> t <> TOKEN_EOF.
Proof. intros H E. rewrite E in H. discriminate. Qed.

Lemma compileBlock_pending stmt :
  consumes stmt ->
  forall fuel s s',
    compileBlock stmt fuel s = Ok tt s' -> (pending s' <= pending s)%nat.
Proof.
  intros Hs. induction fuel as [|fuel IH]; intros s s' H; simpl in H;
    [discriminate|].
  inv_bind H as t s1 E. apply getNextToken_pending in E as (H1 & P1 & Q1).
  destruct (is_RBRACE (type t)); [apply ret_Ok in H as [_ <-]; exact P1|].
  destruct (is_EOF (type t)) eqn:Te; [now apply exit_Ok in H|].
  inv_bind H as u s2 E2. apply ungetToken_Ok in E2. subst s2.
  inv_bind H as u' s3 E3. destruct u'. apply Hs in E3 as [P3 _].
  apply IH in H. rewrite pushback_pending in P3 by exact H1.
  specialize (Q1 (is_EOF_false _ Te)). lia.
Qed.

Lemma compileStatement_consumes fuel : consumes (compileStatement fuel).
Proof.
  induction fuel as [|fuel IH]; intros s s' H; [discriminate|].
  simpl in H. inv_bind H as t s1 E1.
  pose proof (getNextToken_pending _ _ _ E1) as (H1 & P1 & Q1).
  assert (Main : (pending s' <= pending s)%nat /\
                 (is_EOF (type t) = false -> is_RBRACE (type t) = false ->
                  (pending s' < pending s)%nat)).
  { destruct (type t) eqn:Tt; try (now apply exit_Ok in H);
      try (assert (Q : (pending s1 < pending s)%nat)
             by (apply Q1; discriminate)).
    - (* int *)
      inv_bind H as id s2 E2. apply expect_Ok in E2 as [E2 _].
      apply getNextToken_pending in E2 as (_ & P2 & _).
      inv_bind H as a s3 E3.
      apply getVarAddress_effect in E3 as (_ & _ & _ & _ & X3).
      apply lex_eq_pending in X3.
      inv_bind H as t4 s4 E4. apply expect_Ok in E4 as [E4 _].
      apply getNextToken_pending in E4 as (_ & P4 & _).
      apply ret_Ok in H as [_ <-]. split; [|intros _ _]; lia.
    - (* assignment *)
      cbv zeta in H.
      inv_bind H as t2 s2 E2. apply expect_Ok in E2 as [E2 _].
      apply getNextToken_pending in E2 as (_ & P2 & _).
      inv_bind H as u s3 E3. destruct u.
      apply compileExpression_pending in E3.
      inv_bind H as t4 s4 E4. apply expect_Ok in E4 as [E4 _].
      apply getNextToken_pending in E4 as (_ & P4 & _).
      apply ret_Ok in H as [_ <-]. split; [|intros _ _]; lia.
    - (* if *)
      apply compileIf_Ok in H
        as (lp & lhs & eqt & rhs & rp & lb & s7 & a & cmp & sb & se &
            Hts & _ & _ & _ & _ & _ & _ & _ & Hx & Hblock & ->).
      apply nextTokens_pending in Hts. apply lex_eq_pending in Hx.
      apply (compileBlock_pending _ IH) in Hblock.
      change (pending (set_assembly
                (assembly se ++
                 [(label (labelCount s1 + 1) ++ ":")%string])%list se))
        with (pending se).
      split; [|intros _ _]; lia.
    - (* } *)
      apply ungetToken_Ok in H. subst s'.
      rewrite pushback_pending by exact H1.
      split; [lia|discriminate].
    - (* ; *)
      apply ret_Ok in H as [_ <-]. split; [|intros _ _]; lia.
    - (* end of input *)
      apply ret_Ok in H as [_ <-]. split; [exact P1|discriminate]. }
  split; [apply Main|].
  intros t' s1' E' Te Tb. rewrite E1 in E'. injection E' as <- <-.
  now apply Main.
Qed.

(** ** Enough fuel *)

Lemma total_safe {A} P (m : M A) : total m -> safe P m.
Proof. intros H s _. apply H. Qed.

Lemma total_bind {A B} (m : M A) (k : A -> M B) :
  total m -> (forall a, total (k a)) -> total (bind m k).
Proof.
  intros Hm Hk s. unfold bind. specialize (Hm s).
  destruct (m s) as [a s1| | |]; [apply Hk|discriminate|discriminate|now elim Hm].
Qed.

Lemma safe_bind {A B} P (m : M A) (k : A -> M B) :
  safe P m -> nonincreasing m -> (forall a, safe P (k a)) ->
  safe P (bind m k).
Proof.
  intros Hm Hn Hk s Hs. unfold bind. specialize (Hm s Hs).
  destruct (m s) as [a s1| | |] eqn:E;
    [|discriminate|discriminate|now elim Hm].
  apply Hk. apply Hn in E. lia.
Qed.

Lemma safe_bind_total {A B} P (m : M A) (k : A -> M B) :
  safe P m -> (forall a, total (k a)) -> safe P (bind m k).
Proof.
  intros Hm Hk s Hs. unfold bind. specialize (Hm s Hs).
  destruct (m s) as [a s1| | |]; [apply Hk|discriminate|discriminate|now elim Hm].
Qed.

Lemma nonincreasing_bind {A B} (m : M A) (k : A -> M B) :
  nonincreasing m -> (forall a, nonincreasing (k a)) ->
  nonincreasing (bind m k).
Proof.
  intros Hm Hk s b s' H. inv_bind H as a s1 E.
  apply Hm in E. apply Hk in H. lia.
Qed.

Lemma total_getNextToken : total getNextToken.
Proof.
  intros s. destruct (getNextToken_total s) as (t & s' & E). now rewrite E.
Qed.

Lemma total_ungetToken t : total (ungetToken t).
Proof. intros s. discriminate. Qed.

Lemma total_emit line : total (emit line).
Proof.
  intros s. unfold emit. destruct (asmLine s <? MAX_CODE_LINES)%nat;
    [|discriminate].
  destruct (String.length line <? ASM_LINE_LEN)%nat; discriminate.
Qed.

Lemma total_getVarAddress n : total (getVarAddress n).
Proof.
  intros s. unfold getVarAddress. destruct (findVar n (vars s));
    [discriminate|].
  destruct (MAX_VARS <=? varCount s)%nat; discriminate.
Qed.

Lemma total_nextLabel : total nextLabel.
Proof. intros s. discriminate. Qed.

Lemma total_ret {A} (a : A) : total (ret a).
Proof. intros s. discriminate. Qed.

Lemma total_exit {A} msg : total (@exit A msg).
Proof. intros s. discriminate. Qed.

Lemma total_expect p msg : total (expect p msg).
Proof.
  apply total_bind; [apply total_getNextToken|]. intros t.
  destruct (p (type t)); [apply total_ret|apply total_exit].
Qed.

Create HintDb total.
#[local] Hint Resolve total_getNextToken total_ungetToken total_emit
  total_getVarAddress total_nextLabel total_ret total_exit total_expect
  : total.

Ltac total_step :=
  match goal with
  | |- total (bind _ _) => apply total_bind; [|intros ?]
  | |- total (match type ?t with _ => _ end) => destruct (type t)
  | |- total (if ?b then _ else _) => destruct b
  | |- total (let x := _ in _) => cbv zeta
  | |- _ => solve [auto with total]
  end.

Lemma total_compileOperand op : total (compileOperand op).
Proof. unfold compileOperand. repeat total_step. Qed.

Lemma total_compileExpression T : total (compileExpression T).
Proof.
  unfold compileExpression.
  repeat (total_step || apply total_compileOperand).
Qed.

Lemma nonincreasing_getNextToken : nonincreasing getNextToken.
Proof. intros s t s' E. now apply getNextToken_pending in E. Qed.

Lemma nonincreasing_expect p msg : nonincreasing (expect p msg).
Proof. intros s t s' E. apply expect_Ok in E as [E _].
       now apply getNextToken_pending in E. Qed.

Lemma nonincreasing_nextLabel : nonincreasing nextLabel.
Proof. intros s n s' E. apply nextLabel_Ok in E as [_ ->]. reflexivity. Qed.

Lemma nonincreasing_getVarAddress n : nonincreasing (getVarAddress n).
Proof.
  intros s a s' E. apply getVarAddress_effect in E as (_ & _ & _ & _ & X).
  apply lex_eq_pending in X. lia.
Qed.

Lemma nonincreasing_emit line : nonincreasing (emit line).
Proof.
  intros s a s' E. apply emit_effect in E as (_ & _ & _ & X).
  apply lex_eq_pending in X. lia.
Qed.

Lemma safe_monotone {A} P P' (m : M A) :
  (P' <= P)%nat -> safe P m -> safe P' m.
Proof. intros Hle H s Hs. apply H. lia. Qed.

Lemma safe_compileBlock stmt :
  consumes stmt ->
  forall fuel P,
    (P < fuel)%nat -> safe P stmt -> safe P (compileBlock stmt fuel).
Proof.
  intros Hc. induction fuel as [|fuel IH]; intros P HP Hs s Hp; [lia|].
  simpl. destruct (getNextToken_total s) as (t & s1 & E).
  rewrite (bind_Ok_intro _ _ _ _ _ E).
  pose proof (getNextToken_pending _ _ _ E) as (H1 & P1 & Q1).
  destruct (is_RBRACE (type t)) eqn:Tb; [discriminate|].
  destruct (is_EOF (type t)) eqn:Te; [discriminate|].
  specialize (Q1 (is_EOF_false _ Te)).
  assert (U : ungetToken t s1 = Ok tt (set_pushback t true s1))
    by reflexivity.
  rewrite (bind_Ok_intro _ _ _ _ _ U).
  pose proof (pushback_pending t s1 H1) as P2.
  unfold bind at 1.
  destruct (stmt (set_pushback t true s1)) as [u s3| | |] eqn:E3;
    try discriminate.
  - destruct u. apply Hc in E3 as [_ Q3].
    assert (P3 : (pending s3 < pending (set_pushback t true s1))%nat).
    { apply (Q3 t (set_hasToken false (set_pushback t true s1)));
        [reflexivity|exact Te|exact Tb]. }
    apply (IH (pending s3)); [lia| |lia].
    apply (safe_monotone P); [lia|exact Hs].
  - exfalso. apply (Hs (set_pushback t true s1)); [lia|exact E3].
Qed.

Lemma safe_compileIf P stmt fuel :
  safe P (compileBlock stmt fuel) -> safe P (compileIf stmt fuel).
Proof.
  intros Hb. unfold compileIf.
  repeat (apply safe_bind;
          [apply total_safe; auto with total
          |first [apply nonincreasing_expect | apply nonincreasing_nextLabel
                 |apply nonincreasing_getVarAddress
                 |apply nonincreasing_emit]
          |intros ?]).
  cbv zeta.
  repeat (apply safe_bind;
          [apply total_safe; auto with total
          |first [apply nonincreasing_getVarAddress
                 |apply nonincreasing_emit]
          |intros ?]).
  apply safe_bind.
  - apply total_safe. destruct (type a2); repeat total_step.
  - destruct (type a2);
      first [apply nonincreasing_emit
            |apply nonincreasing_bind;
             [apply nonincreasing_getVarAddress
             |intros ?; apply nonincreasing_emit]].
  - intros _.
    repeat (apply safe_bind;
            [apply total_safe; auto with total
            |apply nonincreasing_emit|intros ?]).
    apply safe_bind_total; [exact Hb|]. intros _. apply total_emit.
Qed.

Lemma safe_compileStatement fuel : forall P,
  (P < fuel)%nat -> safe P (compileStatement fuel).
Proof.
  induction fuel as [|fuel IH]; intros P HP s Hs; [lia|].
  simpl. destruct (getNextToken_total s) as (t & s1 & E).
  rewrite (bind_Ok_intro _ _ _ _ _ E).
  pose proof (getNextToken_pending _ _ _ E) as (H1 & P1 & Q1).
  destruct (type t) eqn:Tt;
    try match goal with
        | |- ?m ?s <> Timeout =>
            let H := fresh in
            assert (H : total m)
              by (repeat (total_step || apply total_compileExpression));
            apply H
        end.
  assert (Q : (pending s1 < pending s)%nat) by (apply Q1; discriminate).
  apply (safe_compileIf (pending s1)); [|lia].
  apply safe_compileBlock; [apply compileStatement_consumes|lia|].
  apply IH. lia.
Qed.

(** ** Termination of the top-level loop *)

(** Two runs of a statement that both finish agree, whatever their fuel. *)
Lemma compileStatement_agree fuel fuel' s :
  compileStatement fuel s <> Timeout ->
  compileStatement fuel' s <> Timeout ->
  compileStatement fuel s = compileStatement fuel' s.
Proof.
  intros N N'. destruct (Nat.le_ge_cases fuel fuel') as [Hle|Hle].
  - symmetry. now apply refines_compileStatement.
  - now apply refines_compileStatement.
Qed.

Lemma stray_brace_loops s :
  meets_stray_brace s -> forall fuel, compile fuel s = Timeout.
Proof.
  induction 1 as [s t s1 E Tt|s t s1 fuel0 s2 E Te E2 _ IH];
    intros [|fuel]; try reflexivity; cbn [compile];
    rewrite (bind_Ok_intro _ _ _ _ _ E).
  - rewrite Tt. cbn [is_EOF].
    assert (U : ungetToken t s1 = Ok tt (set_pushback t true s1))
      by reflexivity.
    rewrite (bind_Ok_intro _ _ _ _ _ U).
    destruct fuel as [|fuel]; [reflexivity|].
    rewrite (bind_Ok_intro _ _ _ _ _
               (stray_brace_fixpoint (set_pushback t true s1) fuel
                  eq_refl Tt)).
    now apply stray_brace_spins.
  - rewrite Te.
    assert (U : ungetToken t s1 = Ok tt (set_pushback t true s1))
      by reflexivity.
    rewrite (bind_Ok_intro _ _ _ _ _ U).
    unfold bind at 1.
    assert (A : compileStatement fuel (set_pushback t true s1) <> Timeout ->
                compileStatement fuel (set_pushback t true s1) = Ok tt s2).
    { intros N. rewrite <- E2. apply compileStatement_agree; [exact N|].
      rewrite E2. discriminate. }
    destruct (compileStatement fuel (set_pushback t true s1))
      as [u s3| | |] eqn:E3; try reflexivity.
    + assert (E' : Ok u s3 = Ok tt s2) by (apply A; discriminate).
      injection E' as -> ->. apply IH.
    + assert (E' : Exit stderr s0 = Ok tt s2) by (apply A; discriminate).
      discriminate.
    + assert (E' : Undefined f = Ok tt s2) by (apply A; discriminate).
      discriminate.
Qed.

Lemma timeout_meets_stray_brace fuel : forall s,
  (pending s + 2 <= fuel)%nat -> compile fuel s = Timeout ->
  meets_stray_brace s.
Proof.
  induction fuel as [|fuel IH]; intros s Hf H; [lia|].
  cbn [compile] in H. destruct (getNextToken_total s) as (t & s1 & E).
  rewrite (bind_Ok_intro _ _ _ _ _ E) in H.
  pose proof (getNextToken_pending _ _ _ E) as (H1 & P1 & Q1).
  destruct (is_EOF (type t)) eqn:Te; [discriminate|].
  specialize (Q1 (is_EOF_false _ Te)).
  assert (U : ungetToken t s1 = Ok tt (set_pushback t true s1))
    by reflexivity.
  rewrite (bind_Ok_intro _ _ _ _ _ U) in H.
  pose proof (pushback_pending t s1 H1) as P2.
  unfold bind at 1 in H.
  destruct (compileStatement fuel (set_pushback t true s1))
    as [u s3| | |] eqn:E3; try discriminate.
  - destruct u. destruct (is_RBRACE (type t)) eqn:Tb.
    + apply (brace_now s t s1 E).
      destruct (type t); try discriminate; reflexivity.
    + apply (brace_later s t s1 fuel s3 E Te E3). apply IH; [|exact H].
      apply compileStatement_consumes in E3 as [_ Q3].
      assert (P3 : (pending s3 < pending (set_pushback t true s1))%nat).
      { apply (Q3 t (set_hasToken false (set_pushback t true s1)));
          [reflexivity|exact Te|exact Tb]. }
      lia.
  - exfalso. apply (safe_compileStatement fuel (pending s)) in E3;
      [exact E3|lia|lia].
Qed.

(** X11. The loop of [compile] fails to terminate exactly on the inputs
    with a stray brace: given fuel for the length of the input, it times out if
    and only if it meets one. *)
Theorem compile_terminates_unless_stray_brace fuel s :
  (pending s + 2 <= fuel)%nat ->
  (compile fuel s = Timeout <-> meets_stray_brace s).
Proof.
  intros Hf. split.
  - now apply timeout_meets_stray_brace.
  - intros H. now apply stray_brace_loops.
Qed.

(** ** Capacity of the output buffer *)

(** [emit] on a full buffer stores into [assembly[MAX_CODE_LINES]]. *)
Lemma emit_full line s :
  (MAX_CODE_LINES <= asmLine s)%nat ->
  emit line s = Undefined LineIndexOutOfBounds.
Proof.
  intros H. unfold emit. apply Nat.ltb_ge in H. rewrite H. reflexivity.
Qed.

(** C7 fails on the code: [emit] has no capacity test. Five hundred
    assignments fill the 1000 rows of [assembly] and compile normally; one
    more makes [emit] store past the last row, which is not a reported
    error but an out-of-bounds write. *)
Theorem emit_capacity_unchecked :
  (exists s, compile 502 (initial (replicate 500 "x=1;")) = Ok tt s /\
             asmLine s = MAX_CODE_LINES) /\
  compile 502 (initial (replicate 501 "x=1;")) =
    Undefined LineIndexOutOfBounds.
Proof.
  split.
  - eexists. split; vm_compute; reflexivity.
  - vm_compute. reflexivity.
Qed.

(** ** Strings and lists of characters *)

Lemma list_ascii_of_string_app a b :
  list_ascii_of_string (a ++ b) =
  (list_ascii_of_string a ++ list_ascii_of_string b)%list.
Proof. induction a as [|c a IH]; simpl; [reflexivity|now rewrite IH]. Qed.

(** ** Instances of the conditional theorems on concrete inputs *)

Lemma expression_table_witness :
  compileExpression "x" (initial "5 + y;") = Ok tt after_expression /\
  exists t1 s1 op s2 first aT,
    getNextToken (initial "5 + y;") = Ok t1 s1 /\
    getNextToken s1 = Ok op s2 /\
    spec_load_line t1 (vars after_expression) = Some first /\
    findVar "x" (vars after_expression) = Some aT /\
    if isPlusMinus (type op) then
      exists rhs s3 second,
        getNextToken s2 = Ok rhs s3 /\
        spec_arith_line op rhs (vars after_expression) = Some second /\
        assembly after_expression =
          (assembly (initial "5 + y;") ++
           [first; second; ("STA " ++ dec aT)%string])%list /\
        lex_eq after_expression s3
    else
      assembly after_expression =
        (assembly (initial "5 + y;") ++
         [first; ("STA " ++ dec aT)%string])%list /\
      lex_eq after_expression (set_pushback op true s2).
Proof.
  split; [vm_compute; reflexivity|].
  apply (expression_table "x" (initial "5 + y;") after_expression).
  vm_compute. reflexivity.
Defined.

Lemma if_code_shape_witness :
  exists lp lhs eqt rhs rp lb s7 a cmp body sb se chunks q rb,
    nextTokens 7 (initial if_demo) =
      ([mkToken TOKEN_IF "if"; lp; lhs; eqt; rhs; rp; lb], s7) /\
    map type [lp; lhs; eqt; rp; lb] =
      [TOKEN_LPAREN; TOKEN_IDENTIFIER; TOKEN_EQUAL; TOKEN_RPAREN;
       TOKEN_LBRACE] /\
    is_operand (type rhs) = true /\
    findVar (text lhs) (vars after_if) = Some a /\
    spec_compare_line rhs (vars after_if) = Some cmp /\
    assembly sb =
      (assembly (initial if_demo) ++
       if_prologue a cmp (labelCount (initial if_demo)))%list /\
    labelCount sb = (labelCount (initial if_demo) + 2)%Z /\
    lex_eq sb s7 /\
    compileBlock (compileStatement 2) 2 sb = Ok tt se /\
    block_statements 2 sb chunks q /\
    body = List.concat chunks /\
    getNextToken q = Ok rb se /\ type rb = TOKEN_RBRACE /\
    assembly se = (assembly sb ++ body)%list /\
    assembly after_if =
      (assembly (initial if_demo) ++
       if_prologue a cmp (labelCount (initial if_demo)) ++ body ++
       [(label (labelCount (initial if_demo) + 1) ++ ":")%string])%list /\
    lex_eq after_if se.
Proof.
  apply (if_code_shape 2 (initial if_demo) after_if (mkToken TOKEN_IF "if")
           (set_file (list_ascii_of_string " (x == 5) { x = x + 1; }")
                     (initial if_demo))).
  - vm_compute. reflexivity.
  - vm_compute. reflexivity.
  - reflexivity.
Defined.


(** The six label lines of [nested_demo]: the inner [if] closes before the
    outer one. *)
Example nested_demo_lines :
  assembly after_nested =
  ["LDA 16"; "SUBI 1"; "JZ L0"; "JMP L1"; "L0:";
   "LDA 17"; "SUB 16"; "JZ L2"; "JMP L3"; "L2:";
   "LDI 2"; "STA 18"; "L3:"; "L1:";
   "LDA 18"; "SUBI 2"; "JZ L4"; "JMP L5"; "L4:"; "L5:"].
Proof. reflexivity. Qed.

Lemma long_spelling_truncated_witness :
  exists t,
    getNextToken long_input =
      Ok t (set_file (list_ascii_of_string " = 1;") long_input) /\
    text t = substring 0 99 (string_of_list_ascii long_identifier) /\
    (String.length (string_of_list_ascii long_identifier) <= 99 ->
     text t = string_of_list_ascii long_identifier)%nat /\
    (99 < String.length (string_of_list_ascii long_identifier) ->
     String.length (text t) = 99)%nat /\
    type t = (if isalpha "a" then keyword (text t) else TOKEN_NUMBER).
Proof.
  apply (long_spelling_truncated long_input [] "a"%char
           (repeat "a"%char 119) (list_ascii_of_string " = 1;")).
  - reflexivity.
  - reflexivity.
  - vm_compute. reflexivity.
  - vm_compute. reflexivity.
Defined.

(** * Further properties of the code *)

(** ** The lexer: what a token looks like *)

Lemma all_chars_app p a b :
  all_chars p (a ++ b) = all_chars p a && all_chars p b.
Proof.
  unfold all_chars. rewrite list_ascii_of_string_app. apply forallb_app.
Qed.

(** The scanning loop only appends characters in [p] to the text, and
    never beyond 99 characters. *)
Lemma scanWhile_text p f : forall txt txt' rest,
  scanWhile p txt f = (txt', rest) ->
  exists more,
    txt' = txt ++ more /\ all_chars p more = true /\
    (String.length txt' <= Nat.max (String.length txt) (MAX_TOKEN_LEN - 1))%nat.
Proof.
  change (MAX_TOKEN_LEN - 1)%nat with 99%nat.
  induction f as [|c f IH]; intros txt txt' rest H; simpl in H.
  - inversion H; subst. exists "". rewrite string_app_nil.
    repeat split; lia.
  - destruct (p c) eqn:Pc.
    + change (MAX_TOKEN_LEN - 1)%nat with 99%nat in H.
      destruct (String.length txt <? 99)%nat eqn:E.
      * apply Nat.ltb_lt in E. apply IH in H as (more & -> & Hm & Hl).
        exists (String c more). rewrite string_app_assoc. simpl.
        split; [reflexivity|]. split.
        { unfold all_chars in *. simpl. now rewrite Pc. }
        rewrite string_app_assoc in Hl. simpl in Hl.
        rewrite !string_length_app in Hl. rewrite string_length_app.
        simpl in *. lia.
      * now apply IH in H.
    + inversion H; subst. exists "". rewrite string_app_nil.
      repeat split; lia.
Qed.

Lemma skipSpace_not_space f : forall c rest,
  skipSpace f = (Some c, rest) -> isspace c = false.
Proof.
  induction f as [|a f IH]; intros c rest H; simpl in H; [discriminate|].
  destruct (isspace a) eqn:E; [now apply IH in H|].
  now inversion H; subst.
Qed.

Lemma punctuation_text c :
  match fixed_text (punctuation c) with
  | Some sp => cstr1 c = sp
  | None => punctuation c = TOKEN_UNKNOWN
  end.
Proof.
  unfold punctuation.
  repeat match goal with
         | |- context [Ascii.eqb c ?x] =>
             destruct (Ascii.eqb_spec c x) as [->|?]; [reflexivity|]
         end.
  reflexivity.
Qed.

Lemma getNextToken_token_ok s t s' :
  lexer_ok s -> getNextToken s = Ok t s' -> token_ok t = true.
Proof.
  intros Hs. unfold getNextToken. destruct (hasToken s) eqn:Hh.
  { intros H; inversion H; subst. now apply Hs. }
  destruct (skipSpace (file s)) as [[c|] rest] eqn:Hsk.
  2:{ intros H; inversion H; subst. reflexivity. }
  apply skipSpace_not_space in Hsk.
  destruct (isalpha c) eqn:Ha.
  { destruct (scanWhile isalnum (String c "") rest) as [txt rest'] eqn:Hw.
    apply scanWhile_text in Hw as (more & -> & Hm & Hl).
    intros H; inversion H; subst. clear H.
    change (String c "" ++ more) with (String c more) in *.
    change (MAX_TOKEN_LEN - 1)%nat with 99%nat in Hl.
    assert (Hlen : (String.length (String c more) <? MAX_TOKEN_LEN)%nat = true)
      by (apply Nat.ltb_lt; unfold MAX_TOKEN_LEN; simpl in *; lia).
    unfold token_ok, keyword. cbn [type text].
    destruct (String.eqb (String c more) "int") eqn:E1; [exact E1|].
    destruct (String.eqb (String c more) "if") eqn:E2; [exact E2|].
    cbn [fixed_text negb]. rewrite Hlen, Ha, Hm. reflexivity. }
  destruct (isdigit c) eqn:Hd.
  { destruct (scanWhile isdigit (String c "") rest) as [txt rest'] eqn:Hw.
    apply scanWhile_text in Hw as (more & -> & Hm & Hl).
    intros H; inversion H; subst. clear H.
    change (String c "" ++ more) with (String c more) in *.
    change (MAX_TOKEN_LEN - 1)%nat with 99%nat in Hl.
    assert (Hlen : (String.length (String c more) <? MAX_TOKEN_LEN)%nat = true)
      by (apply Nat.ltb_lt; unfold MAX_TOKEN_LEN; simpl in *; lia).
    unfold token_ok. cbn [type text fixed_text]. rewrite Hlen.
    unfold is_number. cbn [list_ascii_of_string forallb].
    unfold all_chars in Hm. rewrite Hd, Hm. reflexivity. }
  destruct (Ascii.eqb_spec c "=") as [->|Hne].
  { destruct rest as [|c' rest'].
    { intros H; inversion H; subst. reflexivity. }
    destruct (Ascii.eqb c' "="); intros H; inversion H; subst; reflexivity. }
  intros H; inversion H; subst. unfold token_ok. simpl.
  pose proof (punctuation_text c) as P.
  destruct (fixed_text (punctuation c)) as [sp|] eqn:Esp.
  { rewrite P. apply String.eqb_refl. }
  rewrite P. unfold cstr1. destruct (Ascii.eqb c zero); [reflexivity|].
  simpl. unfold all_chars, in_alphabet, isalnum. simpl.
  rewrite Hsk, Ha, Hd, P.
  destruct (Ascii.eqb_spec c "=") as [->|_]; [now elim Hne|]. reflexivity.
Qed.

Lemma token_ok_fits t :
  token_ok t = true -> (String.length (text t) < MAX_TOKEN_LEN)%nat.
Proof.
  unfold token_ok. destruct (fixed_text (type t)) as [sp|] eqn:Esp.
  - intros E. apply String.eqb_eq in E. rewrite E.
    destruct (type t); try discriminate; injection Esp as <-;
      unfold MAX_TOKEN_LEN; simpl; lia.
  - intros E. apply andb_true_iff in E as [E _]. now apply Nat.ltb_lt in E.
Qed.

(** Reading a token keeps the lexer in order and leaves nothing pushed
    back. *)
Lemma read_lexer_ok s t s' :
  lexer_ok s -> getNextToken s = Ok t s' ->
  token_ok t = true /\ lexer_ok s' /\ hasToken s' = false.
Proof.
  intros Hs H. pose proof (getNextToken_token_ok _ _ _ Hs H) as Ht.
  apply getNextToken_pending in H as (Hh & _).
  split; [exact Ht|]. split; [|exact Hh]. intros E. congruence.
Qed.

(** X1. The lexer always returns a token, and every token it returns is
    well formed: a keyword or punctuation token carries exactly its own
    spelling, an identifier is a letter followed by letters and digits
    and is neither [int] nor [if], a number is a non-empty string of
    digits, an unknown token is at most one character outside the
    alphabet; in every case the text is shorter than [MAX_TOKEN_LEN], so
    that [token.text] is never overrun. This holds for a token read from
    the stream and for one that was pushed back. *)
Theorem token_shape s :
  lexer_ok s ->
  exists t s',
    getNextToken s = Ok t s' /\ token_ok t = true /\
    (String.length (text t) < MAX_TOKEN_LEN)%nat /\
    lexer_ok s' /\ hasToken s' = false.
Proof.
  intros Hs. destruct (getNextToken_total s) as (t & s' & E).
  destruct (read_lexer_ok _ _ _ Hs E) as (Ht & Hs' & Hh).
  exists t, s'. split; [exact E|]. split; [exact Ht|].
  split; [now apply token_ok_fits|]. split; assumption.
Qed.

Lemma token_shape_witness :
  lexer_ok (initial "count1 = 7;") /\
  exists t s',
    getNextToken (initial "count1 = 7;") = Ok t s' /\ token_ok t = true /\
    (String.length (text t) < MAX_TOKEN_LEN)%nat /\
    lexer_ok s' /\ hasToken s' = false.
Proof.
  assert (H : lexer_ok (initial "count1 = 7;")) by discriminate.
  split; [exact H|]. exact (token_shape (initial "count1 = 7;") H).
Defined.

(** ** The lexer: end of input *)

Lemma skipSpace_blank f :
  forallb isspace f = true <-> skipSpace f = (None, []).
Proof.
  induction f as [|c f IH]; simpl.
  - tauto.
  - destruct (isspace c); simpl; [exact IH|]. split; discriminate.
Qed.

(** A token of type [TOKEN_EOF] read from the stream comes from a stream
    of white space only, which it leaves empty. *)
Lemma read_EOF s t s' :
  hasToken s = false -> getNextToken s = Ok t s' -> type t = TOKEN_EOF ->
  skipSpace (file s) = (None, []) /\
  t = mkToken TOKEN_EOF "" /\ s' = set_file [] s.
Proof.
  intros Hh. unfold getNextToken. rewrite Hh.
  destruct (skipSpace (file s)) as [[c|] rest] eqn:Hsk.
  2:{ intros H _. inversion H; subst.
      apply skipSpace_None in Hsk. subst. auto. }
  destruct (isalpha c).
  { destruct (scanWhile isalnum (String c "") rest).
    intros H; inversion H; subst. intros T. simpl in T.
    now apply keyword_not_EOF in T. }
  destruct (isdigit c).
  { destruct (scanWhile isdigit (String c "") rest).
    intros H; inversion H; subst. discriminate. }
  destruct (Ascii.eqb c "=").
  { destruct rest as [|c' rest'].
    { intros H; inversion H; subst. discriminate. }
    destruct (Ascii.eqb c' "="); intros H; inversion H; subst; discriminate. }
  intros H; inversion H; subst. intros T. simpl in T.
  now apply punctuation_not_EOF in T.
Qed.

Lemma read_blank s :
  hasToken s = false -> forallb isspace (file s) = true ->
  getNextToken s = Ok (mkToken TOKEN_EOF "") (set_file [] s).
Proof.
  intros Hh Hb. apply skipSpace_blank in Hb.
  unfold getNextToken. now rewrite Hh, Hb.
Qed.

(** X2. End of input. With nothing pushed back, the lexer returns
    [TOKEN_EOF] exactly when only white space is left to read; the token
    then has the empty text, the stream is left empty, and every further
    call returns [TOKEN_EOF] again. *)
Theorem end_of_input s :
  hasToken s = false ->
  (forallb isspace (file s) = true <->
   exists s', getNextToken s = Ok (mkToken TOKEN_EOF "") s') /\
  (forall t s', getNextToken s = Ok t s' -> type t = TOKEN_EOF ->
     t = mkToken TOKEN_EOF "" /\ s' = set_file [] s /\
     getNextToken s' = Ok (mkToken TOKEN_EOF "") s').
Proof.
  intros Hh. split.
  - split.
    + intros Hb. eexists. now apply read_blank.
    + intros [s' H]. apply skipSpace_blank.
      now apply (read_EOF _ _ _ Hh H).
  - intros t s' H T. destruct (read_EOF _ _ _ Hh H T) as (_ & -> & ->).
    split; [reflexivity|]. split; [reflexivity|].
    exact (read_blank (set_file [] s) Hh eq_refl).
Qed.

Lemma end_of_input_witness :
  hasToken (initial "  ") = false /\
  (forallb isspace (file (initial "  ")) = true <->
   exists s', getNextToken (initial "  ") = Ok (mkToken TOKEN_EOF "") s') /\
  (forall t s', getNextToken (initial "  ") = Ok t s' -> type t = TOKEN_EOF ->
     t = mkToken TOKEN_EOF "" /\ s' = set_file [] (initial "  ") /\
     getNextToken s' = Ok (mkToken TOKEN_EOF "") s').
Proof.
  split; [reflexivity|]. apply (end_of_input (initial "  ")). reflexivity.
Defined.

(** ** The lexer: characters outside the alphabet *)

(** X3. A character that is neither white space, a letter, a digit nor
    one of [= + - ( ) { } ;] is read as a token of its own, of type
    [TOKEN_UNKNOWN], whose text is that character (the empty text for the
    character of code 0). At the start of a statement it is fatal:
    [compileStatement], and so [compile], exit with the message
    [Error: Unexpected token '<c>' (type: 14)], the stream standing right
    after the character. *)
Theorem foreign_character_rejected s ws c rest fuel :
  hasToken s = false -> forallb isspace ws = true ->
  file s = (ws ++ c :: rest)%list -> in_alphabet c = false ->
  let t := mkToken TOKEN_UNKNOWN (cstr1 c) in
  let msg := "Error: Unexpected token '" ++ cstr1 c ++ "' (type: 14)" ++ nl in
  getNextToken s = Ok t (set_file rest s) /\
  compileStatement (S fuel) s = Exit msg (set_file rest s) /\
  compile (S (S fuel)) s = Exit msg (set_pushback t false (set_file rest s)).
Proof.
  intros Hh Hws Hf Hc t msg.
  unfold in_alphabet, isalnum in Hc.
  apply orb_false_iff in Hc as [Hc Hp].
  apply orb_false_iff in Hc as [Hc He].
  apply orb_false_iff in Hc as [Hsp Hc].
  apply orb_false_iff in Hc as [Ha Hd].
  apply negb_false_iff in Hp.
  assert (P : punctuation c = TOKEN_UNKNOWN)
    by (destruct (punctuation c); try discriminate; reflexivity).
  assert (E : getNextToken s = Ok t (set_file rest s)).
  { unfold getNextToken. rewrite Hh, Hf, skipSpace_spec by assumption.
    rewrite Ha, Hd, He, P. reflexivity. }
  split; [exact E|]. split.
  - cbn [compileStatement]. rewrite (bind_Ok_intro _ _ _ _ _ E). reflexivity.
  - cbn [compile compileStatement]. rewrite (bind_Ok_intro _ _ _ _ _ E).
    reflexivity.
Qed.

Lemma foreign_character_rejected_witness :
  let s := initial " $x" in
  let t := mkToken TOKEN_UNKNOWN "$" in
  let msg := "Error: Unexpected token '$' (type: 14)" ++ nl in
  in_alphabet "$" = false /\
  getNextToken s = Ok t (set_file ["x"%char] s) /\
  compileStatement 1 s = Exit msg (set_file ["x"%char] s) /\
  compile 2 s = Exit msg (set_pushback t false (set_file ["x"%char] s)).
Proof.
  split; [reflexivity|].
  apply (foreign_character_rejected (initial " $x") [" "%char] "$"%char
           ["x"%char] 0); reflexivity.
Defined.

(** ** The symbol table: lookup after insertion *)

(** X4. Resolving a name is idempotent and disturbs no other name: after
    [getVarAddress n] has returned [a], a second call returns [a] again
    and changes nothing; every other name resolves as before, bound names
    keep their addresses, and the table has grown by one entry at
    most. *)
Theorem lookup_after_insert n s a s' :
  getVarAddress n s = Ok a s' ->
  getVarAddress n s' = Ok a s' /\
  (forall m, m <> n -> findVar m (vars s') = findVar m (vars s)) /\
  (forall m b, findVar m (vars s) = Some b -> findVar m (vars s') = Some b) /\
  (varCount s' <= S (varCount s))%nat.
Proof.
  intros H. apply getVarAddress_Ok in H as [[Hf ->]|(Hf & Hc & -> & ->)].
  - split; [unfold getVarAddress; now rewrite Hf|]. auto.
  - split; [|split; [|split]].
    + unfold getVarAddress. cbn [vars allocated set_symbols].
      now rewrite (findVar_last _ _ _ Hf).
    + intros m Hm. cbn [vars allocated set_symbols]. rewrite findVar_app.
      destruct (findVar m (vars s)); [reflexivity|]. simpl.
      destruct (String.eqb_spec n m) as [E|_]; [now elim Hm|reflexivity].
    + intros m b Hb. cbn [vars allocated set_symbols].
      now apply findVar_grows.
    + unfold varCount. cbn [vars allocated set_symbols].
      rewrite length_app. simpl. lia.
Qed.

Lemma lookup_after_insert_witness :
  getVarAddress "z" after_xy = Ok 18%Z (allocated "z" after_xy) /\
  getVarAddress "z" (allocated "z" after_xy) =
    Ok 18%Z (allocated "z" after_xy) /\
  (forall m, m <> "z" ->
     findVar m (vars (allocated "z" after_xy)) = findVar m (vars after_xy)) /\
  (forall m b, findVar m (vars after_xy) = Some b ->
     findVar m (vars (allocated "z" after_xy)) = Some b) /\
  (varCount (allocated "z" after_xy) <= S (varCount after_xy))%nat.
Proof.
  split; [reflexivity|].
  apply (lookup_after_insert "z" after_xy 18%Z (allocated "z" after_xy)).
  reflexivity.
Defined.

(** ** The symbol table: range of the addresses *)

Lemma symtab_ok_range s n a :
  symtab_ok s -> findVar n (vars s) = Some a ->
  (16 <= a < currentAddress s)%Z /\ (currentAddress s <= 116)%Z.
Proof.
  intros (_ & Haddr & Hcur & Hcap) Hf. apply findVar_In in Hf.
  apply (in_map address) in Hf. rewrite Haddr in Hf. simpl in Hf.
  apply in_map_iff in Hf as (i & <- & Hi). apply in_seq in Hi.
  rewrite Hcur. unfold nth_address, MAX_VARS in *. lia.
Qed.

(** X5. Wherever a compilation stops, on return or on [exit(1)], the
    symbol table holds at most [MAX_VARS] entries, the next free address
    is 16 plus their number, and every bound address lies between 16 and
    115: addresses never leave the range of one byte of the target. *)
Theorem addresses_in_range input fuel s :
  final (compile fuel (initial input)) = Some s ->
  (varCount s <= MAX_VARS)%nat /\
  currentAddress s = (16 + Z.of_nat (varCount s))%Z /\
  forall n a, findVar n (vars s) = Some a -> (16 <= a <= 115)%Z.
Proof.
  intros H.
  pose proof (symtab_ok_preserved _ _ _ H (symtab_ok_initial input)) as Hs.
  split; [apply Hs|]. split; [apply Hs|].
  intros n a Hf. destruct (symtab_ok_range _ _ _ Hs Hf). lia.
Qed.

Lemma addresses_in_range_witness :
  final (compile 10 (initial "x = 1; y = x + 2;")) = Some after_xy /\
  (varCount after_xy <= MAX_VARS)%nat /\
  currentAddress after_xy = (16 + Z.of_nat (varCount after_xy))%Z /\
  forall n a, findVar n (vars after_xy) = Some a -> (16 <= a <= 115)%Z.
Proof.
  assert (H : final (compile 10 (initial "x = 1; y = x + 2;")) = Some after_xy)
    by (vm_compute; reflexivity).
  split; [exact H|].
  exact (addresses_in_range "x = 1; y = x + 2;" 10 after_xy H).
Defined.

(** ** Nothing is overwritten *)

Lemma extends_refl s : extends s s.
Proof.
  exists [], []. rewrite !app_nil_r. simpl. repeat split; lia.
Qed.

Lemma map_seq_offset c n len :
  map (fun i => (c + Z.of_nat i)%Z) (seq n len) =
  map (fun i => (c + Z.of_nat n + Z.of_nat i)%Z) (seq 0 len).
Proof.
  revert n. induction len as [|len IH]; intros n; simpl; [reflexivity|].
  f_equal; [lia|]. rewrite IH, <- (seq_shift len 0), map_map.
  apply map_ext. intros i. lia.
Qed.

Lemma extends_trans s1 s2 s3 : extends s1 s2 -> extends s2 s3 -> extends s1 s3.
Proof.
  intros (v1 & l1 & V1 & A1 & L1 & C1 & M1) (v2 & l2 & V2 & A2 & L2 & C2 & M2).
  exists (v1 ++ v2)%list, (l1 ++ l2)%list.
  split; [now rewrite V2, V1, app_assoc|].
  split; [now rewrite A2, A1, app_assoc|].
  split; [lia|]. rewrite length_app. split; [lia|].
  rewrite map_app, seq_app, map_app, M1, M2. f_equal. simpl.
  rewrite (map_seq_offset (currentAddress s1) (0 + List.length v1)), C1.
  reflexivity.
Qed.

Lemma extends_lexer s s' :
  vars s' = vars s -> labelCount s' = labelCount s ->
  currentAddress s' = currentAddress s -> assembly s' = assembly s ->
  extends s s'.
Proof.
  intros V L C A. exists [], []. rewrite !app_nil_r. simpl.
  repeat split; trivial; lia.
Qed.

Lemma extends_emit line s :
  extends s (set_assembly (assembly s ++ [line])%list s).
Proof.
  exists [], [line]. rewrite !app_nil_r. simpl. repeat split; lia.
Qed.

Lemma extends_alloc n s : extends s (allocated n s).
Proof.
  exists [mkVariable n (currentAddress s)], []. rewrite !app_nil_r. simpl.
  repeat split; try lia. f_equal. lia.
Qed.

Lemma extends_label s : extends s (set_labelCount (labelCount s + 1)%Z s).
Proof.
  exists [], []. rewrite !app_nil_r. simpl. repeat split; lia.
Qed.

(** X6. Nothing is overwritten. Wherever a compilation stops, on return or
    on [exit(1)], the output buffer is the one it started with followed
    by new lines, the symbol table the one it started with followed by
    new entries, these hold the consecutive addresses from the address
    counter on, which advanced by their number, and the label counter has
    not decreased: no emitted line and no binding is ever changed or
    removed. *)
Theorem nothing_overwritten fuel s s' :
  final (compile fuel s) = Some s' ->
  exists vs ls,
    vars s' = (vars s ++ vs)%list /\
    assembly s' = (assembly s ++ ls)%list /\
    (labelCount s <= labelCount s')%Z /\
    currentAddress s' = (currentAddress s + Z.of_nat (List.length vs))%Z /\
    map address vs =
      map (fun i => (currentAddress s + Z.of_nat i)%Z)
          (seq 0 (List.length vs)).
Proof.
  apply (respects_compile extends).
  - exact extends_refl.
  - exact extends_trans.
  - exact extends_lexer.
  - intros line s0 _ _. apply extends_emit.
  - intros n s0 _ _. apply extends_alloc.
  - exact extends_label.
Qed.

Lemma nothing_overwritten_witness :
  final (compile 3 (initial "y = 3; x = ;")) = Some after_error /\
  exists vs ls,
    vars after_error = (vars (initial "y = 3; x = ;") ++ vs)%list /\
    assembly after_error = (assembly (initial "y = 3; x = ;") ++ ls)%list /\
    (labelCount (initial "y = 3; x = ;") <= labelCount after_error)%Z /\
    currentAddress after_error =
      (currentAddress (initial "y = 3; x = ;")
       + Z.of_nat (List.length vs))%Z /\
    map address vs =
      map (fun i => (currentAddress (initial "y = 3; x = ;")
                     + Z.of_nat i)%Z)
          (seq 0 (List.length vs)).
Proof.
  assert (H : final (compile 3 (initial "y = 3; x = ;")) = Some after_error)
    by (vm_compute; reflexivity).
  split; [exact H|].
  exact (nothing_overwritten 3 (initial "y = 3; x = ;") after_error H).
Defined.

(** ** Declarations *)

(** X7. A declaration [int v;] emits no code and takes no label. It binds
    [v] to the next free address, which then advances by one, unless [v]
    is bound already, in which case nothing changes: declaring a name
    twice, or after its first use, is not an error. *)
Theorem declaration_effect fuel s s' t s1 :
  compileStatement (S fuel) s = Ok tt s' ->
  getNextToken s = Ok t s1 -> type t = TOKEN_INT ->
  exists id s2 semi s3,
    getNextToken s1 = Ok id s2 /\ type id = TOKEN_IDENTIFIER /\
    getNextToken s2 = Ok semi s3 /\ type semi = TOKEN_SEMICOLON /\
    lex_eq s' s3 /\
    assembly s' = assembly s /\ labelCount s' = labelCount s /\
    match findVar (text id) (vars s) with
    | Some _ => vars s' = vars s /\ currentAddress s' = currentAddress s
    | None =>
        vars s' = (vars s ++ [mkVariable (text id) (currentAddress s)])%list /\
        currentAddress s' = (currentAddress s + 1)%Z
    end.
Proof.
  intros H E Tt. cbn [compileStatement] in H.
  rewrite (bind_Ok_intro _ _ _ _ _ E), Tt in H.
  pose proof (getNextToken_frame _ _ _ E) as (V1 & L1 & C1 & A1).
  inv_bind H as id s2 E2. apply expect_Ok in E2 as [E2 P2].
  pose proof (getNextToken_frame _ _ _ E2) as (V2 & L2 & C2 & A2).
  inv_bind H as a sa Ea. inv_bind H as semi s4 E4.
  apply expect_Ok in E4 as [E4 P4]. apply ret_Ok in H as [_ <-].
  pose proof (getNextToken_frame _ _ _ E4) as (V4 & L4 & C4 & A4).
  assert (X : lex_eq sa s2).
  { now apply getVarAddress_effect in Ea as (_ & _ & _ & _ & X). }
  destruct (getNextToken_lex_eq _ _ _ _ X E4) as (s3 & E3 & X3).
  exists id, s2, semi, s3.
  split; [exact E2|].
  split; [destruct (type id); try discriminate; reflexivity|].
  split; [exact E3|].
  split; [destruct (type semi); try discriminate; reflexivity|].
  split; [exact X3|].
  assert (Hv : vars s2 = vars s) by congruence.
  assert (Hc : currentAddress s2 = currentAddress s) by congruence.
  apply getVarAddress_Ok in Ea as [[Hf ->]|(Hf & _ & -> & ->)];
    rewrite Hv in Hf; rewrite Hf.
  - repeat split; congruence.
  - cbn [allocated set_symbols vars assembly labelCount currentAddress] in *.
    repeat split; congruence.
Qed.

Lemma declaration_effect_witness :
  let s := set_file (list_ascii_of_string "int x; int z;") after_xy in
  exists s' t s1,
    compileStatement 1 s = Ok tt s' /\
    getNextToken s = Ok t s1 /\ type t = TOKEN_INT /\
    exists id s2 semi s3,
      getNextToken s1 = Ok id s2 /\ type id = TOKEN_IDENTIFIER /\
      getNextToken s2 = Ok semi s3 /\ type semi = TOKEN_SEMICOLON /\
      lex_eq s' s3 /\
      assembly s' = assembly s /\ labelCount s' = labelCount s /\
      match findVar (text id) (vars s) with
      | Some _ => vars s' = vars s /\ currentAddress s' = currentAddress s
      | None =>
          vars s' =
            (vars s ++ [mkVariable (text id) (currentAddress s)])%list /\
          currentAddress s' = (currentAddress s + 1)%Z
      end.
Proof.
  cbv zeta. eexists. eexists. eexists.
  split; [vm_compute; reflexivity|].
  split; [vm_compute; reflexivity|].
  split; [reflexivity|].
  eapply (declaration_effect 0
            (set_file (list_ascii_of_string "int x; int z;") after_xy));
    [vm_compute; reflexivity|vm_compute; reflexivity|reflexivity].
Defined.

(** ** Order of allocation *)

Lemma extends_fresh s s' n a :
  extends s s' -> findVar n (vars s) = None ->
  findVar n (vars s') = Some a -> (currentAddress s <= a)%Z.
Proof.
  intros (vs & ls & V & _ & _ & _ & M) Hn Hf.
  rewrite V, findVar_app, Hn in Hf. apply findVar_In in Hf.
  apply (in_map address) in Hf. rewrite M in Hf. simpl in Hf.
  apply in_map_iff in Hf as (i & <- & _). lia.
Qed.

Lemma extends_bound s s' n a :
  extends s s' -> findVar n (vars s) = Some a -> findVar n (vars s') = Some a.
Proof. intros (vs & ls & V & _) Hf. rewrite V. now apply findVar_grows. Qed.

Lemma extends_Ok_emit line s u s' : emit line s = Ok u s' -> extends s s'.
Proof. intros H. apply emit_Ok in H as (-> & _). apply extends_emit. Qed.

Lemma extends_Ok_getVarAddress n s a s' :
  getVarAddress n s = Ok a s' -> extends s s'.
Proof.
  intros H. apply getVarAddress_Ok in H as [[_ ->]|(_ & _ & _ & ->)].
  - apply extends_refl.
  - apply extends_alloc.
Qed.

Lemma extends_Ok_compileOperand op s u s' :
  compileOperand op s = Ok u s' -> extends s s'.
Proof.
  intros H. apply (respects_compileOperand extends) with (op := op).
  - exact extends_refl.
  - exact extends_trans.
  - exact extends_lexer.
  - intros line x _ _. apply extends_emit.
  - intros n x _ _. apply extends_alloc.
  - rewrite H. reflexivity.
Qed.

(** X8. In an assignment the variables of the right-hand side are
    allocated before the target. When the right-hand side starts with an
    identifier [v] that is not bound yet, and the target [T] is another
    name, not bound either, [v] takes the next free address and [T] a
    higher one: [a = b;] on fresh names puts [b] at the lower address. *)
Theorem operands_allocated_first T s s' t1 s1 :
  compileExpression T s = Ok tt s' ->
  getNextToken s = Ok t1 s1 -> type t1 = TOKEN_IDENTIFIER ->
  findVar (text t1) (vars s) = None -> findVar T (vars s) = None ->
  text t1 <> T ->
  findVar (text t1) (vars s') = Some (currentAddress s) /\
  exists aT, findVar T (vars s') = Some aT /\ (currentAddress s < aT)%Z.
Proof.
  intros H E1 T1 Hv HT Hne. unfold compileExpression in H.
  rewrite (bind_Ok_intro _ _ _ _ _ E1), T1 in H. cbv zeta in H.
  pose proof (getNextToken_frame _ _ _ E1) as (V1 & _ & C1 & _).
  inv_bind H as op s2 E2.
  pose proof (getNextToken_frame _ _ _ E2) as (V2 & _ & C2 & _).
  assert (Hv2 : findVar (text t1) (vars s2) = None) by congruence.
  assert (HT2 : findVar T (vars s2) = None) by congruence.
  assert (Hc2 : currentAddress s2 = currentAddress s) by congruence.
  assert (Main : forall a sa aT,
            getVarAddress (text t1) s2 = Ok a sa -> extends sa s' ->
            findVar T (vars s') = Some aT ->
            findVar (text t1) (vars s') = Some (currentAddress s) /\
            exists aT, findVar T (vars s') = Some aT /\
                       (currentAddress s < aT)%Z).
  { intros a sa aT Ea Hx HaT.
    apply getVarAddress_Ok in Ea as [[Hf _]|(_ & _ & -> & ->)]; [congruence|].
    split.
    - apply (extends_bound _ _ _ _ Hx). cbn [allocated set_symbols vars].
      rewrite <- Hc2. now apply findVar_last.
    - exists aT. split; [exact HaT|].
      assert (currentAddress (allocated (text t1) s2) <= aT)%Z.
      { apply (extends_fresh _ _ T aT Hx); [|exact HaT].
        cbn [allocated set_symbols vars]. rewrite findVar_app, HT2.
        simpl. destruct (String.eqb_spec (text t1) T); [contradiction|].
        reflexivity. }
      cbn [allocated set_symbols currentAddress] in *. lia. }
  destruct (isPlusMinus (type op)).
  - inv_bind H as a sa Ea. inv_bind H as u sb Eb. inv_bind H as u' sc Ec.
    inv_bind H as aT sd Ed.
    apply (Main a sa aT Ea).
    + apply (extends_trans _ sb); [now apply extends_Ok_emit in Eb|].
      apply (extends_trans _ sc); [now apply extends_Ok_compileOperand in Ec|].
      apply (extends_trans _ sd); [now apply extends_Ok_getVarAddress in Ed|].
      now apply extends_Ok_emit in H.
    + apply getVarAddress_effect in Ed as (Hf & _).
      apply emit_effect in H as (_ & -> & _). exact Hf.
  - inv_bind H as a sa Ea. inv_bind H as u sb Eb. inv_bind H as aT sc Ec.
    inv_bind H as u' sd Ed. apply ungetToken_Ok in H. subst s'.
    apply (Main a sa aT Ea).
    + apply (extends_trans _ sb); [now apply extends_Ok_emit in Eb|].
      apply (extends_trans _ sc); [now apply extends_Ok_getVarAddress in Ec|].
      apply (extends_trans _ sd); [now apply extends_Ok_emit in Ed|].
      now apply extends_lexer.
    + apply getVarAddress_effect in Ec as (Hf & _).
      apply emit_effect in Ed as (_ & Hvd & _).
      cbn [set_pushback vars]. now rewrite Hvd.
Qed.

Lemma operands_allocated_first_witness :
  exists s' t1 s1,
    compileExpression "a" (initial "b + c;") = Ok tt s' /\
    getNextToken (initial "b + c;") = Ok t1 s1 /\
    text t1 = "b" /\
    findVar (text t1) (vars s') = Some (currentAddress (initial "b + c;")) /\
    exists aT, findVar "a" (vars s') = Some aT /\
               (currentAddress (initial "b + c;") < aT)%Z.
Proof.
  eexists. eexists. eexists.
  split; [vm_compute; reflexivity|].
  split; [vm_compute; reflexivity|].
  split; [reflexivity|].
  eapply (operands_allocated_first "a" (initial "b + c;"));
    [vm_compute; reflexivity|vm_compute; reflexivity|reflexivity
    |reflexivity|reflexivity|discriminate].
Defined.

(** ** Diagnostics *)

Lemma exits_bind P {A B} (m : M A) (k : A -> M B) :
  exits_with P m -> (forall a, exits_with P (k a)) -> exits_with P (bind m k).
Proof.
  intros Hm Hk s e s' H. unfold bind in H.
  destruct (m s) as [a s1|e1 s1| |] eqn:E; try discriminate.
  - now apply (Hk a s1 e s').
  - inversion H; subst. now apply (Hm s e s').
Qed.

Lemma exits_ret P {A} (a : A) : exits_with P (ret a).
Proof. intros s e s' H. discriminate. Qed.

Lemma exits_getNextToken P : exits_with P getNextToken.
Proof.
  intros s e s' H. destruct (getNextToken_total s) as (t & s1 & E).
  rewrite E in H. discriminate.
Qed.

Lemma exits_ungetToken P t : exits_with P (ungetToken t).
Proof. intros s e s' H. discriminate. Qed.

Lemma exits_nextLabel P : exits_with P nextLabel.
Proof. intros s e s' H. discriminate. Qed.

Lemma exits_emit P line : exits_with P (emit line).
Proof.
  intros s e s' H. unfold emit in H.
  destruct (asmLine s <? MAX_CODE_LINES)%nat; [|discriminate].
  destruct (String.length line <? ASM_LINE_LEN)%nat; discriminate.
Qed.

Lemma fatal_diagnostic {A} msg :
  In msg fatal_messages -> exits_with diagnostic (@exit A msg).
Proof. intros Hin s e s' H. inversion H; subst. now left. Qed.

Lemma exits_getVarAddress n : exits_with diagnostic (getVarAddress n).
Proof.
  intros s e s' H. unfold getVarAddress in H.
  destruct (findVar n (vars s)); [discriminate|].
  destruct (MAX_VARS <=? varCount s)%nat; [|discriminate].
  inversion H; subst. left. simpl. tauto.
Qed.

Lemma exits_expect p msg :
  In (msg ++ nl) fatal_messages -> exits_with diagnostic (expect p msg).
Proof.
  intros Hin. apply exits_bind; [apply exits_getNextToken|]. intros t.
  destruct (p (type t)); [apply exits_ret|now apply fatal_diagnostic].
Qed.

Ltac in_messages := simpl; tauto.

Ltac exits_step :=
  match goal with
  | |- exits_with _ (bind _ _) => apply exits_bind; [|intros ?]
  | |- exits_with _ (match type ?t with _ => _ end) => destruct (type t)
  | |- exits_with _ (if ?b then _ else _) => destruct b
  | |- exits_with _ (let x := _ in _) => cbv zeta
  | |- exits_with _ (ret _) => apply exits_ret
  | |- exits_with _ getNextToken => apply exits_getNextToken
  | |- exits_with _ (ungetToken _) => apply exits_ungetToken
  | |- exits_with _ nextLabel => apply exits_nextLabel
  | |- exits_with _ (emit _) => apply exits_emit
  | |- exits_with _ (getVarAddress _) => apply exits_getVarAddress
  | |- exits_with _ (expect _ _) => apply exits_expect; in_messages
  | |- exits_with _ (exit _) => apply fatal_diagnostic; in_messages
  end.

Lemma exits_compileOperand op : exits_with diagnostic (compileOperand op).
Proof. unfold compileOperand. repeat exits_step. Qed.

Lemma exits_compileExpression T : exits_with diagnostic (compileExpression T).
Proof.
  unfold compileExpression.
  repeat (exits_step || apply exits_compileOperand).
Qed.

Lemma exits_compileBlock stmt fuel :
  exits_with diagnostic stmt ->
  exits_with diagnostic (compileBlock stmt fuel).
Proof.
  intros Hs. induction fuel as [|fuel IH]; cbn [compileBlock].
  - intros s e s' H. discriminate.
  - repeat (exits_step || assumption).
Qed.

Lemma exits_compileIf stmt fuel :
  exits_with diagnostic stmt -> exits_with diagnostic (compileIf stmt fuel).
Proof.
  intros Hs. unfold compileIf.
  repeat (exits_step || (apply exits_compileBlock; assumption)).
Qed.

Lemma exits_compileStatement fuel :
  exits_with diagnostic (compileStatement fuel).
Proof.
  induction fuel as [|fuel IH]; cbn [compileStatement].
  - intros s e s' H. discriminate.
  - apply exits_bind; [apply exits_getNextToken|]. intros t.
    destruct (type t) eqn:Tt;
      try (repeat (exits_step || apply exits_compileExpression
                   || (apply exits_compileIf; assumption)); fail);
      intros s e s' H; inversion H; subst; right; exists t;
      (split; [now rewrite Tt|unfold unexpected_token; now rewrite Tt]).
Qed.

(** X9. The diagnostics are a closed list. Whenever a compilation exits,
    the message on [stderr] is one of the fourteen fixed messages of the
    source, or the message [Error: Unexpected token '<text>' (type: <n>)]
    for a token that cannot start a statement. In particular no use of an
    undeclared or unset variable, no redeclaration and no overflow of the
    output buffer is ever reported. *)
Theorem exit_messages fuel s e s' :
  compile fuel s = Exit e s' ->
  In e fatal_messages \/
  exists t, starts_statement (type t) = false /\ e = unexpected_token t.
Proof.
  revert s e s'. induction fuel as [|fuel IH]; intros s e s' H;
    [discriminate|].
  cbn [compile] in H. revert s e s' H.
  change (exits_with diagnostic
            (token <- getNextToken ;;
             if is_EOF (type token) then ret tt
             else ungetToken token ;; compileStatement fuel ;; compile fuel)).
  repeat (exits_step || apply exits_compileStatement).
  exact IH.
Qed.

Lemma exit_messages_witness :
  compile 3 (initial "y = 3; x = ;") =
    Exit ("Error: Expected identifier or number in expression" ++ nl)
         after_error /\
  (In ("Error: Expected identifier or number in expression" ++ nl)
      fatal_messages \/
   exists t, starts_statement (type t) = false /\
             "Error: Expected identifier or number in expression" ++ nl
             = unexpected_token t).
Proof.
  assert (H : compile 3 (initial "y = 3; x = ;") =
              Exit ("Error: Expected identifier or number in expression"
                    ++ nl) after_error) by (vm_compute; reflexivity).
  split; [exact H|].
  exact (exit_messages 3 (initial "y = 3; x = ;") _ after_error H).
Defined.

(** ** Termination of a statement *)

(** X10. A single statement always terminates, however deeply its blocks
    nest: fuel beyond the pending input is never exhausted by
    [compileStatement], more fuel does not change its outcome, and when
    it returns it has left no more to read than it found. *)
Theorem statement_terminates fuel s :
  (pending s < fuel)%nat ->
  compileStatement fuel s <> Timeout /\
  (forall fuel', (fuel <= fuel')%nat ->
     compileStatement fuel' s = compileStatement fuel s) /\
  (forall s', compileStatement fuel s = Ok tt s' ->
     (pending s' <= pending s)%nat).
Proof.
  intros Hf.
  assert (N : compileStatement fuel s <> Timeout).
  { apply (safe_compileStatement fuel (pending s)); [exact Hf|lia]. }
  split; [exact N|]. split.
  - intros fuel' Hle. now apply refines_compileStatement.
  - intros s' H. now apply compileStatement_consumes in H.
Qed.

Lemma statement_terminates_witness :
  (pending (initial if_demo) < 27)%nat /\
  compileStatement 27 (initial if_demo) <> Timeout /\
  (forall fuel', (27 <= fuel')%nat ->
     compileStatement fuel' (initial if_demo) =
     compileStatement 27 (initial if_demo)) /\
  (forall s', compileStatement 27 (initial if_demo) = Ok tt s' ->
     (pending s' <= pending (initial if_demo))%nat).
Proof.
  assert (H : (pending (initial if_demo) < 27)%nat) by (vm_compute; lia).
  split; [exact H|]. exact (statement_terminates 27 (initial if_demo) H).
Defined.

Lemma compile_terminates_unless_stray_brace_witness :
  (pending (initial "x = 1; }") + 2 <= 10)%nat /\
  (compile 10 (initial "x = 1; }") = Timeout <->
   meets_stray_brace (initial "x = 1; }")).
Proof.
  assert (H : (pending (initial "x = 1; }") + 2 <= 10)%nat)
    by (vm_compute; lia).
  split; [exact H|].
  exact (compile_terminates_unless_stray_brace 10 (initial "x = 1; }") H).
Defined.

(** ** A successful compilation has read everything *)

(** After a statement the only token that can be pending is the [}] it
    declined. *)
Lemma compileStatement_leaves fuel s s' :
  compileStatement fuel s = Ok tt s' -> hasToken s' = true ->
  type (currentToken s') = TOKEN_RBRACE.
Proof.
  destruct fuel as [|fuel]; intros H; [discriminate|].
  cbn [compileStatement] in H. inv_bind H as t s1 E1.
  pose proof (getNextToken_pending _ _ _ E1) as (H1 & _).
  destruct (type t) eqn:Tt; try (now apply exit_Ok in H).
  - inv_bind H as id s2 E2. inv_bind H as a s3 E3.
    inv_bind H as t4 s4 E4. apply expect_Ok in E4 as [E4 _].
    apply ret_Ok in H as [_ <-].
    apply getNextToken_pending in E4 as (H4 & _). congruence.
  - cbv zeta in H. inv_bind H as t2 s2 E2. inv_bind H as u s3 E3.
    inv_bind H as t4 s4 E4. apply expect_Ok in E4 as [E4 _].
    apply ret_Ok in H as [_ <-].
    apply getNextToken_pending in E4 as (H4 & _). congruence.
  - apply compileIf_Ok in H
      as (lp & lhs & eqt & rhs & rp & lb & s7 & a & cmp & sb & se &
          _ & _ & _ & _ & _ & _ & _ & _ & _ & Hblock & ->).
    apply compileBlock_ends_at_brace in Hblock as (sr & rb & Er & _).
    apply getNextToken_pending in Er as (Hr & _).
    cbn [hasToken set_assembly]. congruence.
  - apply ungetToken_Ok in H. subst s'. intros _. exact Tt.
  - apply ret_Ok in H as [_ <-]. congruence.
  - apply ret_Ok in H as [_ <-]. congruence.
Qed.

(** X12. A compilation that returns has read its whole input: the stream
    is empty and nothing is pushed back. No part of the source is ever
    silently ignored; text after the last statement the compiler accepts
    is either compiled or fatal. *)
Theorem success_consumes_input fuel : forall s s',
  compile fuel s = Ok tt s' ->
  (hasToken s = true -> type (currentToken s) <> TOKEN_EOF) ->
  file s' = [] /\ hasToken s' = false.
Proof.
  induction fuel as [|fuel IH]; intros s s' H Hs; [discriminate|].
  cbn [compile] in H. inv_bind H as t s1 E1.
  destruct (is_EOF (type t)) eqn:Te.
  - apply ret_Ok in H as [_ <-].
    assert (Tt : type t = TOKEN_EOF)
      by (destruct (type t); try discriminate; reflexivity).
    destruct (hasToken s) eqn:Hh.
    + exfalso. apply Hs; [reflexivity|].
      unfold getNextToken in E1. rewrite Hh in E1. inversion E1; subst.
      exact Tt.
    + destruct (read_EOF _ _ _ Hh E1 Tt) as (_ & _ & ->).
      split; [reflexivity|exact Hh].
  - inv_bind H as u s2 E2. apply ungetToken_Ok in E2. subst s2.
    inv_bind H as u' s3 E3. destruct u'.
    apply (IH _ _ H). intros Hh.
    rewrite (compileStatement_leaves _ _ _ E3 Hh). discriminate.
Qed.

Lemma success_consumes_input_witness :
  compile 10 (initial "x = 1; y = x + 2;") = Ok tt after_xy /\
  file after_xy = [] /\ hasToken after_xy = false.
Proof.
  assert (H : compile 10 (initial "x = 1; y = x + 2;") = Ok tt after_xy)
    by (vm_compute; reflexivity).
  split; [exact H|].
  apply (success_consumes_input 10 (initial "x = 1; y = x + 2;") after_xy H).
  discriminate.
Defined.

(** ** The shape of the output *)

Lemma findVar_existsb n vs a :
  findVar n vs = Some a -> existsb (fun v => Z.eqb (address v) a) vs = true.
Proof.
  intros H. apply findVar_In in H. apply existsb_exists.
  exists (mkVariable n a). split; [exact H|apply Z.eqb_refl].
Qed.

Lemma instr_ok_grows vs vs' L L' i :
  (L <= L')%Z -> instr_ok vs L i = true -> instr_ok (vs ++ vs') L' i = true.
Proof.
  intros HL. destruct i; simpl; trivial;
    try (rewrite existsb_app; intros ->; reflexivity);
    intros H; apply andb_true_iff in H as [H1 H2];
    apply Z.ltb_lt in H2; rewrite H1; apply Z.ltb_lt; lia.
Qed.

Lemma jumps_forward_app p q :
  jumps_forward p = true -> jumps_forward q = true ->
  jumps_forward (p ++ q) = true.
Proof.
  induction p as [|i p IH]; intros Hp Hq; simpl in *; [exact Hq|].
  apply andb_true_iff in Hp as [Hi Hp]. rewrite (IH Hp Hq), andb_true_r.
  destruct i; trivial; rewrite existsb_app, Hi; reflexivity.
Qed.

Lemma jumps_forward_plain i p :
  is_branch i = false -> jumps_forward (i :: p) = jumps_forward p.
Proof. destruct i; simpl; trivial; discriminate. Qed.

Lemma emits_nil s s' : assembly s' = assembly s -> emits s s' [].
Proof. intros H. unfold emits. simpl. now rewrite app_nil_r. Qed.

Lemma emits_app s1 s2 s3 p q :
  emits s1 s2 p -> emits s2 s3 q -> grows s2 s3 ->
  emits s1 s3 (p ++ q).
Proof.
  intros (A1 & O1 & J1) (A2 & O2 & J2) ([vs V] & _ & L).
  split; [|split].
  - now rewrite A2, A1, map_app, app_assoc.
  - rewrite forallb_app, O2, andb_true_r. rewrite V.
    rewrite forallb_forall in *. intros i Hi.
    apply (instr_ok_grows _ _ (labelCount s2)); [exact L|now apply O1].
  - now apply jumps_forward_app.
Qed.

Lemma emits_frame s1 s2 s3 p :
  emits s1 s2 p -> assembly s3 = assembly s2 -> vars s3 = vars s2 ->
  labelCount s3 = labelCount s2 -> emits s1 s3 p.
Proof. intros (A & O & J) Ha Hv Hl. unfold emits. now rewrite Ha, Hv, Hl. Qed.

Lemma emits_start s0 s1 s2 p :
  emits s1 s2 p -> assembly s1 = assembly s0 -> emits s0 s2 p.
Proof. intros (A & O & J) Ha. unfold emits. now rewrite <- Ha. Qed.

Lemma token_number t :
  token_ok t = true -> type t = TOKEN_NUMBER -> is_number (text t) = true.
Proof.
  unfold token_ok. intros H Tt. rewrite Tt in H. cbn [fixed_text] in H.
  now apply andb_true_iff in H as [_ H].
Qed.

Lemma load_instr t vs L line :
  token_ok t = true -> spec_load_line t vs = Some line ->
  exists i, line = render i /\ instr_ok vs L i = true /\
            is_branch i = false.
Proof.
  intros Ht. unfold spec_load_line. destruct (type t) eqn:Tt; try discriminate.
  - destruct (findVar (text t) vs) as [a|] eqn:Hf; [|discriminate].
    intros H; injection H as <-. exists (LDA a).
    split; [reflexivity|]. split; [|reflexivity].
    now apply findVar_existsb in Hf.
  - intros H; injection H as <-. exists (LDI (text t)).
    split; [reflexivity|]. split; [|reflexivity]. now apply token_number.
Qed.

Lemma arith_instr op t vs L line :
  token_ok t = true -> spec_arith_line op t vs = Some line ->
  exists i, line = render i /\ instr_ok vs L i = true /\
            is_branch i = false.
Proof.
  intros Ht. unfold spec_arith_line.
  destruct (type op); try discriminate;
    (destruct (type t) eqn:Tt; try discriminate;
     [destruct (findVar (text t) vs) as [a|] eqn:Hf; [|discriminate];
      intros H; injection H as <-;
      first [exists (ADD a); split; [reflexivity|]
            |exists (SUB a); split; [reflexivity|]];
      (split; [|reflexivity]); now apply findVar_existsb in Hf
     |intros H; injection H as <-;
      first [exists (ADDI (text t)); split; [reflexivity|]
            |exists (SUBI (text t)); split; [reflexivity|]];
      (split; [|reflexivity]); now apply token_number]).
Qed.

Lemma compare_instr t vs L line :
  token_ok t = true -> spec_compare_line t vs = Some line ->
  exists i, line = render i /\ instr_ok vs L i = true /\
            is_branch i = false /\ (forall l, defines l i = false).
Proof.
  intros Ht. unfold spec_compare_line.
  destruct (type t) eqn:Tt; try discriminate.
  - destruct (findVar (text t) vs) as [a|] eqn:Hf; [|discriminate].
    intros H; injection H as <-. exists (SUB a).
    split; [reflexivity|]. split; [now apply findVar_existsb in Hf|].
    split; reflexivity.
  - intros H; injection H as <-. exists (SUBI (text t)).
    split; [reflexivity|]. split; [now apply token_number|].
    split; reflexivity.
Qed.

Lemma lex_eq_lexer_ok s s' : lex_eq s s' -> lexer_ok s' -> lexer_ok s.
Proof. intros (_ & Eh & Ec) H Hh. rewrite Ec. apply H. congruence. Qed.

Lemma nextTokens_ok n : forall s ts s',
  nextTokens n s = (ts, s') -> lexer_ok s ->
  Forall (fun t => token_ok t = true) ts /\ lexer_ok s'.
Proof.
  induction n as [|n IH]; intros s ts s' H Hs; simpl in H.
  - inversion H; subst. split; [constructor|exact Hs].
  - destruct (getNextToken s) as [t s1| | |] eqn:E;
      try (inversion H; subst; split; [constructor|exact Hs]).
    destruct (nextTokens n s1) as [ts1 s2] eqn:E2. inversion H; subst.
    destruct (read_lexer_ok _ _ _ Hs E) as (Ht & Hs1 & _).
    destruct (IH _ _ _ E2 Hs1) as (Hts & Hs2).
    split; [constructor; assumption|exact Hs2].
Qed.

Lemma emits_compileExpression T s s' :
  compileExpression T s = Ok tt s' -> lexer_ok s ->
  lexer_ok s' /\ exists prog, emits s s' prog.
Proof.
  intros H Hs.
  apply compileExpression_Ok in H
    as (t1 & s1 & op & s2 & first & aT & E1 & E2 & Hfirst & HfT & H).
  destruct (read_lexer_ok _ _ _ Hs E1) as (Ht1 & Hs1 & _).
  destruct (read_lexer_ok _ _ _ Hs1 E2) as (Hop & Hs2 & Hh2).
  destruct (load_instr _ _ (labelCount s') _ Ht1 Hfirst)
    as (i1 & -> & O1 & B1).
  apply findVar_existsb in HfT.
  destruct (isPlusMinus (type op)).
  - destruct H as (rhs & s3 & second & E3 & Hsecond & Ha & X).
    destruct (read_lexer_ok _ _ _ Hs2 E3) as (Hrhs & Hs3 & Hh3).
    destruct (arith_instr _ _ _ (labelCount s') _ Hrhs Hsecond)
      as (i2 & -> & O2 & B2).
    split; [now apply (lex_eq_lexer_ok _ _ X)|].
    exists [i1; i2; STA aT]. split; [exact Ha|]. split.
    + cbn [forallb instr_ok]. now rewrite O1, O2, HfT.
    + now rewrite !jumps_forward_plain.
  - destruct H as (Ha & X). split.
    + apply (lex_eq_lexer_ok _ _ X). intros _. exact Hop.
    + exists [i1; STA aT]. split; [exact Ha|]. split.
      * cbn [forallb instr_ok]. now rewrite O1, HfT.
      * now rewrite !jumps_forward_plain.
Qed.

Lemma grows_nonneg s s' :
  grows s s' -> (0 <= labelCount s)%Z -> (0 <= labelCount s')%Z.
Proof. intros (_ & _ & L). lia. Qed.

Lemma emits_compileBlock stmt :
  (forall s s', stmt s = Ok tt s' -> lexer_ok s -> (0 <= labelCount s)%Z ->
     lexer_ok s' /\ grows s s' /\ exists prog, emits s s' prog) ->
  forall fuel s s',
    compileBlock stmt fuel s = Ok tt s' -> lexer_ok s ->
    (0 <= labelCount s)%Z ->
    lexer_ok s' /\ grows s s' /\ exists prog, emits s s' prog.
Proof.
  intros Hstmt. induction fuel as [|fuel IH]; intros s s' H Hs Hl;
    cbn [compileBlock] in H; [discriminate|].
  inv_bind H as t s1 E.
  pose proof (getNextToken_frame _ _ _ E) as (V1 & L1 & C1 & A1).
  destruct (read_lexer_ok _ _ _ Hs E) as (Ht & Hs1 & Hh1).
  destruct (is_RBRACE (type t)).
  { apply ret_Ok in H as [_ <-]. split; [exact Hs1|]. split.
    - now apply grows_lexer.
    - exists []. now apply emits_nil. }
  destruct (is_EOF (type t)); [now apply exit_Ok in H|].
  inv_bind H as u s2 E2. apply ungetToken_Ok in E2. subst s2.
  inv_bind H as u' s3 E3. destruct u'.
  destruct (Hstmt _ _ E3) as (Hs3 & G3 & p3 & P3).
  { intros _. exact Ht. }
  { cbn [set_pushback labelCount]. lia. }
  destruct (IH _ _ H Hs3) as (Hs' & G' & p' & P').
  { apply (grows_nonneg _ _ G3). cbn [set_pushback labelCount]. lia. }
  split; [exact Hs'|]. split.
  - apply (grows_trans _ (set_pushback t true s1)); [now apply grows_lexer|].
    now apply (grows_trans _ s3).
  - exists (p3 ++ p')%list. apply (emits_start s (set_pushback t true s1));
      [|exact A1]. now apply (emits_app _ s3).
Qed.

Lemma emits_compileStatement fuel : forall s s',
  compileStatement fuel s = Ok tt s' -> lexer_ok s ->
  (0 <= labelCount s)%Z ->
  lexer_ok s' /\ grows s s' /\ exists prog, emits s s' prog.
Proof.
  induction fuel as [|fuel IH]; intros s s' H Hs Hl; [discriminate|].
  assert (G : grows s s').
  { apply (grows_compileStatement (S fuel)). now rewrite H. }
  cbn [compileStatement] in H. inv_bind H as t s1 E1.
  pose proof (getNextToken_frame _ _ _ E1) as (V1 & L1 & C1 & A1).
  destruct (read_lexer_ok _ _ _ Hs E1) as (Ht & Hs1 & Hh1).
  assert (Done : forall s4, lexer_ok s4 -> assembly s4 = assembly s1 ->
            s4 = s' ->
            lexer_ok s' /\ grows s s' /\ exists prog, emits s s' prog).
  { intros s4 H4 A4 <-. split; [exact H4|]. split; [exact G|].
    exists []. apply emits_nil. congruence. }
  destruct (type t) eqn:Tt; try (now apply exit_Ok in H).
  - (* int *)
    inv_bind H as id s2 E2. apply expect_Ok in E2 as [E2 _].
    pose proof (getNextToken_frame _ _ _ E2) as (_ & _ & _ & A2).
    inv_bind H as a s3 E3.
    apply getVarAddress_effect in E3 as (_ & _ & A3 & _ & X3).
    inv_bind H as t4 s4 E4. apply expect_Ok in E4 as [E4 _].
    pose proof (getNextToken_frame _ _ _ E4) as (_ & _ & _ & A4).
    apply ret_Ok in H as [_ H].
    apply (Done s4); [|congruence|exact H].
    intros Hh. apply getNextToken_pending in E4 as (Hf & _). congruence.
  - (* assignment *)
    cbv zeta in H. inv_bind H as t2 s2 E2. apply expect_Ok in E2 as [E2 _].
    pose proof (getNextToken_frame _ _ _ E2) as (V2 & L2 & _ & A2).
    destruct (read_lexer_ok _ _ _ Hs1 E2) as (_ & Hs2 & _).
    inv_bind H as u s3 E3. destruct u.
    destruct (emits_compileExpression _ _ _ E3 Hs2) as (Hs3 & p & P).
    inv_bind H as t4 s4 E4. apply expect_Ok in E4 as [E4 _].
    pose proof (getNextToken_frame _ _ _ E4) as (V4 & L4 & _ & A4).
    destruct (read_lexer_ok _ _ _ Hs3 E4) as (_ & Hs4 & _).
    apply ret_Ok in H as [_ <-].
    split; [exact Hs4|]. split; [exact G|]. exists p.
    apply (emits_start s s2); [|congruence].
    now apply (emits_frame _ s3).
  - (* if *)
    apply compileIf_Ok in H
      as (lp & lhs & eqt & rhs & rp & lb & s7 & a & cmp & sb & se &
          Hts & _ & _ & Hf & Hcmp & Hasm & Hlab & _ & Hx & Hblock & ->).
    destruct (nextTokens_ok _ _ _ _ Hts Hs1) as (Hok & Hs7).
    assert (Hrhs : token_ok rhs = true).
    { inversion Hok as [|? ? _ Hok1]; subst.
      inversion Hok1 as [|? ? _ Hok2]; subst.
      inversion Hok2 as [|? ? _ Hok3]; subst.
      now inversion Hok3. }
    assert (Hsb : lexer_ok sb) by now apply (lex_eq_lexer_ok _ _ Hx).
    destruct (emits_compileBlock _ IH _ _ _ Hblock Hsb)
      as (Hse & Gb & body & Ab & Ob & Jb); [lia|].
    destruct Gb as ([vb Vb] & _ & Lb).
    destruct (compare_instr _ _ (labelCount sb) _ Hrhs Hcmp)
      as (c & -> & Oc & Bc & Dc).
    apply findVar_existsb in Hf.
    split; [exact Hse|]. split; [exact G|].
    exists ([LDA a; c; JZ (labelCount s1); JMP (labelCount s1 + 1);
             LABEL (labelCount s1)] ++ body ++
            [LABEL (labelCount s1 + 1)])%list.
    split; [|split].
    + cbn [assembly set_assembly]. rewrite Ab, Hasm, A1.
      unfold if_prologue. rewrite !map_app, <- !app_assoc. reflexivity.
    + cbn [vars labelCount set_assembly].
      assert (In1 : forall i, instr_ok (vars sb) (labelCount sb) i = true ->
                instr_ok (vars se) (labelCount se) i = true).
      { intros i Hi. rewrite Vb. now apply (instr_ok_grows _ _ (labelCount sb)). }
      assert (Lab : forall i l,
                (labelCount s1 <= l < labelCount s1 + 2)%Z ->
                In i [JZ l; JMP l; LABEL l] ->
                instr_ok (vars se) (labelCount se) i = true).
      { intros i l Hl' Hi.
        assert (E : ((0 <=? l)%Z && (l <? labelCount se)%Z)%bool = true)
          by (apply andb_true_iff; split;
              [apply Z.leb_le|apply Z.ltb_lt]; lia).
        simpl in Hi. destruct Hi as [<-|[<-|[<-|[]]]]; exact E. }
      rewrite !forallb_app, Ob. cbn [forallb].
      rewrite (In1 (LDA a)), (In1 c) by trivial.
      rewrite (Lab (JZ (labelCount s1)) (labelCount s1)),
              (Lab (JMP (labelCount s1 + 1)) (labelCount s1 + 1)%Z),
              (Lab (LABEL (labelCount s1)) (labelCount s1)),
              (Lab (LABEL (labelCount s1 + 1)) (labelCount s1 + 1)%Z)
        by (try lia; simpl; tauto).
      reflexivity.
    + assert (Jend : jumps_forward (body ++ [LABEL (labelCount s1 + 1)])
                     = true) by now apply jumps_forward_app.
      cbn [app]. rewrite !jumps_forward_plain by (trivial; reflexivity).
      cbn [jumps_forward existsb defines]. rewrite Jend, Z.eqb_refl.
      rewrite !existsb_app. cbn [existsb defines]. rewrite Z.eqb_refl.
      now rewrite !orb_true_r.
  - (* a closing brace *)
    apply ungetToken_Ok in H.
    apply (Done (set_pushback t true s1)); [|reflexivity|now symmetry].
    intros _. exact Ht.
  - (* ; *)
    apply ret_Ok in H as [_ H]. now apply (Done s1).
  - (* end of input *)
    apply ret_Ok in H as [_ H]. now apply (Done s1).
Qed.

Lemma emits_compile fuel : forall s s',
  compile fuel s = Ok tt s' -> lexer_ok s -> (0 <= labelCount s)%Z ->
  exists prog, emits s s' prog.
Proof.
  induction fuel as [|fuel IH]; intros s s' H Hs Hl; [discriminate|].
  cbn [compile] in H. inv_bind H as t s1 E1.
  pose proof (getNextToken_frame _ _ _ E1) as (V1 & L1 & C1 & A1).
  destruct (read_lexer_ok _ _ _ Hs E1) as (Ht & Hs1 & Hh1).
  destruct (is_EOF (type t)).
  { apply ret_Ok in H as [_ <-]. exists []. now apply emits_nil. }
  inv_bind H as u s2 E2. apply ungetToken_Ok in E2. subst s2.
  inv_bind H as u' s3 E3. destruct u'.
  destruct (emits_compileStatement _ _ _ E3) as (Hs3 & G3 & p3 & P3).
  { intros _. exact Ht. }
  { cbn [set_pushback labelCount]. lia. }
  destruct (IH _ _ H Hs3) as (p' & P').
  { apply (grows_nonneg _ _ G3). cbn [set_pushback labelCount]. lia. }
  exists (p3 ++ p')%list. apply (emits_start s (set_pushback t true s1));
    [|exact A1].
  apply (emits_app _ s3); trivial.
  apply (grows_compile fuel). now rewrite H.
Qed.

(** X13. The output is a program. When a compilation returns, the lines
    it appended are the rendering of a list of instructions, each of one
    of the ten forms [LDI n], [ADDI n], [SUBI n], [LDA a], [STA a],
    [ADD a], [SUB a], [JZ Lk], [JMP Lk], [Lk:], in which every literal
    [n] is a non-empty string of digits, every address [a] is the address
    of an entry of the symbol table, and every label number [k] is
    non-negative and below the label counter. *)
Theorem output_is_a_program fuel s s' :
  compile fuel s = Ok tt s' -> lexer_ok s -> (0 <= labelCount s)%Z ->
  exists prog,
    assembly s' = (assembly s ++ map render prog)%list /\
    forallb (instr_ok (vars s') (labelCount s')) prog = true.
Proof.
  intros H Hs Hl. destruct (emits_compile _ _ _ H Hs Hl) as (prog & A & O & _).
  exists prog. split; assumption.
Qed.

Lemma output_is_a_program_witness :
  compile 8 (initial nested_demo) = Ok tt after_nested /\
  lexer_ok (initial nested_demo) /\
  (0 <= labelCount (initial nested_demo))%Z /\
  exists prog,
    assembly after_nested =
      (assembly (initial nested_demo) ++ map render prog)%list /\
    forallb (instr_ok (vars after_nested) (labelCount after_nested)) prog
      = true.
Proof.
  assert (H : compile 8 (initial nested_demo) = Ok tt after_nested)
    by (vm_compute; reflexivity).
  assert (Hs : lexer_ok (initial nested_demo)) by discriminate.
  assert (Hl : (0 <= labelCount (initial nested_demo))%Z) by (simpl; lia).
  split; [exact H|]. split; [exact Hs|]. split; [exact Hl|].
  exact (output_is_a_program 8 (initial nested_demo) after_nested H Hs Hl).
Defined.

(** X14. All branches go forward. When a compilation returns, every
    [JZ Lk] and [JMP Lk] it emitted is followed, further down the output,
    by the line [Lk:] that defines its label, and no label line occurs
    twice: each branch has exactly one target, and it lies ahead, so the
    emitted code contains no loop. *)
Theorem jumps_go_forward fuel s s' :
  compile fuel s = Ok tt s' -> lexer_ok s -> (0 <= labelCount s)%Z ->
  exists prog,
    assembly s' = (assembly s ++ map render prog)%list /\
    jumps_forward prog = true /\
    NoDup (filter is_label_line (map render prog)).
Proof.
  intros H Hs Hl. destruct (emits_compile _ _ _ H Hs Hl) as (prog & A & _ & J).
  exists prog. split; [exact A|]. split; [exact J|].
  destruct (defines_labels_compile _ _ _ H (Z.to_nat (labelCount s)))
    as (n' & l & _ & _ & A' & P); [lia|].
  rewrite A in A'. apply app_inv_head in A'. rewrite A'.
  apply (Permutation_NoDup (Permutation_sym P)).
  apply NoDup_map_injective; [|apply seq_NoDup].
  intros i j. apply label_line_inj.
Qed.

Lemma jumps_go_forward_witness :
  compile 8 (initial nested_demo) = Ok tt after_nested /\
  lexer_ok (initial nested_demo) /\
  (0 <= labelCount (initial nested_demo))%Z /\
  exists prog,
    assembly after_nested =
      (assembly (initial nested_demo) ++ map render prog)%list /\
    jumps_forward prog = true /\
    NoDup (filter is_label_line (map render prog)).
Proof.
  assert (H : compile 8 (initial nested_demo) = Ok tt after_nested)
    by (vm_compute; reflexivity).
  assert (Hs : lexer_ok (initial nested_demo)) by discriminate.
  assert (Hl : (0 <= labelCount (initial nested_demo))%Z) by (simpl; lia).
  split; [exact H|]. split; [exact Hs|]. split; [exact Hl|].
  exact (jumps_go_forward 8 (initial nested_demo) after_nested H Hs Hl).
Defined.

(** ** Token streams *)

Lemma getNextToken_scan s :
  hasToken s = false ->
  getNextToken s = Ok (fst (scan (file s))) (set_file (snd (scan (file s))) s).
Proof.
  intros Hh. unfold scan, getNextToken.
  cbn [hasToken set_file initial file]. rewrite Hh.
  destruct (skipSpace (file s)) as [[c|] rest]; [|reflexivity].
  destruct (isalpha c).
  { destruct (scanWhile isalnum (String c "") rest); reflexivity. }
  destruct (isdigit c).
  { destruct (scanWhile isdigit (String c "") rest); reflexivity. }
  destruct (Ascii.eqb c "="); [|reflexivity].
  destruct rest as [|c' rest']; [reflexivity|].
  destruct (Ascii.eqb c' "="); reflexivity.
Qed.

Lemma scan_spec f :
  getNextToken (set_file f (initial "")) =
  Ok (fst (scan f)) (set_file (snd (scan f)) (initial "")).
Proof.
  rewrite (getNextToken_scan (set_file f (initial ""))) by reflexivity.
  reflexivity.
Qed.

Lemma scan_shorter f :
  type (fst (scan f)) <> TOKEN_EOF ->
  (List.length (snd (scan f)) < List.length f)%nat.
Proof.
  intros H. pose proof (scan_spec f) as E.
  apply getNextToken_pending in E as (_ & _ & P). specialize (P H).
  unfold pending in P. cbn [file set_file hasToken initial] in P. lia.
Qed.

Lemma scan_end f :
  type (fst (scan f)) = TOKEN_EOF ->
  scan f = (mkToken TOKEN_EOF "", []) /\ forallb isspace f = true.
Proof.
  intros H. pose proof (scan_spec f) as E.
  destruct (read_EOF (set_file f (initial "")) _ _ eq_refl E H)
    as (Hb & Et & Es).
  apply (f_equal file) in Es. cbn [file set_file] in Es, Hb.
  apply skipSpace_blank in Hb.
  destruct (scan f) as [t rest]. simpl in *. split; [congruence|exact Hb].
Qed.

Lemma is_EOF_true t : is_EOF t = true -> t = TOKEN_EOF.
Proof. destruct t; try discriminate; reflexivity. Qed.

Lemma tokenize_fuel n : forall m f,
  (List.length f < n)%nat -> (List.length f < m)%nat ->
  tokenize n f = tokenize m f.
Proof.
  induction n as [|n IH]; intros m f Hn Hm; [lia|].
  destruct m as [|m]; [lia|]. cbn [tokenize].
  destruct (scan f) as [t rest] eqn:E.
  destruct (is_EOF (type t)) eqn:Te; [reflexivity|].
  f_equal. pose proof (scan_shorter f) as L. rewrite E in L. simpl in L.
  specialize (L (is_EOF_false _ Te)). apply IH; lia.
Qed.

Lemma same_tokens_scan f1 f2 :
  same_tokens f1 f2 ->
  fst (scan f1) = fst (scan f2) /\
  same_tokens (snd (scan f1)) (snd (scan f2)).
Proof.
  unfold same_tokens. intros H. cbn [tokenize] in H.
  pose proof (scan_shorter f1) as L1. pose proof (scan_shorter f2) as L2.
  pose proof (scan_end f1) as N1. pose proof (scan_end f2) as N2.
  destruct (scan f1) as [t1 r1], (scan f2) as [t2 r2].
  cbn [fst snd] in *.
  destruct (is_EOF (type t1)) eqn:T1, (is_EOF (type t2)) eqn:T2;
    try discriminate.
  - destruct (N1 (is_EOF_true _ T1)) as [N1' _].
    destruct (N2 (is_EOF_true _ T2)) as [N2' _].
    inversion N1'; inversion N2'; subst. split; reflexivity.
  - injection H as -> H. split; [reflexivity|].
    specialize (L1 (is_EOF_false _ T2)). specialize (L2 (is_EOF_false _ T2)).
    rewrite (tokenize_fuel (S (List.length r1)) (List.length f1)) by lia.
    rewrite (tokenize_fuel (S (List.length r2)) (List.length f2)) by lia.
    exact H.
Qed.

Lemma length_list_ascii_of_string a :
  List.length (list_ascii_of_string a) = String.length a.
Proof. induction a as [|c a IH]; simpl; [reflexivity|now rewrite IH]. Qed.

(** ** Layout does not matter *)

Lemma layout_blind_bind {A B} (m : M A) (k : A -> M B) :
  layout_blind m -> (forall a, layout_blind (k a)) -> layout_blind (bind m k).
Proof.
  intros Hm Hk s1 s2 H. specialize (Hm s1 s2 H). unfold bind.
  destruct (m s1) as [a x1|e x1|f|], (m s2) as [b x2|e' x2|f'|];
    simpl in Hm; try contradiction; trivial.
  destruct Hm as [<- Hx]. now apply Hk.
Qed.

Lemma layout_blind_ret {A} (a : A) : layout_blind (ret a).
Proof. intros s1 s2 H. simpl. auto. Qed.

Lemma layout_blind_exit {A} msg : layout_blind (@exit A msg).
Proof. intros s1 s2 H. simpl. auto. Qed.

Lemma layout_blind_getNextToken : layout_blind getNextToken.
Proof.
  intros s1 s2 (V & L & C & A & T & Hh & F).
  destruct (hasToken s1) eqn:H1.
  - unfold getNextToken. rewrite <- Hh, H1. simpl.
    split; [exact T|]. unfold alike; simpl. intuition congruence.
  - rewrite (getNextToken_scan s1 H1), (getNextToken_scan s2) by congruence.
    destruct (same_tokens_scan _ _ F) as (Et & Fr). simpl.
    split; [exact Et|]. unfold alike; simpl. intuition congruence.
Qed.

Lemma layout_blind_ungetToken t : layout_blind (ungetToken t).
Proof.
  intros s1 s2 (V & L & C & A & T & Hh & F). simpl.
  split; [reflexivity|]. unfold alike; simpl. intuition congruence.
Qed.

Lemma layout_blind_emit line : layout_blind (emit line).
Proof.
  intros s1 s2 (V & L & C & A & T & Hh & F). unfold emit, asmLine.
  rewrite <- A. destruct (_ <? MAX_CODE_LINES)%nat; [|reflexivity].
  destruct (_ <? ASM_LINE_LEN)%nat; [|reflexivity]. simpl.
  split; [reflexivity|]. unfold alike; simpl. intuition congruence.
Qed.

Lemma layout_blind_getVarAddress n : layout_blind (getVarAddress n).
Proof.
  intros s1 s2 H. pose proof H as (V & L & C & A & T & Hh & F).
  unfold getVarAddress, varCount. rewrite <- V, <- C.
  destruct (findVar n (vars s1)); [simpl; auto|].
  destruct (MAX_VARS <=? _)%nat; simpl; [auto|].
  split; [reflexivity|]. unfold alike; simpl. intuition congruence.
Qed.

Lemma layout_blind_nextLabel : layout_blind nextLabel.
Proof.
  intros s1 s2 (V & L & C & A & T & Hh & F). simpl.
  split; [exact L|]. unfold alike; simpl. intuition congruence.
Qed.

Lemma layout_blind_expect p msg : layout_blind (expect p msg).
Proof.
  apply layout_blind_bind; [apply layout_blind_getNextToken|]. intros t.
  destruct (p (type t)); [apply layout_blind_ret|apply layout_blind_exit].
Qed.

Ltac layout_step :=
  match goal with
  | |- layout_blind (bind _ _) => apply layout_blind_bind; [|intros ?]
  | |- layout_blind (match type ?t with _ => _ end) => destruct (type t)
  | |- layout_blind (if ?b then _ else _) => destruct b
  | |- layout_blind (let x := _ in _) => cbv zeta
  | |- layout_blind (ret _) => apply layout_blind_ret
  | |- layout_blind (exit _) => apply layout_blind_exit
  | |- layout_blind getNextToken => apply layout_blind_getNextToken
  | |- layout_blind (ungetToken _) => apply layout_blind_ungetToken
  | |- layout_blind (emit _) => apply layout_blind_emit
  | |- layout_blind (getVarAddress _) => apply layout_blind_getVarAddress
  | |- layout_blind nextLabel => apply layout_blind_nextLabel
  | |- layout_blind (expect _ _) => apply layout_blind_expect
  end.

Lemma layout_blind_compileOperand op : layout_blind (compileOperand op).
Proof. unfold compileOperand. repeat layout_step. Qed.

Lemma layout_blind_compileExpression T : layout_blind (compileExpression T).
Proof.
  unfold compileExpression.
  repeat (layout_step || apply layout_blind_compileOperand).
Qed.

Lemma layout_blind_compileBlock stmt fuel :
  layout_blind stmt -> layout_blind (compileBlock stmt fuel).
Proof.
  intros Hs. induction fuel as [|fuel IH]; cbn [compileBlock].
  - intros s1 s2 _. exact I.
  - repeat (layout_step || assumption).
Qed.

Lemma layout_blind_compileIf stmt fuel :
  layout_blind stmt -> layout_blind (compileIf stmt fuel).
Proof.
  intros Hs. unfold compileIf.
  repeat (layout_step || (apply layout_blind_compileBlock; assumption)).
Qed.

Lemma layout_blind_compileStatement fuel :
  layout_blind (compileStatement fuel).
Proof.
  induction fuel as [|fuel IH]; cbn [compileStatement].
  - intros s1 s2 _. exact I.
  - repeat (layout_step || apply layout_blind_compileExpression
            || (apply layout_blind_compileIf; assumption)).
Qed.

Lemma layout_blind_compile fuel : layout_blind (compile fuel).
Proof.
  induction fuel as [|fuel IH]; cbn [compile].
  - intros s1 s2 _. exact I.
  - repeat (layout_step || apply layout_blind_compileStatement
            || assumption).
Qed.

(** X15. Layout does not matter. Two source texts that the lexer cuts
    into the same tokens have the same fate: the same [output.asm], or the
    same message on [stderr], or the same fault, or both no end. White
    space between tokens, line breaks and indentation included, changes
    nothing. *)
Theorem layout_irrelevant p1 p2 :
  tokens p1 = tokens p2 ->
  forall fuel can_create,
    main fuel (Some p1) can_create = main fuel (Some p2) can_create.
Proof.
  intros H fuel can_create. unfold main.
  assert (Hal : alike (initial p1) (initial p2)).
  { unfold alike, same_tokens. cbn [initial vars labelCount currentAddress
      assembly currentToken hasToken file].
    rewrite !length_list_ascii_of_string. auto 10. }
  pose proof (layout_blind_compile fuel _ _ Hal) as R.
  destruct (compile fuel (initial p1)) as [[] x1|e x1|f|],
           (compile fuel (initial p2)) as [[] x2|e' x2|f'|];
    simpl in R; try contradiction; trivial.
  - destruct R as (_ & _ & _ & _ & A & _). now rewrite A.
  - destruct R as [-> _]. reflexivity.
  - now subst.
Qed.

Lemma layout_irrelevant_witness :
  tokens "x=1;if(x==1){y=x+2;}" =
  tokens "  x = 1 ;   if ( x == 1 )   {   y = x + 2 ;   }  " /\
  forall fuel can_create,
    main fuel (Some "x=1;if(x==1){y=x+2;}") can_create =
    main fuel (Some "  x = 1 ;   if ( x == 1 )   {   y = x + 2 ;   }  ")
         can_create.
Proof.
  assert (H : tokens "x=1;if(x==1){y=x+2;}" =
              tokens "  x = 1 ;   if ( x == 1 )   {   y = x + 2 ;   }  ")
    by (vm_compute; reflexivity).
  split; [exact H|].
  exact (layout_irrelevant _ _ H).
Defined.

(** ** The tokens spell the input *)

Lemma scanWhile_exact p f : forall txt txt' rest,
  scanWhile p txt f = (txt', rest) ->
  (String.length txt' < MAX_TOKEN_LEN - 1)%nat ->
  exists cs, f = (cs ++ rest)%list /\ forallb p cs = true /\
             txt' = txt ++ string_of_list_ascii cs.
Proof.
  change (MAX_TOKEN_LEN - 1)%nat with 99%nat.
  induction f as [|c f IH]; intros txt txt' rest H Hlen; simpl in H.
  - inversion H; subst. exists []. now rewrite string_app_nil.
  - destruct (p c) eqn:Pc.
    + change (MAX_TOKEN_LEN - 1)%nat with 99%nat in H.
      pose proof (scanWhile_text _ _ _ _ _ H) as (more & Hm & _ & _).
      destruct (String.length txt <? 99)%nat eqn:E.
      * apply IH in H as (cs & -> & Hcs & ->); [|exact Hlen].
        exists (c :: cs). simpl. rewrite Pc, Hcs, string_app_assoc.
        auto.
      * apply Nat.ltb_ge in E. subst txt'.
        rewrite string_length_app in Hlen. lia.
    + inversion H; subst. exists []. now rewrite string_app_nil.
Qed.

Lemma filter_visible_spaces ws :
  forallb isspace ws = true -> filter visible ws = [].
Proof.
  induction ws as [|w ws IH]; simpl; [reflexivity|]. intros H.
  apply andb_true_iff in H as [Hw H]. unfold visible at 1. rewrite Hw.
  now apply IH.
Qed.

Lemma filter_visible_all p cs :
  (forall c, p c = true -> isspace c = false) ->
  forallb p cs = true -> filter visible cs = cs.
Proof.
  intros Hp. induction cs as [|c cs IH]; simpl; [reflexivity|]. intros H.
  apply andb_true_iff in H as [Hc H]. unfold visible at 1.
  rewrite (Hp c Hc), IH by exact H. reflexivity.
Qed.

Lemma skipSpace_spaces f : forall c rest,
  skipSpace f = (Some c, rest) ->
  exists ws, f = (ws ++ c :: rest)%list /\ forallb isspace ws = true /\
             isspace c = false.
Proof.
  induction f as [|a f IH]; intros c rest H; simpl in H; [discriminate|].
  destruct (isspace a) eqn:E.
  - apply IH in H as (ws & -> & Hws & Hc). exists (a :: ws). simpl.
    now rewrite E.
  - inversion H; subst. now exists [].
Qed.

Lemma alnum_not_space c : isalnum c = true -> isspace c = false.
Proof.
  unfold isalnum. intros H. apply orb_true_iff in H as [H|H].
  - now apply alpha_not_space.
  - now apply digit_not_space.
Qed.

(** What one call of the lexer takes from the stream: white space, then
    the characters of the token. *)
Lemma scan_consumes f :
  type (fst (scan f)) <> TOKEN_EOF ->
  untruncated (fst (scan f)) = true ->
  forallb (fun c => negb (Ascii.eqb c zero)) f = true ->
  exists ws cs,
    f = (ws ++ cs ++ snd (scan f))%list /\ forallb isspace ws = true /\
    filter visible cs = cs /\
    text (fst (scan f)) = string_of_list_ascii cs.
Proof.
  unfold scan, getNextToken. cbn [hasToken set_file initial file].
  destruct (skipSpace f) as [[c|] rest] eqn:Hs.
  2:{ intros H. now elim H. }
  apply skipSpace_spaces in Hs as (ws & -> & Hws & Hc).
  intros _ Hu Hz. rewrite forallb_app in Hz.
  apply andb_true_iff in Hz as [_ Hz]. simpl in Hz.
  apply andb_true_iff in Hz as [Hz _]. apply negb_true_iff in Hz.
  assert (One : filter visible [c] = [c])
    by (simpl; unfold visible; now rewrite Hc).
  destruct (isalpha c) eqn:Ha.
  { destruct (scanWhile isalnum (String c "") rest) as [txt r] eqn:Hw.
    cbn [fst snd text file set_file] in *.
    apply scanWhile_exact in Hw as (cs & -> & Hcs & ->);
      [|now apply Nat.ltb_lt].
    exists ws, (c :: cs). split; [reflexivity|]. split; [exact Hws|].
    split; [|reflexivity]. simpl. unfold visible at 1. rewrite Hc.
    simpl. f_equal. apply (filter_visible_all isalnum); trivial.
    exact alnum_not_space. }
  destruct (isdigit c) eqn:Hd.
  { destruct (scanWhile isdigit (String c "") rest) as [txt r] eqn:Hw.
    cbn [fst snd text file set_file] in *.
    apply scanWhile_exact in Hw as (cs & -> & Hcs & ->);
      [|now apply Nat.ltb_lt].
    exists ws, (c :: cs). split; [reflexivity|]. split; [exact Hws|].
    split; [|reflexivity]. simpl. unfold visible at 1. rewrite Hc.
    simpl. f_equal. apply (filter_visible_all isdigit); trivial.
    exact digit_not_space. }
  destruct (Ascii.eqb_spec c "=") as [->|Hne].
  { destruct rest as [|c' rest'].
    { exists ws, ["="%char]. cbn [fst snd text file set_file].
      repeat split; trivial. }
    destruct (Ascii.eqb_spec c' "=") as [->|Hne'];
      cbn [fst snd text file set_file].
    - exists ws, ["="%char; "="%char]. repeat split; trivial.
    - exists ws, ["="%char]. repeat split; trivial. }
  cbn [fst snd text file set_file]. exists ws, [c].
  split; [reflexivity|]. split; [exact Hws|]. split; [exact One|].
  unfold cstr1. now rewrite Hz.
Qed.

Lemma spell_tokenize fuel : forall f,
  (List.length f < fuel)%nat ->
  forallb untruncated (tokenize fuel f) = true ->
  forallb (fun c => negb (Ascii.eqb c zero)) f = true ->
  spell (tokenize fuel f) = string_of_list_ascii (filter visible f).
Proof.
  induction fuel as [|fuel IH]; intros f Hf Hu Hz; [lia|].
  cbn [tokenize] in *.
  pose proof (scan_shorter f) as L. pose proof (scan_end f) as N.
  pose proof (scan_consumes f) as C.
  destruct (scan f) as [t rest] eqn:E. cbn [fst snd] in *.
  destruct (is_EOF (type t)) eqn:Te.
  - destruct (N (is_EOF_true _ Te)) as [_ B]. cbn [spell].
    now rewrite filter_visible_spaces.
  - cbn [forallb] in Hu. apply andb_true_iff in Hu as [Hut Hu].
    specialize (L (is_EOF_false _ Te)).
    destruct (C (is_EOF_false _ Te) Hut Hz) as (ws & cs & Ef & Hws & Hcs & Ht).
    cbn [spell]. rewrite IH; trivial; [|lia|].
    + rewrite Ht, Ef, !filter_app, (filter_visible_spaces ws Hws), Hcs.
      simpl. clear. induction cs as [|c cs IHc]; simpl; [reflexivity|].
      now rewrite IHc.
    + rewrite Ef, !forallb_app in Hz.
      apply andb_true_iff in Hz as [_ Hz].
      now apply andb_true_iff in Hz as [_ Hz].
Qed.

(** X16. The tokens spell the input. When no token reaches the 99
    characters at which the lexer stops storing, and the source holds no
    character of code 0, the texts of its tokens, put end to end, are the
    source with its white space removed: apart from white space the lexer
    drops nothing, adds nothing and reorders nothing. *)
Theorem tokens_spell_input input :
  forallb untruncated (tokens input) = true ->
  forallb (fun c => negb (Ascii.eqb c zero)) (list_ascii_of_string input)
    = true ->
  spell (tokens input) =
  string_of_list_ascii (filter visible (list_ascii_of_string input)).
Proof.
  intros Hu Hz. unfold tokens in *. apply spell_tokenize; trivial.
  rewrite length_list_ascii_of_string. lia.
Qed.

Lemma tokens_spell_input_witness :
  forallb untruncated (tokens " if (x1 == 10) { y = x1 - 3; } ") = true /\
  forallb (fun c => negb (Ascii.eqb c zero))
    (list_ascii_of_string " if (x1 == 10) { y = x1 - 3; } ") = true /\
  spell (tokens " if (x1 == 10) { y = x1 - 3; } ") =
  string_of_list_ascii
    (filter visible (list_ascii_of_string " if (x1 == 10) { y = x1 - 3; } ")).
Proof.
  assert (Hu : forallb untruncated
                 (tokens " if (x1 == 10) { y = x1 - 3; } ") = true)
    by (vm_compute; reflexivity).
  assert (Hz : forallb (fun c => negb (Ascii.eqb c zero))
                 (list_ascii_of_string " if (x1 == 10) { y = x1 - 3; } ")
               = true) by (vm_compute; reflexivity).
  split; [exact Hu|]. split; [exact Hz|].
  exact (tokens_spell_input " if (x1 == 10) { y = x1 - 3; } " Hu Hz).
Defined.

(** ** No undefined behaviour on moderate inputs *)

Lemma nf_bind {A B} P Q R (m : M A) (k : A -> M B) :
  never_faults P m Q -> (forall a, never_faults (Q a) (k a) R) ->
  never_faults P (bind m k) R.
Proof.
  intros Hm Hk s Hs. specialize (Hm s Hs). unfold bind.
  destruct (m s) as [a s1| | |]; trivial. now apply Hk.
Qed.

Lemma nf_pure {A} (phi : Prop) P (m : M A) Q :
  (phi -> never_faults P m Q) -> never_faults (fun s => phi /\ P s) m Q.
Proof. intros H s [Hphi Hs]. now apply H. Qed.

Lemma nf_exit {A} P msg Q : never_faults P (@exit A msg) Q.
Proof. intros s _. exact I. Qed.

Lemma roomy_weaken c c' s : (c' <= c)%nat -> roomy c s -> roomy c' s.
Proof.
  intros Hle (H1 & H2 & H3 & H4 & H5).
  split; [exact H1|]. split; [exact H2|]. split; [exact H3|].
  split; [lia|exact H5].
Qed.

Lemma nf_ret {A} c c' (a : A) :
  (c' <= c)%nat -> never_faults (roomy c) (ret a) (fun _ => roomy c').
Proof. intros Hle s Hs. simpl. now apply (roomy_weaken c). Qed.

Lemma nf_done {A} P (a : A) : never_faults P (ret a) (fun _ _ => True).
Proof. intros s _. exact I. Qed.

(* -- the lexer -- *)

Lemma digit_runs_less limit f : forall run run',
  (run' <= run)%nat -> digit_runs limit run f = true ->
  digit_runs limit run' f = true.
Proof.
  induction f as [|c f IH]; intros run run' Hle H; simpl in *; trivial.
  destruct (isdigit c); trivial.
  apply andb_true_iff in H as [H1 H2]. apply Nat.ltb_lt in H1.
  apply andb_true_iff. split; [apply Nat.ltb_lt; lia|].
  apply (IH (S run)); [lia|exact H2].
Qed.

Lemma digit_runs_suffix limit pre : forall run f,
  digit_runs limit run (pre ++ f)%list = true -> digit_runs limit 0 f = true.
Proof.
  induction pre as [|c pre IH]; intros run f H; simpl in H.
  - apply (digit_runs_less _ _ run); [lia|exact H].
  - destruct (isdigit c); [|now apply IH in H].
    apply andb_true_iff in H as [_ H]. now apply IH in H.
Qed.

Lemma skipSpace_suffix f : forall c rest,
  skipSpace f = (Some c, rest) -> exists ws, f = (ws ++ c :: rest)%list.
Proof.
  induction f as [|a f IH]; intros c rest H; simpl in H; [discriminate|].
  destruct (isspace a).
  - apply IH in H as [ws ->]. now exists (a :: ws).
  - inversion H; subst. now exists [].
Qed.

Lemma scanWhile_suffix p f : forall txt txt' rest,
  scanWhile p txt f = (txt', rest) -> exists pre, f = (pre ++ rest)%list.
Proof.
  induction f as [|a f IH]; intros txt txt' rest H; simpl in H.
  - inversion H; subst. now exists [].
  - destruct (p a).
    + apply IH in H as [pre ->]. now exists (a :: pre).
    + inversion H; subst. now exists [].
Qed.

Lemma scanWhile_digits limit f : forall txt txt' rest run,
  scanWhile isdigit txt f = (txt', rest) ->
  (String.length txt <= run)%nat -> (run <= limit)%nat ->
  digit_runs limit run f = true ->
  (String.length txt' <= limit)%nat.
Proof.
  induction f as [|a f IH]; intros txt txt' rest run H Hl Hr Hd; simpl in H.
  - inversion H; subst. lia.
  - simpl in Hd. destruct (isdigit a).
    + apply andb_true_iff in Hd as [H1 H2]. apply Nat.ltb_lt in H1.
      apply (IH _ _ _ (S run)) in H; trivial.
      destruct (String.length txt <? 99)%nat; [|lia].
      rewrite string_length_app. simpl. lia.
    + inversion H; subst. lia.
Qed.

(** The stream after a token is a suffix of the stream before. *)
Lemma getNextToken_suffix s t s' :
  getNextToken s = Ok t s' -> exists pre, file s = (pre ++ file s')%list.
Proof.
  unfold getNextToken. destruct (hasToken s).
  { intros H; inversion H; subst. now exists []. }
  destruct (skipSpace (file s)) as [[c|] rest] eqn:Hs.
  2:{ intros H; inversion H; subst. apply skipSpace_None in Hs. subst rest.
      exists (file s). simpl. now rewrite app_nil_r. }
  apply skipSpace_suffix in Hs as [ws Hs]. rewrite Hs.
  assert (Hcut : forall pre r, rest = (pre ++ r)%list ->
            exists pre', (ws ++ c :: rest)%list = (pre' ++ r)%list).
  { intros pre r ->. exists (ws ++ c :: pre)%list.
    now rewrite <- app_assoc. }
  destruct (isalpha c).
  { destruct (scanWhile isalnum (String c "") rest) as [txt r] eqn:Hw.
    apply scanWhile_suffix in Hw as [pre Hw].
    intros H; inversion H; subst. simpl. now apply (Hcut pre). }
  destruct (isdigit c).
  { destruct (scanWhile isdigit (String c "") rest) as [txt r] eqn:Hw.
    apply scanWhile_suffix in Hw as [pre Hw].
    intros H; inversion H; subst. simpl. now apply (Hcut pre). }
  destruct (Ascii.eqb c "=").
  2:{ intros H; inversion H; subst. simpl. now apply (Hcut []). }
  destruct rest as [|c' rest'].
  { intros H; inversion H; subst. simpl. now apply (Hcut []). }
  destruct (Ascii.eqb c' "="); intros H; inversion H; subst; simpl.
  - now apply (Hcut [c']).
  - now apply (Hcut []).
Qed.

Lemma getNextToken_short s t s' :
  hasToken s = false -> digit_runs MAX_LITERAL 0 (file s) = true ->
  getNextToken s = Ok t s' -> short t.
Proof.
  intros Hh Hd. unfold getNextToken. rewrite Hh.
  destruct (skipSpace (file s)) as [[c|] rest] eqn:Hs.
  2:{ intros H; inversion H; subst. discriminate. }
  apply skipSpace_suffix in Hs as [ws Hs]. rewrite Hs in Hd.
  apply digit_runs_suffix in Hd.
  destruct (isalpha c) eqn:Ha.
  { destruct (scanWhile isalnum (String c "") rest) as [txt r].
    intros H; inversion H; subst. intros T. simpl in T. unfold keyword in T.
    destruct (String.eqb txt "int"); [discriminate|].
    destruct (String.eqb txt "if"); discriminate. }
  destruct (isdigit c) eqn:Hdg.
  { destruct (scanWhile isdigit (String c "") rest) as [txt r] eqn:Hw.
    intros H; inversion H; subst. intros _. simpl.
    cbn [digit_runs] in Hd. rewrite Hdg in Hd.
    apply andb_true_iff in Hd as [H0 Hd].
    apply (scanWhile_digits MAX_LITERAL _ _ _ _ 1 Hw); trivial.
    unfold MAX_LITERAL. lia. }
  destruct (Ascii.eqb c "=").
  { destruct rest as [|c' rest'].
    { intros H; inversion H; subst. discriminate. }
    destruct (Ascii.eqb c' "="); intros H; inversion H; subst; discriminate. }
  intros H; inversion H; subst. intros T. simpl in T. unfold punctuation in T.
  repeat match type of T with
         | (if ?b then _ else _) = _ => destruct b; try discriminate
         end.
Qed.

Lemma nf_read c :
  never_faults (roomy c) getNextToken
    (fun t s' => short t /\ roomy (earned (type t) c) s').
Proof.
  intros s (Hp & Hsym & Hlab & Hroom & Hd).
  destruct (getNextToken_total s) as (t & s' & E). rewrite E.
  pose proof (getNextToken_frame _ _ _ E) as (V & L & C & A).
  pose proof (getNextToken_pending _ _ _ E) as (Hh' & P & Q).
  pose proof (getNextToken_suffix _ _ _ E) as [pre Hpre].
  assert (Hshort : short t).
  { destruct (hasToken s) eqn:Hh.
    - unfold getNextToken in E. rewrite Hh in E. inversion E; subst.
      now apply Hp.
    - now apply (getNextToken_short s t s'). }
  split; [exact Hshort|]. split; [|split; [|split; [|split]]].
  - congruence.
  - unfold symtab_ok, varCount in *. now rewrite V, C.
  - congruence.
  - unfold asmLine in *. rewrite A, L. unfold earned.
    destruct (is_EOF (type t)) eqn:Te; [lia|].
    specialize (Q (is_EOF_false _ Te)). lia.
  - rewrite Hpre in Hd. now apply digit_runs_suffix in Hd.
Qed.

Lemma nf_expect c p msg :
  p TOKEN_EOF = false ->
  never_faults (roomy c) (expect p msg)
    (fun t s' => (p (type t) = true /\ short t) /\ roomy (S c) s').
Proof.
  intros Hp. unfold expect. eapply nf_bind; [apply nf_read|]. intros t.
  apply nf_pure. intros Ht. destruct (p (type t)) eqn:Pt; [|apply nf_exit].
  intros s Hs. simpl. split; [auto|]. unfold earned in Hs.
  destruct (is_EOF (type t)) eqn:Te; [|exact Hs].
  apply is_EOF_true in Te. congruence.
Qed.

Lemma nf_unget c t :
  short t -> never_faults (roomy (S c)) (ungetToken t) (fun _ => roomy c).
Proof.
  intros Ht s (Hp & Hsym & Hlab & Hroom & Hd). simpl.
  split; [intros _; exact Ht|]. split; [exact Hsym|]. split; [exact Hlab|].
  split; [|exact Hd].
  change (asmLine (set_pushback t true s)) with (asmLine s).
  unfold pending in *. cbn [file hasToken set_pushback labelCount].
  destruct (hasToken s); lia.
Qed.

Lemma nf_emit c line :
  (String.length line < ASM_LINE_LEN)%nat ->
  never_faults (roomy (S c)) (emit line) (fun _ => roomy c).
Proof.
  intros Hlen s (Hp & Hsym & Hlab & Hroom & Hd).
  rewrite emit_fits; [|unfold asmLine in *; lia|exact Hlen].
  split; [exact Hp|]. split; [exact Hsym|]. split; [exact Hlab|].
  split; [|exact Hd].
  unfold pending, asmLine in *.
  cbn [file hasToken set_assembly labelCount assembly].
  rewrite length_app. cbn [List.length]. lia.
Qed.

Lemma nf_getVarAddress c n :
  never_faults (roomy c) (getVarAddress n)
    (fun a s' => (0 <= a <= 999)%Z /\ roomy c s').
Proof.
  intros s (Hp & Hsym & Hlab & Hroom & Hd).
  destruct (getVarAddress n s) as [a s'|e s'|f|] eqn:E; trivial.
  - apply getVarAddress_Ok in E as [[Hf ->]|(Hf & Hc & -> & ->)].
    + destruct (symtab_ok_range _ _ _ Hsym Hf).
      split; [lia|]. unfold roomy. auto.
    + split.
      * destruct Hsym as (_ & _ & Hcur & _). rewrite Hcur.
        unfold nth_address, MAX_VARS in *. lia.
      * split; [exact Hp|]. split; [now apply symtab_ok_allocated|].
        split; [exact Hlab|]. split; [exact Hroom|exact Hd].
  - unfold getVarAddress in E. destruct (findVar n (vars s)); [discriminate|].
    destruct (MAX_VARS <=? varCount s)%nat; discriminate.
Qed.

Lemma nf_nextLabel c :
  never_faults (roomy (S c)) nextLabel
    (fun n s' => (0 <= n <= 999)%Z /\ roomy c s').
Proof.
  intros s (Hp & Hsym & Hlab & Hroom & Hd). simpl.
  unfold MAX_CODE_LINES in *. split; [lia|].
  split; [exact Hp|]. split; [exact Hsym|].
  unfold pending, asmLine, MAX_CODE_LINES in *.
  cbn [file hasToken set_labelCount labelCount assembly].
  split; [lia|]. split; [destruct (hasToken s); lia|exact Hd].
Qed.

Lemma dec_short z : (0 <= z <= 999)%Z -> (String.length (dec z) <= 3)%nat.
Proof.
  intros Hz.
  assert (Hall : forallb (fun n => (String.length (dec (Z.of_nat n)) <=? 3)%nat)
                         (seq 0 1000) = true) by (vm_compute; reflexivity).
  rewrite forallb_forall in Hall.
  specialize (Hall (Z.to_nat z)). rewrite Z2Nat.id in Hall by lia.
  apply Nat.leb_le, Hall, in_seq. lia.
Qed.

Ltac line_fits :=
  unfold ASM_LINE_LEN, label; cbn [String.length append mnemonic];
  repeat rewrite string_length_app; cbn [String.length];
  repeat match goal with
         | H : (0 <= ?z <= 999)%Z |- _ =>
             pose proof (dec_short z H); clear H
         | H : short ?t, T : type ?t = TOKEN_NUMBER |- _ =>
             specialize (H T); unfold MAX_LITERAL in H
         end;
  try match goal with
      | |- context [mnemonic ?t] => destruct t; cbn [mnemonic String.length]
      end;
  lia.

Lemma nf_weaken {A} c c' (m : M A) Q :
  (c' <= c)%nat -> never_faults (roomy c') m Q -> never_faults (roomy c) m Q.
Proof. intros Hle H s Hs. apply H. now apply (roomy_weaken c). Qed.

(** One step of a proof of [never_faults]: a primitive is met with its
    rule, spare credit being dropped where the rule asks for less. *)
Ltac nf_rule tac :=
  lazymatch goal with
  | |- never_faults _ _ ?Q =>
      tryif is_evar Q then tac
      else (eapply nf_weaken; cycle 1; [tac|lia])
  end.

Ltac nf_step :=
  match goal with
  | |- _ => progress cbv beta
  | |- never_faults (fun s => _ /\ _) _ _ => apply nf_pure; intros ?
  | |- never_faults _ (bind (if _ then _ else _) _) _ => fail 1
  | |- never_faults _ (bind (match _ with _ => _ end) _) _ => fail 1
  | |- never_faults _ (bind _ _) _ => eapply nf_bind; [|intros ?]
  | |- never_faults _ (let x := _ in _) _ => cbv zeta
  | |- never_faults _ getNextToken _ => apply nf_read
  | |- never_faults _ (expect _ _) _ => apply nf_expect; reflexivity
  | |- never_faults _ (getVarAddress _) _ => apply nf_getVarAddress
  | |- never_faults _ nextLabel _ => apply nf_nextLabel
  | |- never_faults _ (exit _) _ => apply nf_exit
  | |- never_faults _ (ret _) _ => apply nf_ret; lia
  | |- never_faults _ (ungetToken _) _ =>
      nf_rule ltac:(apply nf_unget; assumption)
  | |- never_faults _ (emit _) _ => nf_rule ltac:(apply nf_emit; line_fits)
  end.

Lemma nf_compileOperand c op :
  never_faults (roomy c) (compileOperand op) (fun _ => roomy c).
Proof.
  unfold compileOperand. repeat nf_step.
  destruct (type a) eqn:Ta; cbn [earned is_EOF]; repeat nf_step.
Qed.

Lemma nf_compileExpression c T :
  never_faults (roomy (S (S c))) (compileExpression T) (fun _ => roomy c).
Proof.
  unfold compileExpression. repeat nf_step.
  destruct (type a) eqn:Ta; cbn [earned is_EOF]; repeat nf_step.
  - (* identifier *)
    destruct (type a0) eqn:Top; cbn [earned is_EOF isPlusMinus];
      repeat first [nf_rule ltac:(apply nf_compileOperand) | nf_step].
  - (* number *)
    apply (nf_bind _ (fun _ => roomy (S c))); [|intros ?; repeat nf_step].
    destruct (type a1) eqn:Top; cbn [earned is_EOF isPlusMinus];
      repeat first [nf_rule ltac:(apply nf_compileOperand) | nf_step].
Qed.

Lemma nf_compileBlock stmt :
  (forall c, never_faults (roomy c) stmt (fun _ => roomy c)) ->
  forall fuel c,
    never_faults (roomy c) (compileBlock stmt fuel) (fun _ => roomy (S c)).
Proof.
  intros Hstmt. induction fuel as [|fuel IH]; intros c; cbn [compileBlock].
  - intros s _. exact I.
  - repeat nf_step.
    destruct (type a) eqn:Ta; cbn [earned is_EOF is_RBRACE];
      repeat first [apply Hstmt | apply IH | nf_step].
Qed.

Lemma nf_compileIf stmt fuel c :
  (forall c, never_faults (roomy c) stmt (fun _ => roomy c)) ->
  never_faults (roomy (S c)) (compileIf stmt fuel) (fun _ => roomy c).
Proof.
  intros Hstmt. unfold compileIf. repeat nf_step.
  apply (nf_bind _ (fun _ => roomy (S (S (S c))))).
  { match goal with
    | H : is_operand (type ?t) = true /\ short ?t |- _ => destruct H as [_ ?]
    end.
    destruct (type a2) eqn:Ta; repeat nf_step. }
  intros _. repeat nf_step.
  - apply nf_compileBlock. exact Hstmt.
  - repeat nf_step.
Qed.

Lemma nf_compileStatement fuel : forall c,
  never_faults (roomy c) (compileStatement fuel) (fun _ => roomy c).
Proof.
  induction fuel as [|fuel IH]; intros c; cbn [compileStatement].
  - intros s _. exact I.
  - repeat nf_step.
    destruct (type a) eqn:Ta; cbn [earned is_EOF];
      repeat first [nf_rule ltac:(apply nf_compileExpression)
                   |nf_rule ltac:(apply nf_compileIf; exact IH)
                   |nf_step].
Qed.

Lemma nf_compile fuel : forall c,
  never_faults (roomy c) (compile fuel) (fun _ _ => True).
Proof.
  induction fuel as [|fuel IH]; intros c; cbn [compile].
  - intros s _. exact I.
  - repeat nf_step.
    destruct (type a) eqn:Ta; cbn [earned is_EOF];
      repeat first [apply nf_done | apply nf_compileStatement | apply IH
                   |nf_step].
Qed.

Lemma roomy_initial input :
  (String.length input <= MAX_CODE_LINES)%nat ->
  digit_runs MAX_LITERAL 0 (list_ascii_of_string input) = true ->
  roomy 0 (initial input).
Proof.
  intros Hlen Hd. split; [discriminate|]. split; [apply symtab_ok_initial|].
  split; [simpl; lia|]. split; [|exact Hd].
  unfold asmLine, pending. cbn [initial assembly labelCount file hasToken].
  rewrite length_list_ascii_of_string. simpl List.length. lia.
Qed.

(** X17. No undefined behaviour on moderate inputs. For a source of at
    most 1000 characters in which no run of digits is longer than 94, the
    compiler never stores past the last row of [assembly] nor past the
    end of a row, whatever the source says: the run ends normally or with
    a message on [stderr], or it has no end (a stray brace), and the same
    holds of [main]. *)
Theorem defined_behaviour input fuel can_create :
  (String.length input <= MAX_CODE_LINES)%nat ->
  digit_runs MAX_LITERAL 0 (list_ascii_of_string input) = true ->
  (forall f, compile fuel (initial input) <> Undefined f) /\
  (forall f, main fuel (Some input) can_create <> Crashed f).
Proof.
  intros Hlen Hd.
  pose proof (nf_compile fuel 0 _ (roomy_initial input Hlen Hd)) as H.
  split; intros f E.
  - now rewrite E in H.
  - unfold main in E. destruct (compile fuel (initial input)); try discriminate.
    + destruct can_create; discriminate.
    + exact H.
Qed.

Lemma defined_behaviour_witness :
  (String.length "x = 1; if (x == 1) { y = x + 2; }" <= MAX_CODE_LINES)%nat /\
  digit_runs MAX_LITERAL 0
    (list_ascii_of_string "x = 1; if (x == 1) { y = x + 2; }") = true /\
  (forall f, compile 8 (initial "x = 1; if (x == 1) { y = x + 2; }")
             <> Undefined f) /\
  (forall f, main 8 (Some "x = 1; if (x == 1) { y = x + 2; }") true
             <> Crashed f).
Proof.
  assert (Hl : (String.length "x = 1; if (x == 1) { y = x + 2; }"
                <= MAX_CODE_LINES)%nat) by (vm_compute; lia).
  assert (Hd : digit_runs MAX_LITERAL 0
             (list_ascii_of_string "x = 1; if (x == 1) { y = x + 2; }")
             = true) by (vm_compute; reflexivity).
  split; [exact Hl|]. split; [exact Hd|].
  exact (defined_behaviour "x = 1; if (x == 1) { y = x + 2; }" 8 true Hl Hd).
Defined.

(** ** Entry point *)

Lemma all_chars_weaken (p q : ascii -> bool) txt :
  (forall c, p c = true -> q c = true) ->
  all_chars p txt = true -> all_chars q txt = true.
Proof.
  intros Hpq. unfold all_chars. rewrite !forallb_forall. auto.
Qed.

Lemma digit_not_newline c :
  isdigit c || Ascii.eqb c "-" = true ->
  negb (Ascii.eqb c (ascii_of_nat 10)) = true.
Proof.
  destruct c as [[] [] [] [] [] [] [] []]; vm_compute; congruence.
Qed.

Lemma uint_chars d : all_chars isdigit (NilEmpty.string_of_uint d) = true.
Proof. induction d; simpl; trivial. Qed.

Lemma dec_chars z :
  all_chars (fun c => isdigit c || Ascii.eqb c "-") (dec z) = true.
Proof.
  assert (U : forall d, all_chars (fun c => isdigit c || Ascii.eqb c "-")
                          (NilZero.string_of_uint d) = true).
  { intros d. apply (all_chars_weaken isdigit).
    - intros c ->. reflexivity.
    - unfold NilZero.string_of_uint. destruct d; try apply uint_chars.
      reflexivity. }
  unfold dec. destruct (Z.to_int z) as [d|d]; simpl.
  - apply U.
  - unfold all_chars in *. simpl. apply U.
Qed.

Lemma dec_no_newline z : no_newline (dec z) = true.
Proof.
  apply (all_chars_weaken _ _ _ digit_not_newline), dec_chars.
Qed.

Lemma number_no_newline n : is_number n = true -> no_newline n = true.
Proof.
  unfold is_number, no_newline, all_chars.
  destruct (list_ascii_of_string n) as [|c cs]; [discriminate|].
  rewrite !forallb_forall. intros H c' Hc. apply digit_not_newline.
  rewrite (H c' Hc). reflexivity.
Qed.

Lemma render_no_newline vs L i :
  instr_ok vs L i = true -> no_newline (render i) = true.
Proof.
  pose proof dec_no_newline as D. unfold no_newline in *.
  destruct i; cbn [render instr_ok]; intros H; unfold label;
    rewrite ?all_chars_app, ?D;
    try (apply number_no_newline in H; unfold no_newline in H; rewrite H);
    reflexivity.
Qed.

Lemma readLines_line line : forall cur rest,
  no_newline line = true ->
  readLines_from cur (line ++ nl ++ rest) =
  (cur ++ line) :: readLines_from "" rest.
Proof.
  unfold no_newline, all_chars.
  induction line as [|c line IH]; intros cur rest H; simpl in *.
  - now rewrite string_app_nil.
  - apply andb_true_iff in H as [Hc H]. apply negb_true_iff in Hc.
    rewrite Hc, IH by exact H. now rewrite string_app_assoc.
Qed.

Lemma readLines_writeLines lines :
  Forall (fun l => no_newline l = true) lines ->
  readLines (writeLines lines) = lines.
Proof.
  unfold readLines.
  induction 1 as [|l lines Hl _ IH]; cbn [writeLines]; [reflexivity|].
  now rewrite readLines_line, IH.
Qed.

(** A source of white space only compiles to nothing. *)
Lemma blank_program input fuel :
  forallb isspace (list_ascii_of_string input) = true ->
  compile (S fuel) (initial input) = Ok tt (set_file [] (initial input)) /\
  assembly (set_file [] (initial input)) = [] /\
  vars (set_file [] (initial input)) = [].
Proof.
  intros Hb. split; [|split; reflexivity].
  apply skipSpace_blank in Hb. cbn [compile]. unfold bind, getNextToken.
  cbn [hasToken initial file]. rewrite Hb. reflexivity.
Qed.

(** X18. Trivial inputs. A source of white space only (the empty file
    included) compiles to an empty [output.asm] with status 0. Whatever
    the source, if it compiles but [output.asm] cannot be created, [main]
    returns 1 and writes no output; and no run in which [output.asm]
    cannot be created returns another status or writes a file. If
    [input.sl] cannot be opened, [main] returns 1 and writes no output. *)
Theorem trivial_inputs :
  (forall fuel input,
     forallb isspace (list_ascii_of_string input) = true ->
     main (S fuel) (Some input) true = Returned 0 (Some "")) /\
  (forall fuel input s,
     compile fuel (initial input) = Ok tt s ->
     main fuel (Some input) false = Returned 1 None) /\
  (forall fuel input status out,
     main fuel (Some input) false = Returned status out ->
     status = 1%Z /\ out = None) /\
  (forall fuel can_create, main fuel None can_create = Returned 1 None).
Proof.
  split; [|split; [|split]].
  - intros fuel input Hb. destruct (blank_program input fuel Hb) as (E & _).
    unfold main. now rewrite E.
  - intros fuel input s E. unfold main. now rewrite E.
  - intros fuel input status out. unfold main.
    destruct (compile fuel (initial input)); try discriminate.
    intros H. injection H as <- <-. split; reflexivity.
  - reflexivity.
Qed.

Lemma trivial_inputs_witness :
  main 1 (Some "  ") true = Returned 0 (Some "") /\
  compile 8 (initial if_demo) = Ok tt (set_file [] after_if) /\
  main 8 (Some if_demo) false = Returned 1 None /\
  main 1 None true = Returned 1 None.
Proof.
  assert (E : compile 8 (initial if_demo) = Ok tt (set_file [] after_if))
    by (vm_compute; reflexivity).
  destruct trivial_inputs as (Blank & Created & _ & Opened).
  split; [apply (Blank 0%nat "  "); vm_compute; reflexivity|].
  split; [exact E|].
  split; [exact (Created 8%nat if_demo _ E)|].
  exact (Opened 1%nat true).
Defined.

(** X19. The output file holds the instructions, one per line. When [main]
    returns 0, [output.asm] is the emitted lines, each followed by a line
    feed, and no emitted line contains a line feed: splitting the file at
    line feeds gives back exactly the lines of [assembly]. *)
Theorem output_file_round_trip fuel input out :
  main fuel (Some input) true = Returned 0 (Some out) ->
  exists s,
    compile fuel (initial input) = Ok tt s /\
    out = writeLines (assembly s) /\
    readLines out = assembly s.
Proof.
  unfold main. destruct (compile fuel (initial input)) as [[] s| | |] eqn:E;
    try discriminate.
  intros H. injection H as <-. exists s. split; [reflexivity|].
  split; [reflexivity|]. apply readLines_writeLines.
  destruct (emits_compile _ _ _ E) as (prog & A & O & _);
    [discriminate|simpl; lia|].
  simpl in A. rewrite A. apply Forall_forall. intros l Hl.
  apply in_map_iff in Hl as (i & <- & Hi).
  rewrite forallb_forall in O. now apply (render_no_newline _ _ _ (O i Hi)).
Qed.

Lemma output_file_round_trip_witness :
  main 8 (Some if_demo) true = Returned 0 (Some (writeLines (assembly after_if)))
  /\
  exists s,
    compile 8 (initial if_demo) = Ok tt s /\
    writeLines (assembly after_if) = writeLines (assembly s) /\
    readLines (writeLines (assembly after_if)) = assembly s.
Proof.
  assert (H : main 8 (Some if_demo) true =
              Returned 0 (Some (writeLines (assembly after_if))))
    by (vm_compute; reflexivity).
  split; [exact H|].
  exact (output_file_round_trip 8 if_demo _ H).
Defined.

(** ** Token trace *)

(** X20. The token trace stays inside [typeNames]. The table has one name
    for each of the fifteen token types, the type codes are 0 to 14, so
    [printToken] always finds a name, and distinct types print distinct
    names. *)
Theorem printToken_in_bounds :
  List.length typeNames = 15%nat /\
  (forall t, (0 <= TokenType_code t < 15)%Z) /\
  (forall token, exists name,
     nth_error typeNames (Z.to_nat (TokenType_code (type token))) = Some name /\
     printToken token =
       Some ("Token: " ++ name ++ " ('" ++ text token ++ "')" ++ nl)) /\
  (forall t t',
     nth_error typeNames (Z.to_nat (TokenType_code t)) =
     nth_error typeNames (Z.to_nat (TokenType_code t')) -> t = t').
Proof.
  split; [reflexivity|]. split; [intros []; simpl; lia|]. split.
  - intros [ty txt]. unfold printToken. cbn [type text].
    destruct ty; eexists; split; reflexivity.
  - intros [] []; simpl; intros H; try reflexivity; discriminate.
Qed.

(** * Number literals in the output *)

(** ** Operands of the output and number tokens of the input *)

Lemma immediates_app l1 l2 :
  immediates (l1 ++ l2) = (immediates l1 ++ immediates l2)%list.
Proof. unfold immediates. apply flat_map_app. Qed.

Lemma literals_app l1 l2 :
  literals (l1 ++ l2) = (literals l1 ++ literals l2)%list.
Proof. unfold literals. now rewrite filter_app, map_app. Qed.

Lemma literals_cons t ts :
  literals (t :: ts) = (literals [t] ++ literals ts)%list.
Proof. exact (literals_app [t] ts). Qed.

Lemma literals_number t :
  type t = TOKEN_NUMBER -> literals [t] = [text t].
Proof. unfold literals. simpl. now intros ->. Qed.

Lemma literals_other t :
  type t <> TOKEN_NUMBER -> literals [t] = [].
Proof.
  unfold literals. simpl. intros H.
  destruct (type t); try reflexivity. now elim H.
Qed.

Lemma prefix_empty n : prefix "" n = true.
Proof. destruct n; reflexivity. Qed.

Lemma immediate_LDI n : immediate ("LDI " ++ n) = Some n.
Proof.
  unfold immediate. simpl. rewrite prefix_empty, Nat.sub_0_r.
  now rewrite substring_all.
Qed.

Lemma immediate_ADDI n : immediate ("ADDI " ++ n) = Some n.
Proof.
  unfold immediate. simpl. rewrite prefix_empty, Nat.sub_0_r.
  now rewrite substring_all.
Qed.

Lemma immediate_SUBI n : immediate ("SUBI " ++ n) = Some n.
Proof.
  unfold immediate. simpl. rewrite prefix_empty, Nat.sub_0_r.
  now rewrite substring_all.
Qed.

Lemma immediate_label n : immediate (label n ++ ":") = None.
Proof.
  unfold label. destruct (dec_head n) as (c & rest & E & D). rewrite E.
  unfold immediate. simpl.
  destruct D as [D| ->]; [|reflexivity].
  destruct c as [[] [] [] [] [] [] [] []]; try discriminate D; reflexivity.
Qed.

Lemma immediates_load t vs first :
  spec_load_line t vs = Some first -> immediates [first] = literals [t].
Proof.
  unfold spec_load_line. destruct (type t) eqn:T; try discriminate.
  - destruct (findVar (text t) vs); [|discriminate].
    intros H; injection H as <-.
    rewrite literals_other by congruence. reflexivity.
  - intros H; injection H as <-. rewrite (literals_number _ T).
    unfold immediates. cbn [flat_map].
    pose proof (immediate_LDI (text t)) as I. cbn [append] in I.
    now rewrite I.
Qed.

Lemma immediates_arith op rhs vs second :
  spec_arith_line op rhs vs = Some second ->
  immediates [second] = literals [rhs].
Proof.
  unfold spec_arith_line.
  destruct (type op); try discriminate;
    (destruct (type rhs) eqn:T; try discriminate;
     [ destruct (findVar (text rhs) vs); [|discriminate];
       intros H; injection H as <-;
       rewrite literals_other by congruence; reflexivity
     | intros H; injection H as <-; rewrite (literals_number _ T);
       unfold immediates; cbn [flat_map mnemonic] ]).
  - pose proof (immediate_ADDI (text rhs)) as I. cbn [append] in I.
    now rewrite I.
  - pose proof (immediate_SUBI (text rhs)) as I. cbn [append] in I.
    now rewrite I.
Qed.

Lemma immediates_compare rhs vs cmp :
  spec_compare_line rhs vs = Some cmp -> immediates [cmp] = literals [rhs].
Proof.
  unfold spec_compare_line. destruct (type rhs) eqn:T; try discriminate.
  - destruct (findVar (text rhs) vs); [|discriminate].
    intros H; injection H as <-.
    rewrite literals_other by congruence. reflexivity.
  - intros H; injection H as <-. rewrite (literals_number _ T).
    unfold immediates. cbn [flat_map].
    pose proof (immediate_SUBI (text rhs)) as I. cbn [append] in I.
    now rewrite I.
Qed.

Lemma immediates_prologue a cmp n :
  immediates (if_prologue a cmp n) = immediates [cmp].
Proof.
  unfold if_prologue, immediates. cbn [flat_map].
  rewrite immediate_label.
  change (immediate ("LDA " ++ dec a)) with (@None string).
  change (immediate ("JZ " ++ label n)) with (@None string).
  change (immediate ("JMP " ++ label (n + 1))) with (@None string).
  reflexivity.
Qed.

(** What a call of the lexer takes from the tokens to come. *)
Lemma literals_read s t s' :
  getNextToken s = Ok t s' ->
  literals (ahead s) = (literals [t] ++ literals (ahead s'))%list /\
  hasToken s' = false.
Proof.
  intros H. pose proof (getNextToken_pending _ _ _ H) as (Hh' & _).
  split; [|exact Hh'].
  destruct (hasToken s) eqn:Hh.
  - unfold getNextToken in H. rewrite Hh in H. inversion H; subst.
    unfold ahead. cbn [set_hasToken set_pushback hasToken file currentToken].
    rewrite Hh. cbn [app]. apply literals_cons.
  - rewrite (getNextToken_scan s Hh) in H. inversion H; subst. clear H.
    unfold ahead. cbn [set_file hasToken file]. rewrite Hh. cbn [app].
    cbn [tokenize].
    pose proof (scan_shorter (file s)) as L.
    pose proof (scan_end (file s)) as N.
    destruct (scan (file s)) as [t rest]. cbn [fst snd] in *.
    destruct (is_EOF (type t)) eqn:Te.
    + destruct (N (is_EOF_true _ Te)) as [N' _]. inversion N'; subst.
      reflexivity.
    + specialize (L (is_EOF_false _ Te)).
      rewrite (tokenize_fuel (List.length (file s)) (S (List.length rest)))
        by lia.
      apply literals_cons.
Qed.

Lemma ahead_unget t s :
  hasToken s = false -> ahead (set_pushback t true s) = t :: ahead s.
Proof.
  intros Hh. unfold ahead. cbn [set_pushback hasToken file currentToken].
  now rewrite Hh.
Qed.

Lemma ahead_lex_eq s1 s2 : lex_eq s1 s2 -> ahead s1 = ahead s2.
Proof. intros (F & H & C). unfold ahead. now rewrite F, H, C. Qed.

Lemma literals_nextTokens n : forall s ts s',
  nextTokens n s = (ts, s') ->
  literals (ahead s) = (literals ts ++ literals (ahead s'))%list.
Proof.
  induction n as [|n IH]; intros s ts s' H; cbn [nextTokens] in H.
  - now inversion H.
  - destruct (getNextToken s) as [t s1| | |] eqn:E; try (now inversion H).
    destruct (nextTokens n s1) as [ts1 s2] eqn:E1. inversion H; subst.
    apply literals_read in E as [E _]. rewrite E, (IH _ _ _ E1).
    now rewrite (literals_cons t ts1), app_assoc.
Qed.

Lemma immediates_cons line lines :
  immediates (line :: lines) = (immediates [line] ++ immediates lines)%list.
Proof. exact (immediates_app [line] lines). Qed.

(** Reading a token that is not a number leaves the literals of the run
    as they are. *)
Lemma numbers_read s t s' :
  getNextToken s = Ok t s' -> type t <> TOKEN_NUMBER ->
  numbers s' = numbers s /\ hasToken s' = false.
Proof.
  intros E T. pose proof (getNextToken_frame _ _ _ E) as (_ & _ & _ & A).
  apply literals_read in E as [R Hh]. split; [|exact Hh].
  unfold numbers. now rewrite A, R, (literals_other _ T).
Qed.

(** So does reading a token and pushing it back. *)
Lemma literals_peek s t s1 :
  getNextToken s = Ok t s1 ->
  literals (ahead (set_pushback t true s1)) = literals (ahead s).
Proof.
  intros E. apply literals_read in E as [R Hh].
  now rewrite (ahead_unget _ _ Hh), literals_cons, R.
Qed.

Lemma numbers_peek s t s1 :
  getNextToken s = Ok t s1 -> numbers (set_pushback t true s1) = numbers s.
Proof.
  intros E. pose proof (getNextToken_frame _ _ _ E) as (_ & _ & _ & A).
  unfold numbers. rewrite (literals_peek _ _ _ E).
  cbn [set_pushback assembly]. now rewrite A.
Qed.

Lemma numbers_lex s s' :
  assembly s' = assembly s -> lex_eq s' s -> numbers s' = numbers s.
Proof. intros A X. unfold numbers. now rewrite A, (ahead_lex_eq _ _ X). Qed.

Lemma expected_not_number (p : TokenType -> bool) t :
  p (type t) = true -> p TOKEN_NUMBER = false -> type t <> TOKEN_NUMBER.
Proof. intros P N T. rewrite T in P. congruence. Qed.

Lemma numbers_expect p msg s t s' :
  expect p msg s = Ok t s' -> p TOKEN_NUMBER = false ->
  numbers s' = numbers s /\ hasToken s' = false.
Proof.
  intros E N. apply expect_Ok in E as [E P].
  apply (numbers_read _ _ _ E). now apply (expected_not_number p).
Qed.

(** An expression moves its number tokens into the output. *)
Lemma numbers_compileExpression T s s' :
  compileExpression T s = Ok tt s' -> numbers s' = numbers s.
Proof.
  intros H. apply compileExpression_Ok in H
    as (t1 & s1 & op & s2 & first & aT & E1 & E2 & Hfirst & HfT & H).
  pose proof (literals_read _ _ _ E1) as [R1 _].
  apply immediates_load in Hfirst.
  assert (Sta : immediates [("STA " ++ dec aT)%string] = []) by reflexivity.
  unfold numbers. rewrite R1.
  destruct (isPlusMinus (type op)) eqn:Op.
  - destruct H as (rhs & s3 & second & E3 & Hsecond & Ha & X).
    pose proof (literals_read _ _ _ E2) as [R2 _].
    pose proof (literals_read _ _ _ E3) as [R3 _].
    apply immediates_arith in Hsecond.
    rewrite (literals_other op) in R2
      by (intros T'; rewrite T' in Op; discriminate).
    rewrite Ha, (ahead_lex_eq _ _ X), R2, R3, immediates_app.
    rewrite (immediates_cons first), (immediates_cons second).
    rewrite Hfirst, Hsecond, Sta. cbn [app].
    now rewrite app_nil_r, <- !app_assoc.
  - destruct H as (Ha & X).
    rewrite Ha, (ahead_lex_eq _ _ X), (literals_peek _ _ _ E2).
    rewrite immediates_app, (immediates_cons first), Hfirst, Sta.
    now rewrite app_nil_r, <- !app_assoc.
Qed.

Lemma numbers_compileBlock stmt :
  (forall s s', stmt s = Ok tt s' -> numbers s' = numbers s) ->
  forall fuel s s',
    compileBlock stmt fuel s = Ok tt s' -> numbers s' = numbers s.
Proof.
  intros Hstmt. induction fuel as [|fuel IH]; intros s s' H;
    cbn [compileBlock] in H; [discriminate|].
  inv_bind H as t s1 E.
  destruct (is_RBRACE (type t)) eqn:Tb.
  - apply ret_Ok in H as [_ <-]. apply (numbers_read _ _ _ E).
    intros T. now rewrite T in Tb.
  - destruct (is_EOF (type t)); [now apply exit_Ok in H|].
    inv_bind H as u s2 E2. apply ungetToken_Ok in E2. subst s2.
    inv_bind H as u' s3 E3. destruct u'.
    now rewrite (IH _ _ H), (Hstmt _ _ E3), (numbers_peek _ _ _ E).
Qed.

Lemma numbers_compileIf stmt fuel s s' :
  (forall s s', stmt s = Ok tt s' -> numbers s' = numbers s) ->
  compileIf stmt fuel s = Ok tt s' -> numbers s' = numbers s.
Proof.
  intros Hstmt H. apply compileIf_Ok in H
    as (lp & lhs & eqt & rhs & rp & lb & s6 & a & cmp & sb & se &
        Hts & Hty & _ & _ & Hcmp & Hasm & _ & _ & Hx & Hblock & ->).
  apply literals_nextTokens in Hts. apply immediates_compare in Hcmp.
  injection Hty as T1 T2 T3 T5 T6.
  assert (L : literals [lp; lhs; eqt; rhs; rp; lb] = literals [rhs]).
  { unfold literals. cbn [filter]. now rewrite T1, T2, T3, T5, T6. }
  pose proof (numbers_compileBlock stmt Hstmt _ _ _ Hblock) as B.
  unfold numbers in *. cbn [set_assembly assembly].
  change (ahead (set_assembly (assembly se ++ [label (labelCount s + 1) ++ ":"])
                   se)) with (ahead se).
  rewrite immediates_app. unfold immediates at 2. cbn [flat_map].
  rewrite immediate_label. cbn [app]. rewrite app_nil_r, B.
  rewrite Hasm, immediates_app, immediates_prologue, Hcmp.
  now rewrite (ahead_lex_eq _ _ Hx), Hts, L, <- app_assoc.
Qed.

Lemma numbers_compileStatement fuel : forall s s',
  compileStatement fuel s = Ok tt s' -> numbers s' = numbers s.
Proof.
  induction fuel as [|fuel IH]; intros s s' H; [discriminate|].
  cbn [compileStatement] in H. inv_bind H as t s1 E1.
  destruct (type t) eqn:Tt; try (now apply exit_Ok in H).
  - (* int v; *)
    destruct (numbers_read _ _ _ E1) as [N1 _]; [congruence|].
    inv_bind H as id s2 E2. inv_bind H as a s3 E3.
    inv_bind H as t4 s4 E4. apply ret_Ok in H as [_ <-].
    apply numbers_expect in E2 as [N2 _]; [|reflexivity].
    apply getVarAddress_effect in E3 as (_ & _ & A3 & _ & X3).
    apply numbers_expect in E4 as [N4 _]; [|reflexivity].
    now rewrite N4, (numbers_lex _ _ A3 X3), N2.
  - (* v = e; *)
    destruct (numbers_read _ _ _ E1) as [N1 _]; [congruence|].
    cbv zeta in H. inv_bind H as t2 s2 E2. inv_bind H as u s3 E3.
    inv_bind H as t4 s4 E4. apply ret_Ok in H as [_ <-]. destruct u.
    apply numbers_expect in E2 as [N2 _]; [|reflexivity].
    apply numbers_compileExpression in E3.
    apply numbers_expect in E4 as [N4 _]; [|reflexivity].
    congruence.
  - (* if *)
    destruct (numbers_read _ _ _ E1) as [N1 _]; [congruence|].
    apply (numbers_compileIf _ _ _ _ IH) in H. congruence.
  - (* } *)
    apply ungetToken_Ok in H. subst s'. now apply numbers_peek.
  - (* ; *)
    apply ret_Ok in H as [_ <-].
    apply (numbers_read _ _ _ E1). congruence.
  - (* end of input *)
    apply ret_Ok in H as [_ <-].
    apply (numbers_read _ _ _ E1). congruence.
Qed.

Lemma numbers_compile fuel : forall s s',
  compile fuel s = Ok tt s' -> numbers s' = numbers s.
Proof.
  induction fuel as [|fuel IH]; intros s s' H; [discriminate|].
  cbn [compile] in H. inv_bind H as t s1 E.
  destruct (is_EOF (type t)) eqn:Te.
  - apply ret_Ok in H as [_ <-]. apply (numbers_read _ _ _ E).
    intros T. now rewrite T in Te.
  - inv_bind H as u s2 E2. apply ungetToken_Ok in E2. subst s2.
    inv_bind H as u' s3 E3. destruct u'.
    now rewrite (IH _ _ H), (numbers_compileStatement _ _ _ E3),
      (numbers_peek _ _ _ E).
Qed.

(** A compilation that returns leaves no token to come. *)
Lemma ahead_nothing fuel : forall s s',
  compile fuel s = Ok tt s' ->
  (hasToken s = true -> type (currentToken s) <> TOKEN_EOF) ->
  ahead s' = [].
Proof.
  induction fuel as [|fuel IH]; intros s s' H Hs; [discriminate|].
  cbn [compile] in H. inv_bind H as t s1 E.
  destruct (is_EOF (type t)) eqn:Te.
  - apply ret_Ok in H as [_ <-]. apply is_EOF_true in Te.
    destruct (hasToken s) eqn:Hh.
    + exfalso. apply Hs; [reflexivity|].
      unfold getNextToken in E. rewrite Hh in E. inversion E; subst.
      exact Te.
    + destruct (read_EOF _ _ _ Hh E Te) as (_ & _ & ->).
      unfold ahead. cbn [set_file hasToken file]. rewrite Hh. reflexivity.
  - inv_bind H as u s2 E2. inv_bind H as u' s3 E3. destruct u'.
    apply (IH _ _ H). intros Hh.
    rewrite (compileStatement_leaves _ _ _ E3 Hh). discriminate.
Qed.

(** In a program that compiles, the operands of the instructions with an
    immediate operand are the texts of the number tokens, in order. *)
Lemma numbers_program fuel input s' :
  compile fuel (initial input) = Ok tt s' ->
  immediates (assembly s') = literals (tokens input).
Proof.
  intros H. pose proof (numbers_compile _ _ _ H) as N.
  unfold numbers in N. rewrite (ahead_nothing _ _ _ H) in N
    by (intros Hh; discriminate Hh).
  cbn [literals filter map] in N. rewrite app_nil_r in N. rewrite N.
  unfold ahead, tokens. cbn [initial assembly hasToken file immediates
    flat_map app]. now rewrite length_list_ascii_of_string.
Qed.

(** ** Every number token is embedded as scanned *)

(** The token of a digit string: its first 99 characters. *)
Lemma number_token s ws n tail :
  hasToken s = false -> forallb isspace ws = true ->
  is_number n = true -> stops isdigit tail = true ->
  file s = (ws ++ list_ascii_of_string n ++ tail)%list ->
  getNextToken s =
    Ok (mkToken TOKEN_NUMBER (substring 0 (MAX_TOKEN_LEN - 1) n))
       (set_file tail s).
Proof.
  intros Hh Hws Hn Ht Hf. unfold is_number in Hn.
  destruct (list_ascii_of_string n) as [|c cs] eqn:E; [discriminate|].
  cbn [forallb] in Hn.
  rewrite (getNextToken_number s ws c cs tail Hh Hws Hf)
    by (unfold number_at; now rewrite Hn, Ht).
  now rewrite <- E, string_of_list_ascii_of_string.
Qed.

(** Two sources with the same tokens are compiled alike. *)
Lemma same_tokens_same_run p1 p2 fuel :
  tokens p1 = tokens p2 ->
  alike_result (compile fuel (initial p1)) (compile fuel (initial p2)).
Proof.
  intros H. apply layout_blind_compile.
  unfold alike, same_tokens. cbn [initial vars labelCount currentAddress
    assembly currentToken hasToken file].
  rewrite !length_list_ascii_of_string. auto 10.
Qed.

(** C10, amended. Every number token is embedded verbatim, as scanned: in
    a program that compiles, the operands of the [LDI], [ADDI] and [SUBI]
    instructions of the output are, in order, exactly the texts of the
    number tokens of the source, whatever these are, leading zeros and
    values beyond 8 bits included; no digit is parsed, dropped or
    normalised and no range is checked. The text of the token scanned
    from a digit string [n] is the first 99 characters of [n], that is
    [n] itself when it has at most 99 characters. *)
Theorem number_literal_verbatim :
  (forall fuel input s',
     compile fuel (initial input) = Ok tt s' ->
     immediates (assembly s') = literals (tokens input)) /\
  (forall s ws n tail,
     hasToken s = false -> forallb isspace ws = true ->
     is_number n = true -> stops isdigit tail = true ->
     file s = (ws ++ list_ascii_of_string n ++ tail)%list ->
     getNextToken s =
       Ok (mkToken TOKEN_NUMBER (substring 0 (MAX_TOKEN_LEN - 1) n))
          (set_file tail s) /\
     ((String.length n <= MAX_TOKEN_LEN - 1)%nat ->
      substring 0 (MAX_TOKEN_LEN - 1) n = n)).
Proof.
  split.
  - intros fuel input s'. apply numbers_program.
  - intros s ws n tail Hh Hws Hn Ht Hf. split.
    + now apply (number_token s ws).
    + apply substring_all.
Qed.

Lemma number_literal_verbatim_witness :
  (exists s',
     compile 8 (initial literal_demo) = Ok tt s' /\
     immediates (assembly s') = literals (tokens literal_demo) /\
     literals (tokens literal_demo) = ["000256"; "07"; "0999"; "65536"]) /\
  getNextToken (initial " 000256;") =
    Ok (mkToken TOKEN_NUMBER "000256")
       (set_file [";"%char] (initial " 000256;")).
Proof.
  destruct number_literal_verbatim as (Program & Lexer).
  split.
  - assert (E : exists s', compile 8 (initial literal_demo) = Ok tt s')
      by (vm_compute; eexists; reflexivity).
    destruct E as [s' E]. exists s'. split; [exact E|].
    split; [exact (Program _ _ _ E)|]. vm_compute. reflexivity.
  - exact (proj1 (Lexer (initial " 000256;") [" "%char] "000256" [";"%char]
                    eq_refl eq_refl eq_refl eq_refl eq_refl)).
Defined.

(** C10 as stated fails on a literal of 100 digits. The lexer keeps its
    first 99 digits, so that the code generator is handed the same
    tokens, and behaves in the same way, as for the literal of 99 digits:
    whatever the output, it cannot carry both literals as spelled, and no
    run puts the 100 digits in an instruction. *)
Lemma literal_of_100_digits_not_verbatim :
  is_number (replicate 100 "7") = true /\
  tokens ("x = " ++ replicate 100 "7" ++ ";") =
    [mkToken TOKEN_IDENTIFIER "x"; mkToken TOKEN_ASSIGN "=";
     mkToken TOKEN_NUMBER (replicate 99 "7"); mkToken TOKEN_SEMICOLON ";"] /\
  replicate 99 "7" <> replicate 100 "7" /\
  (forall fuel can_create,
     main fuel (Some ("x = " ++ replicate 100 "7" ++ ";")) can_create =
     main fuel (Some ("x = " ++ replicate 99 "7" ++ ";")) can_create) /\
  ~ (exists fuel s',
       compile fuel (initial ("x = " ++ replicate 100 "7" ++ ";"))
         = Ok tt s' /\
       In (replicate 100 "7") (immediates (assembly s'))).
Proof.
  assert (T : tokens ("x = " ++ replicate 100 "7" ++ ";") =
    [mkToken TOKEN_IDENTIFIER "x"; mkToken TOKEN_ASSIGN "=";
     mkToken TOKEN_NUMBER (replicate 99 "7"); mkToken TOKEN_SEMICOLON ";"])
    by (vm_compute; reflexivity).
  assert (T' : tokens ("x = " ++ replicate 100 "7" ++ ";") =
               tokens ("x = " ++ replicate 99 "7" ++ ";"))
    by (vm_compute; reflexivity).
  assert (D : replicate 99 "7" <> replicate 100 "7").
  { intros H. apply (f_equal String.length) in H. vm_compute in H.
    discriminate. }
  split; [vm_compute; reflexivity|]. split; [exact T|]. split; [exact D|].
  remember (replicate 100 "7") as n100 eqn:N100.
  remember (replicate 99 "7") as n99 eqn:N99.
  remember ("x = " ++ n100 ++ ";") as p100 eqn:P100.
  remember ("x = " ++ n99 ++ ";") as p99 eqn:P99.
  split.
  - intros fuel can_create. unfold main.
    pose proof (same_tokens_same_run p100 p99 fuel T') as R.
    destruct (compile fuel (initial p100)) as [[] x1|e x1|f|],
             (compile fuel (initial p99)) as [[] x2|e' x2|f'|];
      cbn [alike_result] in R; try contradiction; trivial.
    + destruct R as [_ (_ & _ & _ & A & _)]. now rewrite A.
    + destruct R as [-> _]. reflexivity.
    + now subst.
  - intros (fuel & s' & E & I).
    rewrite (numbers_program _ _ _ E), T in I.
    unfold literals in I. cbn [filter map type text is_NUMBER In] in I.
    destruct I as [I|[]]. now apply D.
Qed.

(** ** Literals that fit a row, and the first that does not *)

Lemma bind_assoc {A B C} (m : M A) (k1 : A -> M B) (k2 : B -> M C) s :
  bind (bind m k1) k2 s = bind m (fun a => bind (k1 a) k2) s.
Proof. unfold bind. destruct (m s); reflexivity. Qed.

(** Symbolic execution of a run, one step at a time: the head of the
    program is unfolded until a primitive shows, and a primitive whose
    outcome computes is replaced by that outcome. *)
Ltac tidy :=
  cbn [type text isPlusMinus is_IDENTIFIER is_SEMICOLON is_ASSIGN is_LPAREN
       is_RPAREN is_LBRACE is_EQUAL is_operand is_EOF is_RBRACE].

Ltac unfold_head m :=
  lazymatch m with
  | compile _ => eval cbn [compile] in m
  | compileStatement _ => eval cbn [compileStatement] in m
  | compileBlock _ _ => eval cbn [compileBlock] in m
  | compileIf _ _ => eval unfold compileIf in m
  | compileExpression _ => eval unfold compileExpression in m
  | compileOperand _ => eval unfold compileOperand in m
  | expect _ _ => eval unfold expect in m
  end.

Ltac is_primitive m :=
  lazymatch m with
  | getNextToken => idtac
  | ungetToken _ => idtac
  | emit _ => idtac
  | getVarAddress _ => idtac
  | nextLabel => idtac
  | ret _ => idtac
  end.

Ltac step :=
  lazymatch goal with
  | |- output (bind (bind ?m ?k1) ?k2 ?S) = _ =>
      rewrite (bind_assoc m k1 k2 S)
  | |- output (bind ?m ?k ?S) = _ =>
      first
        [ is_primitive m;
          let r := eval vm_compute in (m S) in
          lazymatch r with
          | Ok ?a ?S1 =>
              rewrite (bind_Ok_intro m k S a S1 (eq_refl : m S = Ok a S1));
              tidy
          end
        | let m' := unfold_head m in
          change (bind m k S) with (bind m' k S) ]
  | |- output (?m ?S) = _ =>
      let m' := unfold_head m in change (m S) with (m' S)
  end.

(** The step that scans the number [c :: cs], met after the white space
    [ws] and followed by [tail]. *)
Ltac step_number ws c cs tail Hnum Htxt :=
  lazymatch goal with
  | |- output (bind getNextToken ?k ?S) = _ =>
      rewrite (bind_Ok_intro getNextToken k S _ _
                 (getNextToken_number S ws c cs tail eq_refl eq_refl eq_refl
                    (Hnum tail eq_refl)));
      rewrite Htxt; tidy
  end.

(** The step that emits a line whose length is not known by computation. *)
Ltac step_emit :=
  lazymatch goal with
  | |- output (bind (emit ?line) ?k ?S) = _ =>
      rewrite (bind_Ok_intro (emit line) k S _ _ (emit_fits line S
                 ltac:(vm_compute; lia)
                 ltac:(cbn [String.length append mnemonic];
                       unfold ASM_LINE_LEN; lia)));
      tidy
  end.

Lemma is_number_scan n :
  is_number n = true ->
  exists c cs,
    list_ascii_of_string n = c :: cs /\
    (forall tail, stops isdigit tail = true -> number_at c cs tail = true) /\
    ((String.length n <= 99)%nat ->
     substring 0 (MAX_TOKEN_LEN - 1) (string_of_list_ascii (c :: cs)) = n).
Proof.
  unfold is_number. destruct (list_ascii_of_string n) as [|c cs] eqn:E;
    [discriminate|].
  intros H. exists c, cs. split; [reflexivity|]. split.
  - intros tail Ht. unfold number_at. cbn [forallb] in H.
    now rewrite H, Ht.
  - intros Hlen. rewrite <- E, string_of_list_ascii_of_string.
    now apply substring_all.
Qed.

(** Up to the capacity of a row of [assembly] a literal compiles whatever
    its value, in each of the four positions a number can take: no run
    ends on account of the digits of a number. *)
Lemma short_literals_compile n :
  is_number n = true ->
  ((String.length n <= 95)%nat ->
   output (compile 5 (initial ("x = " ++ n ++ ";"))) =
   Some ["LDI " ++ n; "STA 16"]) /\
  ((String.length n <= 94)%nat ->
   output (compile 5 (initial ("x = y + " ++ n ++ ";"))) =
   Some ["LDA 16"; "ADDI " ++ n; "STA 17"] /\
   output (compile 5 (initial ("x = 1 - " ++ n ++ ";"))) =
   Some ["LDI 1"; "SUBI " ++ n; "STA 16"] /\
   output (compile 5 (initial ("if (x == " ++ n ++ ") { }"))) =
   Some ["LDA 16"; "SUBI " ++ n; "JZ L0"; "JMP L1"; "L0:"; "L1:"]).
Proof.
  intros Hn.
  destruct (is_number_scan n Hn) as (c & cs & Hl & Hnum & Htxt).
  split; [intros Hlen|intros Hlen; split; [|split]];
    specialize (Htxt ltac:(lia));
    unfold initial; cbn [append list_ascii_of_string];
    rewrite list_ascii_of_string_app, Hl; cbn [list_ascii_of_string].
  - repeat step. step_number [" "%char] c cs [";"%char] Hnum Htxt.
    repeat step. step_emit. repeat step. reflexivity.
  - repeat step. step_number [" "%char] c cs [";"%char] Hnum Htxt.
    repeat step. step_emit. repeat step. reflexivity.
  - repeat step. step_number [" "%char] c cs [";"%char] Hnum Htxt.
    repeat step. step_emit. repeat step. reflexivity.
  - repeat step.
    step_number [" "%char] c cs [")"; " "; "{"; " "; "}"]%char Hnum Htxt.
    repeat step. step_emit. repeat step. reflexivity.
Qed.

(** The shortest literal that does not fit: [LDI] and 96 digits make a
    line of 100 characters, one more than a row holds besides the
    terminator, and [vsprintf] writes past the row. *)
Lemma long_literal_overflows_row :
  is_number (replicate 96 "7") = true /\
  String.length ("LDI " ++ replicate 96 "7") = ASM_LINE_LEN /\
  compile 5 (initial ("x = " ++ replicate 96 "7" ++ ";")) =
    Undefined RowOverflow.
Proof. repeat split; vm_compute; reflexivity. Qed.
